(** * Project Vision: ingestion pipeline, chunker and hybrid retrieval

    A shallow embedding of the backend's core:
    - [app/chunking.py]   token-bounded sentence packing with overlap,
    - [app/embeddings.py] the batching embedding client with its retry decorator,
    - [app/search.py]     Reciprocal Rank Fusion of the two retrieval legs,
    - [app/api/query.py]  temporal intent resolution and filter assembly,
    - [worker.py]         the job runner: claim, pipeline, chunk upsert, failure path.

    Python [int] is [Z]; [str] is [string]; [dict] is a [gmap] (or an
    insertion-ordered association list where iteration order is observable);
    exceptions are values of [exn] threaded through a state-and-error monad.
    A [float] that is only carried (time offsets, vector components) is a
    [Q]; the floats the fusion computes with are any type with the
    operations of [search.PyFloat].  External services (tokenizer, sentence
    splitter, speech, storage, embedding provider, database faults, clock)
    are fields of the records the functions take as first argument. *)

From Stdlib Require Import ZArith QArith String Ascii List Lia Sorted Permutation.
From Stdlib Require Import PrimFloat Uint63.
From stdpp Require Import base option list gmap strings pretty.
Import ListNotations.

Local Open Scope string_scope.
Local Open Scope Z_scope.
Local Open Scope list_scope.

(* ===================================================================== *)
(** * Part I. The model                                                    *)
(* ===================================================================== *)

(** ** Python built-ins used by the sources *)

Module py.

(** [sep.join(parts)] *)
Fixpoint join (sep : string) (parts : list string) : string :=
  match parts with
  | [] => ""
  | [p] => p
  | p :: rest => p +:+ sep +:+ join sep rest
  end.

(** [needle in hay] for strings *)
Fixpoint contains (needle hay : string) : bool :=
  String.prefix needle hay ||
  match hay with
  | EmptyString => false
  | String _ hay' => contains needle hay'
  end.

(** [s.replace(" ", "")] *)
Fixpoint remove_spaces (s : string) : string :=
  match s with
  | EmptyString => EmptyString
  | String c s' =>
      if Ascii.eqb c " "%char then remove_spaces s' else String c (remove_spaces s')
  end.

(** [s.startswith(p)] *)
Definition startswith (s p : string) : bool := String.prefix p s.

(** [l[:n]] on a list, with Python's treatment of a negative bound. *)
Definition slice_to {A} (l : list A) (n : Z) : list A :=
  if n <? 0 then firstn (Z.to_nat (Z.of_nat (length l) + n)) l
  else firstn (Z.to_nat n) l.

(** [l[i : i + n]] for [0 <= i], [0 < n]. *)
Definition slice {A} (l : list A) (i n : nat) : list A :=
  firstn n (skipn i l).

(** The ASCII part of [str.lower]; the sources apply [lower] to arbitrary
    text, so the functions below take the lowering function as a
    parameter and this one is used for concrete runs. *)
Definition ascii_lower_char (c : ascii) : ascii :=
  let n := nat_of_ascii c in
  if ((65 <=? n)%nat && (n <=? 90)%nat)%bool then ascii_of_nat (n + 32) else c.

Fixpoint ascii_lower (s : string) : string :=
  match s with
  | EmptyString => EmptyString
  | String c s' => String (ascii_lower_char c) (ascii_lower s')
  end.

End py.

(** ** app/transcription.py: the transcription result consumed by the chunker *)

Module transcription.

Record WordInfo := {
  text : string;
  start_time : Q;
  end_time : Q
}.

Record TranscriptionResult := {
  transcript : string;
  words : list WordInfo
}.

End transcription.

(** ** app/chunking.py *)

Module chunking.

(** The collaborators of [ChunkingService]: nltk's sentence splitter, the
    tiktoken encoding, and the two string primitives whose result depends
    on Unicode tables. *)
Record TextTools := {
  sent_tokenize : string -> list string;
  encode : string -> list Z;
  lower : string -> string;
  len : string -> nat
}.

Record ChunkMetadata := {
  text : string;
  start_time : option Q;
  end_time : option Q;
  chunk_index : Z;
  page_number : option Z;
  (** [None]: the key is absent from the dict (transcript chunks). *)
  metadata : option (gmap string Z)
}.

(** [count_tokens] *)
Definition count_tokens (tt : TextTools) (text : string) : Z :=
  Z.of_nat (length (encode tt text)).

(** *** The packing loop shared by both entry points

    [S] is the sentence dict, [C] the emitted chunk; [finalize s0 rest idx]
    builds the chunk from the non-empty buffer [s0 :: rest]. *)
Section Packer.
Context {S C : Type}.
Variable token_count : S -> Z.
Variable finalize : S -> list S -> Z -> C.

(** [for s in reversed(current_chunk_sents): ... else: break] *)
Fixpoint overlap_scan (overlap_tokens : Z) (rev_sents : list S)
    (overlap_buffer : list S) (overlap_cnt : Z) : list S * Z :=
  match rev_sents with
  | [] => (overlap_buffer, overlap_cnt)
  | s :: rest =>
      if overlap_cnt + token_count s <=? overlap_tokens
      then overlap_scan overlap_tokens rest (s :: overlap_buffer)
                        (overlap_cnt + token_count s)
      else (overlap_buffer, overlap_cnt)
  end.

Record pack_state := {
  chunks : list C;
  current_chunk_sents : list S;
  current_tokens : Z;
  chunk_idx : Z
}.

Definition pack_init : pack_state :=
  {| chunks := []; current_chunk_sents := []; current_tokens := 0; chunk_idx := 0 |}.

(** The [if ... > max_tokens and current_chunk_sents:] block. *)
Definition flush_if_full (max_tokens overlap_tokens : Z)
    (st : pack_state) (sent : S) : pack_state :=
  if current_tokens st + token_count sent >? max_tokens then
    match current_chunk_sents st with
    | [] => st
    | s0 :: rest =>
        let '(overlap_buffer, overlap_cnt) :=
          overlap_scan overlap_tokens (rev (s0 :: rest)) [] 0 in
        {| chunks := chunks st ++ [finalize s0 rest (chunk_idx st)];
           current_chunk_sents := overlap_buffer;
           current_tokens := overlap_cnt;
           chunk_idx := chunk_idx st + 1 |}
    end
  else st.

(** One iteration of [while i < len(sentence_objects)]. *)
Definition pack_step (max_tokens overlap_tokens : Z)
    (st : pack_state) (sent : S) : pack_state :=
  let st' := flush_if_full max_tokens overlap_tokens st sent in
  {| chunks := chunks st';
     current_chunk_sents := current_chunk_sents st' ++ [sent];
     current_tokens := current_tokens st' + token_count sent;
     chunk_idx := chunk_idx st' |}.

Definition pack_loop (max_tokens overlap_tokens : Z)
    (sentence_objects : list S) : pack_state :=
  fold_left (pack_step max_tokens overlap_tokens) sentence_objects pack_init.

(** The loop followed by the final flush. *)
Definition pack (max_tokens overlap_tokens : Z)
    (sentence_objects : list S) : list C :=
  let st := pack_loop max_tokens overlap_tokens sentence_objects in
  match current_chunk_sents st with
  | [] => chunks st
  | s0 :: rest => chunks st ++ [finalize s0 rest (chunk_idx st)]
  end.
End Packer.

(** The same loop with the chunk replaced by the buffer it was built
    from: the sentences that make up each chunk, with its index. *)
Definition pack_groups {S} (token_count : S -> Z)
    (max_tokens overlap_tokens : Z) (sentence_objects : list S)
    : list (Z * list S) :=
  pack token_count (fun s0 rest idx => (idx, s0 :: rest))
       max_tokens overlap_tokens sentence_objects.

(** Sum of the sentences' token counts: the quantity the loop budgets. *)
Definition total_tokens {S} (token_count : S -> Z) (sents : list S) : Z :=
  fold_right (fun s acc => token_count s + acc) 0 sents.

(** *** chunk_transcript *)

Record TimedSentence := {
  ts_text : string;
  ts_start_time : Q;
  ts_end_time : Q;
  ts_token_count : Z
}.

(** The inner [while current_word_idx < total_words] loop: consume words
    until the collected cleaned characters are at least as long as the
    target.  Returns the consumed words and the remaining ones. *)
Fixpoint consume_words (tt : TextTools) (target_chars : string)
    (remaining : list transcription.WordInfo) (collected_chars : string)
    (sent_words : list transcription.WordInfo)
    : list transcription.WordInfo * list transcription.WordInfo :=
  match remaining with
  | [] => (sent_words, [])
  | w :: remaining' =>
      let w_text_clean := lower tt (py.remove_spaces (transcription.text w)) in
      let sent_words' := sent_words ++ [w] in
      let collected' := collected_chars +:+ w_text_clean in
      if (len tt target_chars <=? len tt collected')%nat
      then (sent_words', remaining')
      else consume_words tt target_chars remaining' collected' sent_words'
  end.

(** [for sent_text in sentences] *)
Fixpoint align_sentences (tt : TextTools) (sentences : list string)
    (remaining : list transcription.WordInfo) : list TimedSentence :=
  match sentences with
  | [] => []
  | sent_text :: sentences' =>
      let target_chars := lower tt (py.remove_spaces sent_text) in
      let '(sent_words, remaining') :=
        consume_words tt target_chars remaining "" [] in
      match sent_words with
      | [] => align_sentences tt sentences' remaining'
      | w0 :: ws =>
          let real_sent_text := py.join " " (map transcription.text sent_words) in
          {| ts_text := real_sent_text;
             ts_start_time := transcription.start_time w0;
             ts_end_time := transcription.end_time (List.last ws w0);
             ts_token_count := count_tokens tt real_sent_text |}
          :: align_sentences tt sentences' remaining'
      end
  end.

Definition finalize_transcript (s0 : TimedSentence) (rest : list TimedSentence)
    (chunk_idx : Z) : ChunkMetadata :=
  {| text := py.join " " (map ts_text (s0 :: rest));
     start_time := Some (ts_start_time s0);
     end_time := Some (ts_end_time (List.last rest s0));
     chunk_index := chunk_idx;
     page_number := None;
     metadata := None |}.

Definition chunk_transcript (tt : TextTools) (transcript : string)
    (words : list transcription.WordInfo)
    (max_tokens overlap_tokens : Z) : list ChunkMetadata :=
  let sentences := sent_tokenize tt transcript in
  let sentence_objects := align_sentences tt sentences words in
  pack ts_token_count finalize_transcript max_tokens overlap_tokens sentence_objects.

(** *** chunk_document *)

Record PageContent := {
  pc_page_number : Z;
  pc_text : string
}.

Record PageSentence := {
  ps_text : string;
  ps_page_number : Z;
  ps_token_count : Z
}.

Definition page_sentences (tt : TextTools) (pages : list PageContent)
    : list PageSentence :=
  flat_map (fun page =>
    map (fun s_text =>
           {| ps_text := s_text;
              ps_page_number := pc_page_number page;
              ps_token_count := count_tokens tt s_text |})
        (sent_tokenize tt (pc_text page))) pages.

Definition finalize_document (s0 : PageSentence) (rest : list PageSentence)
    (chunk_idx : Z) : ChunkMetadata :=
  let start_page := ps_page_number s0 in
  let end_page := ps_page_number (List.last rest s0) in
  {| text := py.join " " (map ps_text (s0 :: rest));
     start_time := None;
     end_time := None;
     chunk_index := chunk_idx;
     page_number := Some start_page;
     metadata := Some (<["end_page" := end_page]> {["start_page" := start_page]}) |}.

Definition chunk_document (tt : TextTools) (pages : list PageContent)
    (max_tokens overlap_tokens : Z) : list ChunkMetadata :=
  pack ps_token_count finalize_document max_tokens overlap_tokens
       (page_sentences tt pages).

(** The sentence groups behind the chunks of either entry point. *)
Definition transcript_groups (tt : TextTools) (transcript : string)
    (words : list transcription.WordInfo) (max_tokens overlap_tokens : Z) :=
  pack_groups ts_token_count max_tokens overlap_tokens
    (align_sentences tt (sent_tokenize tt transcript) words).

Definition document_groups (tt : TextTools) (pages : list PageContent)
    (max_tokens overlap_tokens : Z) :=
  pack_groups ps_token_count max_tokens overlap_tokens (page_sentences tt pages).

(** Defaults of the two entry points. *)
Definition default_max_tokens : Z := 800.
Definition default_overlap_tokens : Z := 100.

End chunking.

(** ** Exceptions

    An exception object is its class name and its [str(e)].  tenacity's
    [RetryError] wraps the exception of the last attempt; its [str] shows the
    repr of a Future object, which the retry layer takes as a parameter. *)

Inductive exn : Type :=
  | Exc (cls : string) (msg : string)
  | RetryError (last_attempt : exn) (repr : string).

Definition exn_str (e : exn) : string :=
  match e with
  | Exc _ msg => msg
  | RetryError _ repr => repr
  end.

Definition exn_class (e : exn) : string :=
  match e with
  | Exc cls _ => cls
  | RetryError _ _ => "RetryError"
  end.

Definition WorkerError (msg : string) : exn := Exc "WorkerError" msg.
Definition ValueError (msg : string) : exn := Exc "ValueError" msg.
Definition RuntimeError (msg : string) : exn := Exc "RuntimeError" msg.

(** ** app/embeddings.py *)

Module embeddings.

Definition vector := list Q.

(** [VertexAIEmbeddingService].  [model_get_embeddings calls batch] is the
    provider's answer to the call made after [calls] earlier calls: the
    provider is free to answer the same batch differently later on. *)
Record VertexAIEmbeddingService := {
  batch_limit : Z;
  model_get_embeddings : nat -> list string -> exn + list vector;
  retry_error_repr : exn -> string
}.

(** The batch limit set by [__init__].  [env_value] is [None] when
    EMBEDDING_BATCH_LIMIT is unset, [Some None] when [int(...)] of its value
    raises ValueError, and [Some (Some n)] when it parses to [n]. *)
Definition configure_batch_limit (env_value : option (option Z)) : Z :=
  let default_limit := 128 in
  match env_value with
  | None => Z.min default_limit 250
  | Some (Some env_limit) => Z.min env_limit 250
  | Some None => default_limit
  end.

(** [range(0, n, step)] for [0 < step], as the list of its values. *)
Definition range_step (n step : nat) : list nat :=
  map (fun k => (k * step)%nat) (seq 0 (Nat.div (n + step - 1) step)).

Definition mismatch_message (requested received : nat) : string :=
  "Embedding count mismatch. Requested: " +:+ pretty requested +:+
  ", Received: " +:+ pretty received +:+
  ". This indicates a partial failure or API issue.".

(** The body of the [for i in range(0, len(texts), self.batch_limit)] loop,
    over the remaining start offsets.  The second component counts the
    provider calls made so far. *)
Fixpoint embed_batches (svc : VertexAIEmbeddingService) (texts : list string)
    (step : nat) (starts : list nat) (calls : nat) (all_embeddings : list vector)
    : (exn + list vector) * nat :=
  match starts with
  | [] => (inr all_embeddings, calls)
  | i :: starts' =>
      let batch_texts := py.slice texts i step in
      match model_get_embeddings svc calls batch_texts with
      | inl e => (inl e, S calls)
      | inr embeddings =>
          if negb (length embeddings =? length batch_texts)%nat then
            (inl (RuntimeError
                    (mismatch_message (length batch_texts) (length embeddings))),
             S calls)
          else
            embed_batches svc texts step starts' (S calls)
                          (all_embeddings ++ embeddings)
      end
  end.

(** One execution of the decorated function's body. *)
Definition generate_embeddings_attempt (svc : VertexAIEmbeddingService)
    (texts : list string) (calls : nat) : (exn + list vector) * nat :=
  match texts with
  | [] => (inr [], calls)
  | _ =>
      if batch_limit svc =? 0 then
        (inl (ValueError "range() arg 3 must not be zero"), calls)
      else if batch_limit svc <? 0 then
        (inr [], calls)
      else
        let step := Z.to_nat (batch_limit svc) in
        embed_batches svc texts step (range_step (length texts) step) calls []
  end.

(** [@retry(stop=stop_after_attempt(n))] with tenacity's defaults: every
    exception is retried, and when attempt [n] fails a [RetryError]
    wrapping its exception is raised.  [more] is the number of attempts
    left after the next one; the waits between attempts are not modelled. *)
Fixpoint retry {A} (repr : exn -> string) (more : nat)
    (body : nat -> (exn + A) * nat) (calls : nat) : (exn + A) * nat :=
  match body calls with
  | (inr v, calls') => (inr v, calls')
  | (inl e, calls') =>
      match more with
      | O => (inl (RetryError e (repr e)), calls')
      | S more' => retry repr more' body calls'
      end
  end.

(** [generate_embeddings] as callers see it: the body under
    [@retry(stop=stop_after_attempt(3), ...)]. *)
Definition generate_embeddings (svc : VertexAIEmbeddingService)
    (texts : list string) (calls : nat) : (exn + list vector) * nat :=
  retry (retry_error_repr svc) 2 (generate_embeddings_attempt svc texts) calls.

(** The consecutive batches the loop sends. *)
Definition batches (texts : list string) (step : nat) : list (list string) :=
  map (fun i => py.slice texts i step) (range_step (length texts) step).

End embeddings.

(** ** app/search.py: hybrid_search *)

Module search.

(** The arithmetic of Python's [float] that the fusion uses: conversion
    from [int], [+], [/] and the [<] that [list.sort] compares keys with. *)
Class PyFloat (F : Type) := {
  f_of_int : Z -> F;
  f_add : F -> F -> F;
  f_div : F -> F -> F;
  f_lt : F -> F -> bool
}.

Section Fusion.
Context {F : Type} `{PyFloat F} {M : Type}.

(** The result dicts of the two legs; [distance] is only set by the
    semantic leg, [method] only by the keyword leg, [fusion_score] only
    by the fusion. *)
Record SearchItem := {
  chunk_id : string;
  document_id : string;
  text : string;
  score : F;
  distance : option F;
  method : option string;
  metadata : M;
  fusion_score : option F
}.

(** [scores: Dict[str, float]]: iteration order is insertion order. *)
Definition scores_dict := list (string * F).

Fixpoint dict_get (d : scores_dict) (key : string) (default : F) : F :=
  match d with
  | [] => default
  | (k, v) :: d' => if String.eqb k key then v else dict_get d' key default
  end.

Fixpoint dict_set (d : scores_dict) (key : string) (v : F) : scores_dict :=
  match d with
  | [] => [(key, v)]
  | (k, v') :: d' =>
      if String.eqb k key then (k, v) :: d' else (k, v') :: dict_set d' key v
  end.

Definition k : Z := 60.

(** [1.0 / (k + rank + 1)] *)
Definition rrf_term (rank : Z) : F :=
  f_div (f_of_int 1) (f_of_int (k + rank + 1)).

(** [for rank, item in enumerate(semantic_results)] *)
Fixpoint fuse_semantic (rank : Z) (semantic_results : list SearchItem)
    (scores : scores_dict) (chunks_map : gmap string SearchItem)
    : scores_dict * gmap string SearchItem :=
  match semantic_results with
  | [] => (scores, chunks_map)
  | item :: rest =>
      let cid := chunk_id item in
      let chunks_map := <[cid := item]> chunks_map in
      let scores :=
        dict_set scores cid (f_add (dict_get scores cid (f_of_int 0)) (rrf_term rank)) in
      fuse_semantic (rank + 1) rest scores chunks_map
  end.

(** [for rank, item in enumerate(keyword_results)] *)
Fixpoint fuse_keyword (rank : Z) (keyword_results : list SearchItem)
    (scores : scores_dict) (chunks_map : gmap string SearchItem)
    : scores_dict * gmap string SearchItem :=
  match keyword_results with
  | [] => (scores, chunks_map)
  | item :: rest =>
      let cid := chunk_id item in
      let chunks_map :=
        match chunks_map !! cid with
        | None => <[cid := item]> chunks_map
        | Some _ => chunks_map
        end in
      let scores :=
        dict_set scores cid (f_add (dict_get scores cid (f_of_int 0)) (rrf_term rank)) in
      fuse_keyword (rank + 1) rest scores chunks_map
  end.

(** [item['fusion_score'] = score; item['method'] = 'hybrid'] *)
Definition with_fusion (item : SearchItem) (fused : F) : SearchItem :=
  {| chunk_id := chunk_id item; document_id := document_id item;
     text := text item; score := score item;
     distance := distance item; method := Some "hybrid";
     metadata := metadata item; fusion_score := Some fused |}.

(** [for cid, score in scores.items()]: each fused item with its sort
    key.  [chunks_map[cid]] is defined for every key of [scores]. *)
Fixpoint collect_fused (scores : scores_dict)
    (chunks_map : gmap string SearchItem) : list (F * SearchItem) :=
  match scores with
  | [] => []
  | (cid, score) :: scores' =>
      match chunks_map !! cid with
      | Some item => (score, with_fusion item score) :: collect_fused scores' chunks_map
      | None => collect_fused scores' chunks_map
      end
  end.

(** [list.sort(key=..., reverse=True)]: descending and stable, elements
    with equal keys keep their order.  Only [<] on keys is used. *)
Fixpoint insert_desc (x : F * SearchItem) (l : list (F * SearchItem))
    : list (F * SearchItem) :=
  match l with
  | [] => [x]
  | y :: l' => if f_lt (fst x) (fst y) then y :: insert_desc x l' else x :: y :: l'
  end.

Definition sort_desc (l : list (F * SearchItem)) : list (F * SearchItem) :=
  fold_right insert_desc [] l.

(** The collaborators of one call: the outcome of embedding the query
    ([None] when [generate_embeddings([query])[0]] raises) and the two
    legs as functions of their [limit] argument. *)
Record SearchEnv := {
  query_embedding : option embeddings.vector;
  semantic_search : embeddings.vector -> Z -> list SearchItem;
  keyword_search : Z -> list SearchItem
}.

(** Steps 3 and 4 of [hybrid_search] before the final slice. *)
Definition fused_sorted (semantic_results keyword_results : list SearchItem)
    : list (F * SearchItem) :=
  let '(scores, chunks_map) := fuse_semantic 0 semantic_results [] ∅ in
  let '(scores, chunks_map) := fuse_keyword 0 keyword_results scores chunks_map in
  sort_desc (collect_fused scores chunks_map).

Definition hybrid_search (env : SearchEnv) (limit : Z) : list SearchItem :=
  match query_embedding env with
  | None => keyword_search env limit
  | Some qe =>
      let semantic_results := semantic_search env qe 20 in
      let keyword_results := keyword_search env 20 in
      py.slice_to (map snd (fused_sorted semantic_results keyword_results)) limit
  end.

(** *** The fused score as the specification states it

    Zero-based rank of a fragment in a leg. *)
Fixpoint spec_rank_from (rank : Z) (cid : string) (results : list SearchItem) : option Z :=
  match results with
  | [] => None
  | item :: rest =>
      if String.eqb (chunk_id item) cid then Some rank else spec_rank_from (rank + 1) cid rest
  end.

Definition spec_rank_in (results : list SearchItem) (cid : string) : option Z :=
  spec_rank_from 0 cid results.

(** What a leg adds to a running sum: its term when the fragment
    appears in it, nothing otherwise. *)
Definition spec_add_leg (acc : F) (rank : option Z) : F :=
  match rank with
  | Some r => f_add acc (f_div (f_of_int 1) (f_of_int (60 + r + 1)))
  | None => acc
  end.

(** The sum over the legs, accumulated from [0.0] in leg order. *)
Definition spec_rrf_sum (semantic_results keyword_results : list SearchItem)
    (cid : string) : F :=
  spec_add_leg (spec_add_leg (f_of_int 0) (spec_rank_in semantic_results cid))
          (spec_rank_in keyword_results cid).

(** No element is immediately followed by one with a larger key. *)
Definition desc (x y : F * SearchItem) : Prop := f_lt (fst x) (fst y) = false.

End Fusion.

Arguments SearchItem : clear implicits.
Arguments SearchEnv : clear implicits.
Arguments scores_dict : clear implicits.

(** Exact arithmetic. *)
#[global] Instance PyFloat_Q : PyFloat Q := {
  f_of_int := inject_Z;
  f_add := Qplus;
  f_div := Qdiv;
  f_lt := fun a b => negb (Qle_bool b a)
}.

(** IEEE 754 binary64, the arithmetic of CPython's [float]; the conversion
    is exact for the integers below 2^53 in absolute value. *)
Definition float_of_int (z : Z) : float :=
  if z <? 0 then PrimFloat.opp (PrimFloat.of_uint63 (Uint63.of_Z (- z)))
  else PrimFloat.of_uint63 (Uint63.of_Z z).

#[global] Instance PyFloat_binary64 : PyFloat float := {
  f_of_int := float_of_int;
  f_add := PrimFloat.add;
  f_div := PrimFloat.div;
  f_lt := PrimFloat.ltb
}.

End search.

(** [datetime]: microseconds since the epoch, the resolution of Python's
    [datetime]; a [timedelta] is a number of microseconds. *)
Definition datetime := Z.
Definition timedelta_days (days : Z) : Z := days * 86400 * 1000000.
Definition timedelta_hours (hours : Z) : Z := hours * 3600 * 1000000.

(** [uuid.UUID], by its canonical text. *)
Definition uuid := string.

(** ** app/api/query.py *)

Module query.

(** A JSON value of [Dict[str, Any]]. *)
Inductive any : Type :=
  | ANone
  | ABool (b : bool)
  | AInt (z : Z)
  | AStr (s : string).

Record QueryFilters := {
  date_range : option (gmap string any);
  source_type : option (list string);
  document_ids : option (list uuid)
}.

Record QueryRequest := {
  query : string;
  filters : option QueryFilters
}.

(** The clock, [str.lower], and dateutil's [parser.parse] ([None] when it
    raises). *)
Record QueryEnv := {
  utcnow : datetime;
  lower : string -> string;
  date_parse : any -> option datetime
}.

Definition parse_temporal_intent (env : QueryEnv) (query : string) : option datetime :=
  let query_lower := lower env query in
  let now := utcnow env in
  if py.contains "last week" query_lower || py.contains "past week" query_lower then
    Some (now - timedelta_days 7)
  else if py.contains "yesterday" query_lower then
    Some (now - timedelta_days 1)
  else if py.contains "last month" query_lower || py.contains "past month" query_lower then
    Some (now - timedelta_days 30)
  else if py.contains "last 24 hours" query_lower then
    Some (now - timedelta_hours 24)
  else None.

(** The values of the [search_filters] dict. *)
Inductive filter_value : Type :=
  | FDate (d : datetime)
  | FDocuments (ids : list uuid).

(** [request.filters and request.filters.date_range and
    "start" in request.filters.date_range] *)
Definition explicit_start (request : QueryRequest) : option any :=
  match filters request with
  | None => None
  | Some f =>
      match date_range f with
      | None => None
      | Some dr => if (size dr =? 0)%nat then None else dr !! "start"
      end
  end.

(** Step 1 of [query_endpoint]: the value of [start_date]. *)
Definition resolve_start_date (env : QueryEnv) (request : QueryRequest)
    : option datetime :=
  match explicit_start request with
  | Some v => date_parse env v
  | None => parse_temporal_intent env (query request)
  end.

(** The [search_filters] dict handed to [hybrid_search]. *)
Definition build_search_filters (env : QueryEnv) (request : QueryRequest)
    : gmap string filter_value :=
  let search_filters : gmap string filter_value := ∅ in
  let search_filters :=
    match resolve_start_date env request with
    | Some start_date => <["start_date" := FDate start_date]> search_filters
    | None => search_filters
    end in
  match filters request with
  | Some f =>
      match document_ids f with
      | Some (id :: ids) => <["document_id" := FDocuments (id :: ids)]> search_filters
      | _ => search_filters
      end
  | None => search_filters
  end.

End query.

(** ** app/models.py *)

Module models.

Inductive DocumentSourceType := audio | pdf | markdown | text | web | image.
Inductive IngestionStatus := pending | processing | completed | failed.

#[global] Instance IngestionStatus_eq_dec : EqDecision IngestionStatus.
Proof. solve_decision. Defined.

Module Document.
Record t := {
  document_id : uuid;
  user_id : uuid;
  source_type : DocumentSourceType;
  title : string;
  source_uri : string;
  ingested_at : datetime;
  content_created_at : option datetime;
  status : IngestionStatus
}.
End Document.

Module Job.
Record t := {
  job_id : uuid;
  user_id : uuid;
  document_id : uuid;
  status : IngestionStatus;
  error_message : option string;
  created_at : datetime;
  updated_at : datetime
}.
End Job.

(** The table has no [updated_at] column. *)
Module Chunk.
Record t := {
  chunk_id : uuid;
  user_id : uuid;
  document_id : uuid;
  chunk_index : Z;
  text : string;
  embedding : option embeddings.vector;
  source_ref : gmap string Z;
  page_number : option Z;
  section_heading : option string;
  speaker : option string;
  start_offset : option Q;
  end_offset : option Q;
  content_time_start : option datetime;
  created_at : datetime
}.
End Chunk.

End models.

(** ** app/extraction.py *)

Module extraction.

(** pypdf's reader: the text of each page ([None] for a page whose
    [extract_text()] is empty or [None]), or an exception; and
    [bytes.decode("utf-8", errors="replace")]. *)
Record Codecs := {
  pdf_pages : string -> exn + list (option string);
  decode_utf8 : string -> string
}.

Record DocumentContent := {
  text : string;
  pages : list chunking.PageContent
}.

(** [for i, page in enumerate(reader.pages)] *)
Fixpoint number_pages (i : Z) (texts : list (option string))
    : list chunking.PageContent :=
  match texts with
  | [] => []
  | t :: rest =>
      {| chunking.pc_page_number := i + 1; chunking.pc_text := default "" t |}
      :: number_pages (i + 1) rest
  end.

Definition extract_pdf (cd : Codecs) (file_bytes : string) : DocumentContent :=
  match pdf_pages cd file_bytes with
  | inr texts =>
      {| text := py.join (String "010" (String "010" "")) (map (default "") texts);
         pages := number_pages 0 texts |}
  | inl _ => {| text := ""; pages := [] |}
  end.

Definition extract_text_file (cd : Codecs) (file_bytes : string) : DocumentContent :=
  let text := decode_utf8 cd file_bytes in
  {| text := text;
     pages := [ {| chunking.pc_page_number := 1; chunking.pc_text := text |} ] |}.

Definition extract_document_text (cd : Codecs) (file_bytes file_type : string)
    : DocumentContent :=
  if String.eqb file_type "pdf" then extract_pdf cd file_bytes
  else extract_text_file cd file_bytes.

End extraction.

(** ** worker.py *)

Module worker.
Import models.

(** *** The store and the session

    [committed] is the durable database; [session] is what the open
    transaction of the [AsyncSession] sees: every write lands there, and
    [commit] makes it durable while [rollback] discards it. *)
Record DB := {
  jobs : gmap uuid Job.t;
  documents : gmap uuid Document.t;
  chunks : list Chunk.t
}.

(** The [logger] calls of [process_job], by call site. *)
Inductive log_event : Type :=
  | ErrorJobNotFound (job_id : uuid)
  | InfoAlreadyClaimed (job_id : uuid) (status : IngestionStatus)
  | InfoClaimed (job_id : uuid)
  | InfoTranscribing (source_uri : string)
  | InfoTranscriptionComplete (n_words : nat)
  | InfoDownloading (source_uri : string)
  | WarningProtocolNotSupported (source_uri : string)
  | InfoGenerated (n_chunks : nat)
  | InfoStoring (n_embeddings : nat)
  | InfoJobCompleted (job_id : uuid)
  | ErrorJobProcessingFailed (e : exn)
  | InfoUpdatedToFailed
  | ErrorCriticalFailedToSave (commit_error : exn).

Record World := {
  committed : DB;
  session : DB;
  log : list log_event;
  uuids_drawn : nat
}.

(** The statements of [process_job] that reach the database. *)
Inductive db_op : Type :=
  | OpClaimUpdate
  | OpClaimCheck
  | OpClaimCommit
  | OpLoadJob
  | OpLoadDocument
  | OpSelectChunk (i : nat)
  | OpFinalCommit
  | OpFailUpdate
  | OpFailCommit.

(** The collaborators of one run.  [db_fault op] is the exception the
    database raises at [op], if any; [rollback] is taken not to raise.
    [services_fault] is the exception raised while the transcription and
    embedding services are constructed, if any. *)
Record Env := {
  utcnow : datetime;
  uuid4 : nat -> uuid;
  db_fault : db_op -> option exn;
  services_fault : option exn;
  transcribe_audio : string -> exn + transcription.TranscriptionResult;
  download_as_bytes : string -> string -> exn + string;
  codecs : extraction.Codecs;
  text_tools : chunking.TextTools;
  generate_embeddings : list string -> exn + list embeddings.vector
}.

(** *** State and exceptions *)

Definition M (A : Type) : Type := World -> (exn + A) * World.

Definition ret {A} (a : A) : M A := fun w => (inr a, w).
Definition raise {A} (e : exn) : M A := fun w => (inl e, w).
Definition bind {A B} (c : M A) (f : A -> M B) : M B :=
  fun w =>
    match c w with
    | (inr a, w') => f a w'
    | (inl e, w') => (inl e, w')
    end.
(** [try: c  except Exception as e: handler e] *)
Definition try_except {A} (c : M A) (handler : exn -> M A) : M A :=
  fun w =>
    match c w with
    | (inr a, w') => (inr a, w')
    | (inl e, w') => handler e w'
    end.
Definition get_session : M DB := fun w => (inr (session w), w).
Definition put_session (db : DB) : M unit :=
  fun w => (inr tt, {| committed := committed w; session := db;
                       log := log w; uuids_drawn := uuids_drawn w |}).
Definition lift {A} (r : exn + A) : M A := fun w => (r, w).

Notation "x <- c ;; f" := (bind c (fun x => f))
  (at level 100, c at next level, right associativity).
Notation "c ;;; f" := (bind c (fun _ => f))
  (at level 100, right associativity).

Definition logger (ev : log_event) : M unit :=
  fun w => (inr tt, {| committed := committed w; session := session w;
                       log := log w ++ [ev]; uuids_drawn := uuids_drawn w |}).

(** [uuid.uuid4()] *)
Definition fresh_uuid (env : Env) : M uuid :=
  fun w => (inr (uuid4 env (uuids_drawn w)),
            {| committed := committed w; session := session w;
               log := log w; uuids_drawn := S (uuids_drawn w) |}).

Definition db_guard (env : Env) (op : db_op) : M unit :=
  match db_fault env op with
  | Some e => raise e
  | None => ret tt
  end.

(** [get_transcription_service()] and [get_embedding_service()] *)
Definition init_services (env : Env) : M unit :=
  match services_fault env with
  | Some e => raise e
  | None => ret tt
  end.

(** [await session.commit()] *)
Definition commit (env : Env) (op : db_op) : M unit :=
  db_guard env op ;;;
  fun w => (inr tt, {| committed := session w; session := session w;
                       log := log w; uuids_drawn := uuids_drawn w |}).

(** [await session.rollback()] *)
Definition rollback : M unit :=
  fun w => (inr tt, {| committed := committed w; session := committed w;
                       log := log w; uuids_drawn := uuids_drawn w |}).

Definition set_jobs (db : DB) (js : gmap uuid Job.t) : DB :=
  {| jobs := js; documents := documents db; chunks := chunks db |}.
Definition set_chunks (db : DB) (cs : list Chunk.t) : DB :=
  {| jobs := jobs db; documents := documents db; chunks := cs |}.

(** *** Step 1: the claim *)

Definition mark_processing (now : datetime) (j : Job.t) : Job.t :=
  {| Job.job_id := Job.job_id j; Job.user_id := Job.user_id j;
     Job.document_id := Job.document_id j; Job.status := processing;
     Job.error_message := Job.error_message j;
     Job.created_at := Job.created_at j; Job.updated_at := now |}.

(** [update(Job).where(job_id == job_id, status == pending)
      .values(status=processing, updated_at=utcnow())]; returns
    [result.rowcount]. *)
Definition execute_claim_update (env : Env) (job_id : uuid) : M Z :=
  db_guard env OpClaimUpdate ;;;
  db <- get_session ;;
  match jobs db !! job_id with
  | Some j =>
      if bool_decide (Job.status j = pending) then
        put_session (set_jobs db (<[job_id := mark_processing (utcnow env) j]> (jobs db))) ;;;
        ret 1
      else ret 0
  | None => ret 0
  end.

(** [select(Job).where(Job.job_id == job_id)] with [scalar_one_or_none()] *)
Definition select_job (env : Env) (op : db_op) (job_id : uuid) : M (option Job.t) :=
  db_guard env op ;;;
  db <- get_session ;;
  ret (jobs db !! job_id).

Inductive claim_result := Claimed | AlreadyHandled.

Definition claim (env : Env) (job_id : uuid) : M claim_result :=
  rowcount <- execute_claim_update env job_id ;;
  if rowcount =? 0 then
    rollback ;;;
    job_check <- select_job env OpClaimCheck job_id ;;
    match job_check with
    | None =>
        logger (ErrorJobNotFound job_id) ;;;
        raise (WorkerError ("Job not found: " +:+ job_id))
    | Some j =>
        logger (InfoAlreadyClaimed job_id (Job.status j)) ;;;
        ret AlreadyHandled
    end
  else
    commit env OpClaimCommit ;;;
    ret Claimed.

(** *** Steps 2 and 3: document and extraction *)

(** [s[5:]] *)
Definition drop5 (s : string) : string := String.substring 5 (String.length s - 5) s.

(** [s.split("/", 1)] *)
Fixpoint split_once_slash (s : string) : string * option string :=
  match s with
  | EmptyString => (EmptyString, None)
  | String c s' =>
      if Ascii.eqb c "/"%char then (EmptyString, Some s')
      else let '(a, b) := split_once_slash s' in (String c a, b)
  end.

(** [s.split(".")[-1]] *)
Fixpoint after_last_dot (s : string) : string :=
  match s with
  | EmptyString => EmptyString
  | String c s' =>
      if py.contains "." s' then after_last_dot s'
      else if Ascii.eqb c "."%char then s' else String c s'
  end.

Definition file_extension (env : Env) (document : Document.t) : string :=
  match Document.source_type document with
  | pdf => "pdf"
  | _ =>
      if py.contains "." (Document.title document)
      then chunking.lower (text_tools env) (after_last_dot (Document.title document))
      else "txt"
  end.

(** The dispatch on [document.source_type]; the result is [chunks_data]. *)
Definition extract_chunks (env : Env) (document : Document.t)
    : M (list chunking.ChunkMetadata) :=
  match Document.source_type document with
  | audio =>
      logger (InfoTranscribing (Document.source_uri document)) ;;;
      tr <- lift (transcribe_audio env (Document.source_uri document)) ;;
      logger (InfoTranscriptionComplete (length (transcription.words tr))) ;;;
      ret (chunking.chunk_transcript (text_tools env)
             (transcription.transcript tr) (transcription.words tr)
             chunking.default_max_tokens chunking.default_overlap_tokens)
  | text | markdown | pdf =>
      logger (InfoDownloading (Document.source_uri document)) ;;;
      if py.startswith (Document.source_uri document) "gs://" then
        match split_once_slash (drop5 (Document.source_uri document)) with
        | (_, None) => raise (Exc "IndexError" "list index out of range")
        | (bucket_name, Some blob_name) =>
            file_bytes <- lift (download_as_bytes env bucket_name blob_name) ;;
            let ext := file_extension env document in
            let extracted_content :=
              extraction.extract_document_text (codecs env) file_bytes ext in
            ret (chunking.chunk_document (text_tools env)
                   (extraction.pages extracted_content)
                   chunking.default_max_tokens chunking.default_overlap_tokens)
        end
      else
        logger (WarningProtocolNotSupported (Document.source_uri document)) ;;;
        ret []
  | web | image => ret []
  end.

(** *** Step 5: the chunk upsert loop *)

Definition same_key (document_id : uuid) (chunk_index : Z) (c : Chunk.t) : bool :=
  String.eqb (Chunk.document_id c) document_id && (Chunk.chunk_index c =? chunk_index).

(** The [if existing:] branch.  The assignment to [existing.updated_at]
    sets an attribute the [Chunk] table does not map, so no column
    changes for it. *)
Definition overwrite (chunk_meta : chunking.ChunkMetadata)
    (emb : embeddings.vector) (existing : Chunk.t) : Chunk.t :=
  {| Chunk.chunk_id := Chunk.chunk_id existing;
     Chunk.user_id := Chunk.user_id existing;
     Chunk.document_id := Chunk.document_id existing;
     Chunk.chunk_index := Chunk.chunk_index existing;
     Chunk.text := chunking.text chunk_meta;
     Chunk.embedding := Some emb;
     Chunk.source_ref := Chunk.source_ref existing;
     Chunk.page_number := chunking.page_number chunk_meta;
     Chunk.section_heading := Chunk.section_heading existing;
     Chunk.speaker := Chunk.speaker existing;
     Chunk.start_offset := chunking.start_time chunk_meta;
     Chunk.end_offset := chunking.end_time chunk_meta;
     Chunk.content_time_start := Chunk.content_time_start existing;
     Chunk.created_at := Chunk.created_at existing |}.

(** The [else:] branch: [Chunk(...)]. *)
Definition new_chunk (env : Env) (job : Job.t) (chunk_id : uuid)
    (chunk_meta : chunking.ChunkMetadata) (emb : embeddings.vector) : Chunk.t :=
  {| Chunk.chunk_id := chunk_id;
     Chunk.user_id := Job.user_id job;
     Chunk.document_id := Job.document_id job;
     Chunk.chunk_index := chunking.chunk_index chunk_meta;
     Chunk.text := chunking.text chunk_meta;
     Chunk.embedding := Some emb;
     Chunk.source_ref := default ∅ (chunking.metadata chunk_meta);
     Chunk.page_number := chunking.page_number chunk_meta;
     Chunk.section_heading := None;
     Chunk.speaker := None;
     Chunk.start_offset := chunking.start_time chunk_meta;
     Chunk.end_offset := chunking.end_time chunk_meta;
     Chunk.content_time_start := None;
     Chunk.created_at := utcnow env |}.

(** The body of [for i, chunk_meta in enumerate(chunks_data)]. *)
Definition upsert_chunk (env : Env) (job : Job.t)
    (embeddings : list embeddings.vector)
    (i : nat) (chunk_meta : chunking.ChunkMetadata) : M unit :=
  db_guard env (OpSelectChunk i) ;;;
  db <- get_session ;;
  let key := same_key (Job.document_id job) (chunking.chunk_index chunk_meta) in
  match embeddings !! i with
  | None => raise (Exc "IndexError" "list index out of range")
  | Some emb =>
      match List.filter key (chunks db) with
      | [] =>
          chunk_id <- fresh_uuid env ;;
          put_session (set_chunks db (chunks db ++ [new_chunk env job chunk_id chunk_meta emb]))
      | [_] =>
          put_session (set_chunks db
            (map (fun c => if key c then overwrite chunk_meta emb c else c) (chunks db)))
      | _ :: _ :: _ =>
          raise (Exc "MultipleResultsFound"
                     "Multiple rows were found when one or none was required")
      end
  end.

Fixpoint store_chunks (env : Env) (job : Job.t)
    (embeddings : list embeddings.vector)
    (i : nat) (chunks_data : list chunking.ChunkMetadata) : M unit :=
  match chunks_data with
  | [] => ret tt
  | chunk_meta :: rest =>
      upsert_chunk env job embeddings i chunk_meta ;;;
      store_chunks env job embeddings (S i) rest
  end.

(** *** Steps 2 to 6 after a successful claim *)

Definition mark_completed (now : datetime) (j : Job.t) : Job.t :=
  {| Job.job_id := Job.job_id j; Job.user_id := Job.user_id j;
     Job.document_id := Job.document_id j; Job.status := completed;
     Job.error_message := Job.error_message j;
     Job.created_at := Job.created_at j; Job.updated_at := now |}.

Definition no_chunks_message (document_id : uuid) : string :=
  "No chunks produced from document " +:+ document_id +:+
  ". Source may be empty or unreadable.".

Definition count_mismatch_message (n_chunks n_embeddings : nat) : string :=
  "Embedding count mismatch! Chunks: " +:+ pretty n_chunks +:+
  ", Embeddings: " +:+ pretty n_embeddings +:+
  ". This implies a partial failure in embedding service.".

(** Steps 4 to 6, from the chunk list on. *)
Definition embed_and_store (env : Env) (job : Job.t)
    (chunks_data : list chunking.ChunkMetadata) : M unit :=
  match chunks_data with
  | [] => raise (RuntimeError (no_chunks_message (Job.document_id job)))
  | _ =>
      logger (InfoGenerated (length chunks_data)) ;;;
      let texts := map chunking.text chunks_data in
      embeddings <- lift (generate_embeddings env texts) ;;
      if negb (length embeddings =? length chunks_data)%nat then
        raise (RuntimeError
                 (count_mismatch_message (length chunks_data) (length embeddings)))
      else
        logger (InfoStoring (length embeddings)) ;;;
        store_chunks env job embeddings 0 chunks_data ;;;
        db <- get_session ;;
        put_session (set_jobs db
          (alter (mark_completed (utcnow env)) (Job.job_id job) (jobs db))) ;;;
        commit env OpFinalCommit ;;;
        logger (InfoJobCompleted (Job.job_id job))
  end.

Definition pipeline (env : Env) (job_id : uuid) : M unit :=
  logger (InfoClaimed job_id) ;;;
  job_row <- select_job env OpLoadJob job_id ;;
  match job_row with
  | None => raise (Exc "NoResultFound" "No row was found when one was required")
  | Some job =>
      db_guard env OpLoadDocument ;;;
      db <- get_session ;;
      match documents db !! Job.document_id job with
      | None =>
          raise (ValueError ("Document " +:+ Job.document_id job +:+ " not found"))
      | Some document =>
          init_services env ;;;
          chunks_data <- extract_chunks env document ;;
          embed_and_store env job chunks_data
      end
  end.

(** *** The [except Exception as e:] block *)

Definition mark_failed (now : datetime) (message : string) (j : Job.t) : Job.t :=
  {| Job.job_id := Job.job_id j; Job.user_id := Job.user_id j;
     Job.document_id := Job.document_id j; Job.status := failed;
     Job.error_message := Some message;
     Job.created_at := Job.created_at j; Job.updated_at := now |}.

(** [update(Job).where(Job.job_id == job_id).values(status=failed, ...)]
    followed by [commit]. *)
Definition write_failed_status (env : Env) (job_id : uuid) (e : exn) : M unit :=
  db_guard env OpFailUpdate ;;;
  db <- get_session ;;
  put_session (set_jobs db
    (alter (mark_failed (utcnow env) (exn_str e)) job_id (jobs db))) ;;;
  commit env OpFailCommit ;;;
  logger InfoUpdatedToFailed.

Definition on_failure (env : Env) (job_id : uuid) (e : exn) : M unit :=
  logger (ErrorJobProcessingFailed e) ;;;
  rollback ;;;
  try_except (write_failed_status env job_id e)
             (fun commit_error => logger (ErrorCriticalFailedToSave commit_error)) ;;;
  raise e.

(** The [try:] block. *)
Definition claim_and_run (env : Env) (job_id : uuid) : M unit :=
  c <- claim env job_id ;;
  match c with
  | AlreadyHandled => ret tt
  | Claimed => pipeline env job_id
  end.

Definition process_job (env : Env) (job_id : uuid) : M unit :=
  try_except (claim_and_run env job_id) (on_failure env job_id).

(** A session opened on a database: nothing pending, nothing logged. *)
Definition open_session (db : DB) : World :=
  {| committed := db; session := db; log := []; uuids_drawn := 0 |}.

End worker.

(** ** Concrete collaborators and inputs for the runs below *)

Module demo.

(** A sentence ends after each full stop. *)
Fixpoint sentences_of (s : string) : list string :=
  match s with
  | EmptyString => []
  | String c s' =>
      if Ascii.eqb c "."%char then String c EmptyString :: sentences_of s'
      else match sentences_of s' with
           | [] => [String c EmptyString]
           | x :: xs => String c x :: xs
           end
  end.

(** One token per character. *)
Fixpoint char_tokens (s : string) : list Z :=
  match s with
  | EmptyString => []
  | String c s' => Z.of_nat (nat_of_ascii c) :: char_tokens s'
  end.

Definition tools : chunking.TextTools :=
  {| chunking.sent_tokenize := sentences_of;
     chunking.encode := char_tokens;
     chunking.lower := py.ascii_lower;
     chunking.len := String.length |}.

(** A sentence of [n] tokens: [n - 1] copies of [c] and a full stop. *)
Fixpoint fill (n : nat) (c : ascii) : string :=
  match n with
  | O => EmptyString
  | 1%nat => "."
  | S n' => String c (fill n' c)
  end.

Definition page (n : Z) (text : string) : chunking.PageContent :=
  {| chunking.pc_page_number := n; chunking.pc_text := text |}.

(** One page; its sentences have 50, 60, 700 and 90 tokens. *)
Definition pages_50_60_700_90 : list chunking.PageContent :=
  [ page 1 (fill 50 "a" +:+ fill 60 "b" +:+ fill 700 "c" +:+ fill 90 "d") ].

(** One page; its sentences have 50, 60 and 780 tokens. *)
Definition pages_50_60_780 : list chunking.PageContent :=
  [ page 1 (fill 50 "a" +:+ fill 60 "b" +:+ fill 780 "c") ].

Definition sentence (n : nat) (c : ascii) : chunking.PageSentence :=
  {| chunking.ps_text := fill n c;
     chunking.ps_page_number := 1;
     chunking.ps_token_count := Z.of_nat n |}.

End demo.

(* ===================================================================== *)
(** * Part II. Properties                                                  *)
(* ===================================================================== *)

(** ** The chunker *)

(** Reduce the projections of a loop state applied to a literal state. *)
Tactic Notation "pack_fields" :=
  cbn [chunking.chunks chunking.current_chunk_sents
       chunking.current_tokens chunking.chunk_idx snd fst].
Tactic Notation "pack_fields" "in" ne_hyp_list_sep(Hs, ",") :=
  cbn [chunking.chunks chunking.current_chunk_sents
       chunking.current_tokens chunking.chunk_idx snd fst] in Hs.

Section PackerFacts.
Context {S C : Type}.
Variable token_count : S -> Z.
Variables max_tokens overlap_tokens : Z.

Local Abbreviation total := (chunking.total_tokens token_count).

Lemma total_tokens_app (l1 l2 : list S) :
  total (l1 ++ l2) = total l1 + total l2.
Proof.
  induction l1 as [|s l1 IH]; simpl; [reflexivity|].
  unfold chunking.total_tokens in *. simpl. rewrite IH. lia.
Qed.

(** The overlap scan keeps a buffer that fits the overlap budget, and
    returns its token count. *)
Lemma overlap_scan_seed (rev_sents buffer : list S) (cnt : Z) :
  cnt = total buffer ->
  buffer = [] \/ total buffer <= overlap_tokens ->
  forall seed seed_cnt,
    chunking.overlap_scan token_count overlap_tokens rev_sents buffer cnt
      = (seed, seed_cnt) ->
    seed_cnt = total seed /\ (seed = [] \/ total seed <= overlap_tokens).
Proof.
  revert buffer cnt.
  induction rev_sents as [|s rest IH]; intros buffer cnt Hcnt Hfit seed seed_cnt Hscan;
    simpl in Hscan.
  - inversion Hscan; subst. split; [reflexivity | exact Hfit].
  - destruct (Z.leb_spec (cnt + token_count s) overlap_tokens) as [Hle|Hgt].
    + eapply IH; [| | exact Hscan].
      * subst cnt. unfold chunking.total_tokens. simpl. lia.
      * right. subst cnt. unfold chunking.total_tokens in *. simpl. lia.
    + inversion Hscan; subst. split; [reflexivity | exact Hfit].
Qed.

(** What every buffer, and so every emitted chunk, looks like: within
    the budget, or an overlap seed followed by exactly one sentence. *)
Definition bounded_or_seeded (g : list S) : Prop :=
  total g <= max_tokens \/
  exists seed s, g = seed ++ [s] /\ (seed = [] \/ total seed <= overlap_tokens).

Definition groups_state := @chunking.pack_state S (Z * list S).

Definition pack_invariant (st : groups_state) : Prop :=
  chunking.current_tokens st = total (chunking.current_chunk_sents st) /\
  (chunking.current_chunk_sents st = [] \/
   bounded_or_seeded (chunking.current_chunk_sents st)) /\
  Forall (fun ig => bounded_or_seeded (snd ig)) (chunking.chunks st).

Local Abbreviation group_finalize := (fun (s0 : S) (rest : list S) (idx : Z) => (idx, s0 :: rest)).

Lemma pack_step_invariant (st : groups_state) (sent : S) :
  pack_invariant st ->
  pack_invariant
    (chunking.pack_step token_count group_finalize max_tokens overlap_tokens st sent).
Proof.
  intros (Htok & Hbuf & Hchunks).
  unfold chunking.pack_step, chunking.flush_if_full.
  destruct (Z.gtb_spec (chunking.current_tokens st + token_count sent) max_tokens)
    as [Hgt|Hle].
  - destruct (chunking.current_chunk_sents st) as [|s0 rest] eqn:Hsents.
    + (* empty buffer: the sentence goes in alone *)
      rewrite Hsents. unfold pack_invariant; pack_fields. repeat split.
      * rewrite Htok. unfold chunking.total_tokens. simpl. lia.
      * right. right. exists [], sent. split; [reflexivity | left; reflexivity].
      * exact Hchunks.
    + (* flush, then seed the next buffer *)
      destruct (chunking.overlap_scan token_count overlap_tokens (rev (s0 :: rest)) [] 0)
        as [seed seed_cnt] eqn:Hscan.
      apply overlap_scan_seed in Hscan as [Hcnt Hseed];
        [| reflexivity | left; reflexivity].
      unfold pack_invariant; pack_fields. repeat split.
      * rewrite total_tokens_app, Hcnt. unfold chunking.total_tokens. simpl. lia.
      * right. right. exists seed, sent. split; [reflexivity | exact Hseed].
      * apply Forall_app. split; [exact Hchunks|].
        constructor; [| constructor]. simpl.
        destruct Hbuf as [Hnil | Hshape]; [discriminate | exact Hshape].
  - unfold pack_invariant; pack_fields. repeat split.
    + rewrite total_tokens_app, Htok. unfold chunking.total_tokens. simpl. lia.
    + right. left. rewrite total_tokens_app, <- Htok.
      unfold chunking.total_tokens. simpl. lia.
    + exact Hchunks.
Qed.

Lemma pack_fold_invariant (sents : list S) (st : groups_state) :
  pack_invariant st ->
  pack_invariant
    (fold_left (chunking.pack_step token_count group_finalize max_tokens overlap_tokens)
               sents st).
Proof.
  revert st. induction sents as [|s sents IH]; intros st Hinv; simpl.
  - exact Hinv.
  - apply IH, pack_step_invariant, Hinv.
Qed.

(** The bound the packing loop does enforce. *)
Lemma pack_groups_bounded_or_seeded (sents : list S) (idx : Z) (g : list S) :
  In (idx, g) (chunking.pack_groups token_count max_tokens overlap_tokens sents) ->
  bounded_or_seeded g.
Proof.
  unfold chunking.pack_groups, chunking.pack, chunking.pack_loop.
  pose proof (pack_fold_invariant sents chunking.pack_init) as Hinv.
  destruct Hinv as (_ & Hbuf & Hchunks).
  { repeat split; simpl; [left; reflexivity | constructor]. }
  set (st := fold_left _ sents _) in *.
  rewrite List.Forall_forall in Hchunks.
  destruct (chunking.current_chunk_sents st) as [|s0 rest] eqn:Hsents.
  - intros Hin. exact (Hchunks _ Hin).
  - intros Hin. apply in_app_or in Hin as [Hin | [Heq | []]].
    + exact (Hchunks _ Hin).
    + inversion Heq; subst. destruct Hbuf as [Hnil | Hshape]; [discriminate | exact Hshape].
Qed.

(** Changing what is built from a buffer changes nothing else: the
    chunks of any finalizer are the image of the chunks of another. *)
Section MapFusion.
Context {C1 C2 : Type}.
Variable f1 : S -> list S -> Z -> C1.
Variable f2 : S -> list S -> Z -> C2.
Variable g : C1 -> C2.
Hypothesis g_f1 : forall s0 rest idx, g (f1 s0 rest idx) = f2 s0 rest idx.

Definition same_progress (st1 : @chunking.pack_state S C1)
    (st2 : @chunking.pack_state S C2) : Prop :=
  chunking.chunks st2 = map g (chunking.chunks st1) /\
  chunking.current_chunk_sents st2 = chunking.current_chunk_sents st1 /\
  chunking.current_tokens st2 = chunking.current_tokens st1 /\
  chunking.chunk_idx st2 = chunking.chunk_idx st1.

Lemma pack_step_same_progress st1 st2 sent :
  same_progress st1 st2 ->
  same_progress
    (chunking.pack_step token_count f1 max_tokens overlap_tokens st1 sent)
    (chunking.pack_step token_count f2 max_tokens overlap_tokens st2 sent).
Proof.
  intros (Hc & Hs & Ht & Hi).
  destruct st1 as [c1 s1 t1 i1], st2 as [c2 s2 t2 i2].
  pack_fields in Hc, Hs, Ht, Hi. subst c2 s2 t2 i2.
  unfold chunking.pack_step, chunking.flush_if_full. pack_fields.
  destruct (_ >? _); [destruct s1 as [|s0 rest] |].
  - repeat split.
  - destruct (chunking.overlap_scan _ _ _ _ _) as [seed cnt].
    unfold same_progress. pack_fields. repeat split.
    rewrite map_app. cbn [map]. rewrite g_f1. reflexivity.
  - repeat split.
Qed.

Lemma pack_fold_same_progress sents st1 st2 :
  same_progress st1 st2 ->
  same_progress
    (fold_left (chunking.pack_step token_count f1 max_tokens overlap_tokens) sents st1)
    (fold_left (chunking.pack_step token_count f2 max_tokens overlap_tokens) sents st2).
Proof.
  revert st1 st2. induction sents as [|s sents IH]; intros st1 st2 Hsame; simpl.
  - exact Hsame.
  - apply IH, pack_step_same_progress, Hsame.
Qed.

Lemma pack_map sents :
  chunking.pack token_count f2 max_tokens overlap_tokens sents
  = map g (chunking.pack token_count f1 max_tokens overlap_tokens sents).
Proof.
  unfold chunking.pack, chunking.pack_loop.
  destruct (pack_fold_same_progress sents chunking.pack_init chunking.pack_init)
    as (Hc & Hs & _ & Hi).
  { repeat split. }
  destruct (fold_left (chunking.pack_step token_count f1 _ _) sents _)
    as [c1 s1 t1 i1].
  destruct (fold_left (chunking.pack_step token_count f2 _ _) sents _)
    as [c2 s2 t2 i2].
  pack_fields in Hc, Hs, Hi. pack_fields. subst c2 s2 i2.
  destruct s1 as [|s0 rest]; [reflexivity|].
  rewrite map_app. cbn [map]. rewrite g_f1. reflexivity.
Qed.
End MapFusion.

End PackerFacts.

(** The chunk built from a group of sentences and its index. *)
Definition document_chunk_of (ig : Z * list chunking.PageSentence)
    : chunking.ChunkMetadata :=
  match snd ig with
  | s0 :: rest => chunking.finalize_document s0 rest (fst ig)
  | [] => {| chunking.text := ""; chunking.start_time := None;
             chunking.end_time := None; chunking.chunk_index := fst ig;
             chunking.page_number := None; chunking.metadata := None |}
  end.

Definition transcript_chunk_of (ig : Z * list chunking.TimedSentence)
    : chunking.ChunkMetadata :=
  match snd ig with
  | s0 :: rest => chunking.finalize_transcript s0 rest (fst ig)
  | [] => {| chunking.text := ""; chunking.start_time := None;
             chunking.end_time := None; chunking.chunk_index := fst ig;
             chunking.page_number := None; chunking.metadata := None |}
  end.

(** The chunks of [chunk_document] are built, one for one and in order,
    from the sentence groups of the packing loop. *)
Lemma chunk_document_of_groups tt pages max_tokens overlap_tokens :
  chunking.chunk_document tt pages max_tokens overlap_tokens
  = map document_chunk_of (chunking.document_groups tt pages max_tokens overlap_tokens).
Proof.
  unfold chunking.chunk_document, chunking.document_groups, chunking.pack_groups.
  apply pack_map. reflexivity.
Qed.

Lemma chunk_transcript_of_groups tt transcript words max_tokens overlap_tokens :
  chunking.chunk_transcript tt transcript words max_tokens overlap_tokens
  = map transcript_chunk_of
        (chunking.transcript_groups tt transcript words max_tokens overlap_tokens).
Proof.
  unfold chunking.chunk_transcript, chunking.transcript_groups, chunking.pack_groups.
  apply pack_map. reflexivity.
Qed.

(** The chunk indices are those of the groups. *)
Lemma chunk_document_indices tt pages max_tokens overlap_tokens :
  map chunking.chunk_index (chunking.chunk_document tt pages max_tokens overlap_tokens)
  = map fst (chunking.document_groups tt pages max_tokens overlap_tokens).
Proof.
  rewrite chunk_document_of_groups, map_map. apply map_ext_in.
  intros [idx g] Hin. unfold document_chunk_of. simpl.
  destruct g; reflexivity.
Qed.

(** Token bound of the packing loop, for both entry points: a chunk stays
    within [max_tokens] unless it is an overlap seed (itself within
    [overlap_tokens]) followed by exactly one sentence. *)
Lemma document_groups_bounded_or_seeded tt pages max_tokens overlap_tokens idx g :
  In (idx, g) (chunking.document_groups tt pages max_tokens overlap_tokens) ->
  bounded_or_seeded chunking.ps_token_count max_tokens overlap_tokens g.
Proof. apply pack_groups_bounded_or_seeded. Qed.

Lemma transcript_groups_bounded_or_seeded tt transcript words max_tokens overlap_tokens idx g :
  In (idx, g) (chunking.transcript_groups tt transcript words max_tokens overlap_tokens) ->
  bounded_or_seeded chunking.ts_token_count max_tokens overlap_tokens g.
Proof. apply pack_groups_bounded_or_seeded. Qed.

(** The two ways an iteration of the loop goes. *)
Lemma pack_step_append {S C : Type} (token_count : S -> Z)
    (finalize : S -> list S -> Z -> C) max_tokens overlap_tokens
    cs sents tokens idx sent :
  (tokens + token_count sent >? max_tokens) = false ->
  chunking.pack_step token_count finalize max_tokens overlap_tokens
    {| chunking.chunks := cs; chunking.current_chunk_sents := sents;
       chunking.current_tokens := tokens; chunking.chunk_idx := idx |} sent
  = {| chunking.chunks := cs; chunking.current_chunk_sents := sents ++ [sent];
       chunking.current_tokens := tokens + token_count sent;
       chunking.chunk_idx := idx |}.
Proof.
  intros Hfits. unfold chunking.pack_step, chunking.flush_if_full. pack_fields.
  rewrite Hfits. reflexivity.
Qed.

Lemma pack_step_flush {S C : Type} (token_count : S -> Z)
    (finalize : S -> list S -> Z -> C) max_tokens overlap_tokens
    cs s0 rest tokens idx sent seed seed_cnt :
  (tokens + token_count sent >? max_tokens) = true ->
  chunking.overlap_scan token_count overlap_tokens (rev (s0 :: rest)) [] 0
    = (seed, seed_cnt) ->
  chunking.pack_step token_count finalize max_tokens overlap_tokens
    {| chunking.chunks := cs; chunking.current_chunk_sents := s0 :: rest;
       chunking.current_tokens := tokens; chunking.chunk_idx := idx |} sent
  = {| chunking.chunks := cs ++ [finalize s0 rest idx];
       chunking.current_chunk_sents := seed ++ [sent];
       chunking.current_tokens := seed_cnt + token_count sent;
       chunking.chunk_idx := idx + 1 |}.
Proof.
  intros Hfull Hscan. unfold chunking.pack_step, chunking.flush_if_full. pack_fields.
  rewrite Hfull, Hscan. reflexivity.
Qed.

(** The packing of four sentences of 50, 60, 700 and 90 tokens, whatever
    the sentence type and whatever is built from a buffer. *)
Lemma pack_50_60_700_90 {S C : Type} (token_count : S -> Z)
    (finalize : S -> list S -> Z -> C) (a b c d : S) :
  token_count a = 50 -> token_count b = 60 ->
  token_count c = 700 -> token_count d = 90 ->
  chunking.pack token_count finalize 800 100 [a; b; c; d]
  = [finalize a [b] 0; finalize b [c] 1; finalize d [] 2].
Proof.
  intros Ha Hb Hc Hd.
  unfold chunking.pack, chunking.pack_loop, chunking.pack_init.
  cbn [fold_left].
  (* 50 and 60 fit *)
  rewrite pack_step_append by (rewrite Ha; reflexivity). cbn [app].
  rewrite pack_step_append by (rewrite Ha, Hb; reflexivity). cbn [app].
  (* 700 does not: flush [a; b], keep b as seed *)
  rewrite (pack_step_flush _ _ _ _ _ _ _ _ _ _ [b] 60).
  2: { rewrite Ha, Hb, Hc. reflexivity. }
  2: { cbn. rewrite Hb. cbn. rewrite Ha. reflexivity. }
  cbn [app].
  (* 90 does not fit after [b; c]: flush, empty seed *)
  rewrite (pack_step_flush _ _ _ _ _ _ _ _ _ _ [] 0).
  2: { rewrite Hc, Hd. reflexivity. }
  2: { cbn. rewrite Hc. reflexivity. }
  reflexivity.
Qed.

(** C2. With [max_tokens = 800] and [overlap_tokens = 100], a document whose
    sentences have 50, 60, 700 and 90 tokens is packed into exactly three
    chunks: the sentences [50, 60], then [60, 700] (the 60-token sentence
    is the overlap seed), then [90] (the seed after [60, 700] is empty);
    their [chunk_index] values are 0, 1, 2. *)
Theorem C2_packing_example (tt : chunking.TextTools)
    (pages : list chunking.PageContent) (a b c d : chunking.PageSentence) :
  chunking.page_sentences tt pages = [a; b; c; d] ->
  chunking.ps_token_count a = 50 ->
  chunking.ps_token_count b = 60 ->
  chunking.ps_token_count c = 700 ->
  chunking.ps_token_count d = 90 ->
  chunking.document_groups tt pages 800 100 = [(0, [a; b]); (1, [b; c]); (2, [d])]
  /\ chunking.chunk_document tt pages 800 100
     = [chunking.finalize_document a [b] 0;
        chunking.finalize_document b [c] 1;
        chunking.finalize_document d [] 2]
  /\ map chunking.chunk_index (chunking.chunk_document tt pages 800 100) = [0; 1; 2].
Proof.
  intros Hsents Ha Hb Hc Hd.
  assert (Hgroups :
    chunking.document_groups tt pages 800 100 = [(0, [a; b]); (1, [b; c]); (2, [d])]).
  { unfold chunking.document_groups, chunking.pack_groups. rewrite Hsents.
    exact (pack_50_60_700_90 _ _ a b c d Ha Hb Hc Hd). }
  split; [exact Hgroups|]. split.
  - rewrite chunk_document_of_groups, Hgroups. reflexivity.
  - rewrite chunk_document_indices, Hgroups. reflexivity.
Qed.

Lemma C2_packing_example_witness :
  chunking.document_groups demo.tools demo.pages_50_60_700_90 800 100
  = [(0, [demo.sentence 50 "a"; demo.sentence 60 "b"]);
     (1, [demo.sentence 60 "b"; demo.sentence 700 "c"]);
     (2, [demo.sentence 90 "d"])]
  /\ map chunking.chunk_index
         (chunking.chunk_document demo.tools demo.pages_50_60_700_90 800 100)
     = [0; 1; 2].
Proof.
  destruct (C2_packing_example demo.tools demo.pages_50_60_700_90
              (demo.sentence 50 "a") (demo.sentence 60 "b")
              (demo.sentence 700 "c") (demo.sentence 90 "d"))
    as (Hgroups & _ & Hidx).
  - vm_compute. reflexivity.
  - reflexivity.
  - reflexivity.
  - reflexivity.
  - reflexivity.
  - split; [exact Hgroups | exact Hidx].
Defined.

(** The same packing through [chunk_transcript]'s finalizer. *)
Lemma transcript_packing_example (a b c d : chunking.TimedSentence) :
  chunking.ts_token_count a = 50 -> chunking.ts_token_count b = 60 ->
  chunking.ts_token_count c = 700 -> chunking.ts_token_count d = 90 ->
  chunking.pack chunking.ts_token_count chunking.finalize_transcript 800 100 [a; b; c; d]
  = [chunking.finalize_transcript a [b] 0;
     chunking.finalize_transcript b [c] 1;
     chunking.finalize_transcript d [] 2].
Proof. apply pack_50_60_700_90. Qed.

(** C1. The token bound does not hold of the code.  On a page whose
    sentences have 50, 60 and 780 tokens, with the default
    [max_tokens = 800] and [overlap_tokens = 100], [chunk_document] emits
    chunk 1 made of two sentences (the 60-token overlap seed and the
    780-token sentence) with 840 tokens in total. *)
Theorem C1_seeded_chunk_exceeds_max_tokens :
  chunking.document_groups demo.tools demo.pages_50_60_780
    chunking.default_max_tokens chunking.default_overlap_tokens
  = [(0, [demo.sentence 50 "a"; demo.sentence 60 "b"]);
     (1, [demo.sentence 60 "b"; demo.sentence 780 "c"])]
  /\ chunking.total_tokens chunking.ps_token_count
       [demo.sentence 60 "b"; demo.sentence 780 "c"] = 840
  /\ chunking.default_max_tokens = 800
  /\ map chunking.chunk_index
       (chunking.chunk_document demo.tools demo.pages_50_60_780
          chunking.default_max_tokens chunking.default_overlap_tokens) = [0; 1].
Proof. vm_compute. repeat split. Qed.

(** The token bound as the specification words it, refuted. *)
Lemma token_bound_as_specified_fails :
  ~ (forall tt pages max_tokens overlap_tokens idx g,
        In (idx, g) (chunking.document_groups tt pages max_tokens overlap_tokens) ->
        chunking.total_tokens chunking.ps_token_count g <= max_tokens
        \/ exists s, g = [s] /\ chunking.ps_token_count s > max_tokens).
Proof.
  intros Hbound.
  destruct (Hbound demo.tools demo.pages_50_60_780 800 100 1
              [demo.sentence 60 "b"; demo.sentence 780 "c"]) as [Hle | (s & Hone & _)].
  - vm_compute. right. left. reflexivity.
  - vm_compute in Hle. apply Hle. reflexivity.
  - discriminate Hone.
Qed.

(** ** Temporal intent and filter assembly *)

(** The recency rules in the order the specification lists them: the
    phrases of a rule, and how far before now its bound lies. *)
Definition spec_recency_rules : list (list string * Z) :=
  [ (["last week"; "past week"], timedelta_days 7);
    (["yesterday"], timedelta_days 1);
    (["last month"; "past month"], timedelta_days 30);
    (["last 24 hours"], timedelta_hours 24) ].

(** The offset of the first rule one of whose phrases occurs in the text. *)
Definition spec_first_matching_offset (text_lower : string) : option Z :=
  snd <$> List.find
            (fun rule => existsb (fun phrase => py.contains phrase text_lower) (fst rule))
            spec_recency_rules.

(** The caller's explicit start filter: the value under ["start"] in the
    [date_range] of the request's filters, when there is one. *)
Definition spec_explicit_start (request : query.QueryRequest) : option query.any :=
  match query.filters request with
  | Some f =>
      match query.date_range f with
      | Some dr => dr !! "start"
      | None => None
      end
  | None => None
  end.

(** The start bound as the specification resolves it: the explicit filter
    when one is supplied, the first matching recency phrase otherwise. *)
Definition spec_start_date (env : query.QueryEnv) (request : query.QueryRequest)
    : option datetime :=
  match spec_explicit_start request with
  | Some v => query.date_parse env v
  | None =>
      (fun offset => query.utcnow env - offset)
        <$> spec_first_matching_offset (query.lower env (query.query request))
  end.

Definition demo_query_env : query.QueryEnv :=
  {| query.utcnow := 1762128000000000;
     query.lower := py.ascii_lower;
     query.date_parse := fun v =>
       match v with
       | query.AStr "2025-01-01" => Some 1735689600000000
       | _ => None
       end |}.

Definition demo_request (text : string) (date_range : option (gmap string query.any))
    : query.QueryRequest :=
  {| query.query := text;
     query.filters :=
       Some {| query.date_range := date_range;
               query.source_type := None;
               query.document_ids := None |} |}.

Lemma parse_temporal_intent_first_match env text :
  query.parse_temporal_intent env text
  = (fun offset => query.utcnow env - offset)
      <$> spec_first_matching_offset (query.lower env text).
Proof.
  unfold query.parse_temporal_intent, spec_first_matching_offset, spec_recency_rules.
  cbn [List.find existsb fst snd].
  destruct (py.contains "last week" _), (py.contains "past week" _),
    (py.contains "yesterday" _), (py.contains "last month" _),
    (py.contains "past month" _), (py.contains "last 24 hours" _);
    reflexivity.
Qed.

Lemma explicit_start_spec request :
  query.explicit_start request = spec_explicit_start request.
Proof.
  unfold query.explicit_start, spec_explicit_start.
  destruct (query.filters request) as [f|]; [|reflexivity].
  destruct (query.date_range f) as [dr|]; [|reflexivity].
  destruct (Nat.eqb_spec (size dr) 0) as [Hempty|_]; [|reflexivity].
  apply map_size_empty_inv in Hempty. subst dr. symmetry. apply lookup_empty.
Qed.

Lemma resolve_start_date_spec env request :
  query.resolve_start_date env request = spec_start_date env request.
Proof.
  unfold query.resolve_start_date, spec_start_date.
  rewrite explicit_start_spec.
  destruct (spec_explicit_start request); [reflexivity|].
  apply parse_temporal_intent_first_match.
Qed.

Lemma search_filters_start_date env request :
  query.build_search_filters env request !! "start_date"
  = query.FDate <$> query.resolve_start_date env request.
Proof.
  unfold query.build_search_filters.
  set (base := match query.resolve_start_date env request with
               | Some start_date => <["start_date" := query.FDate start_date]> ∅
               | None => ∅
               end).
  assert (Hbase : base !! "start_date"
                  = query.FDate <$> query.resolve_start_date env request).
  { subst base. destruct (query.resolve_start_date env request); simpl.
    - apply lookup_insert_eq.
    - apply lookup_empty. }
  destruct (query.filters request) as [f|]; [|exact Hbase].
  destruct (query.document_ids f) as [[|id ids]|]; try exact Hbase.
  rewrite lookup_insert_ne by discriminate. exact Hbase.
Qed.

(** C9. The start-date filter handed to the search is: the parsed value
    of the caller's explicit [date_range] start when the request carries
    one (the query text is then not consulted); otherwise the bound of the
    first recency rule, in the order last/past week (7 days), yesterday
    (1 day), last/past month (30 days), last 24 hours, one of whose phrases
    occurs in the lower-cased query, taken back from now; and no filter
    when no rule matches. *)
Theorem C9_temporal_intent_resolution (env : query.QueryEnv)
    (request : query.QueryRequest) :
  query.build_search_filters env request !! "start_date"
  = query.FDate <$>
      match spec_explicit_start request with
      | Some v => query.date_parse env v
      | None =>
          (fun offset => query.utcnow env - offset)
            <$> spec_first_matching_offset (query.lower env (query.query request))
      end.
Proof.
  rewrite search_filters_start_date, resolve_start_date_spec. reflexivity.
Qed.

(** The two cases of the specification's filter-precedence test. *)
Example explicit_start_ignores_last_week :
  query.build_search_filters demo_query_env
    (demo_request "what did we ship last week"
                  (Some {[ "start" := query.AStr "2025-01-01" ]}))
    !! "start_date"
  = Some (query.FDate 1735689600000000).
Proof. vm_compute. reflexivity. Qed.

Example yesterday_is_one_day_back :
  query.build_search_filters demo_query_env
    (demo_request "What happened Yesterday?" None) !! "start_date"
  = Some (query.FDate (1762128000000000 - 86400000000)).
Proof. vm_compute. reflexivity. Qed.

Example first_rule_wins :
  query.parse_temporal_intent demo_query_env "yesterday and the past week"
  = Some (1762128000000000 - timedelta_days 7).
Proof. vm_compute. reflexivity. Qed.

(** C10. When the request's [date_range] has a ["start"] key whose value
    does not parse as a date, the endpoint's filter assembly raises
    nothing and sets no start-date filter: the value is dropped and the
    recency phrases of the query text are not consulted. *)
Theorem C10_unparseable_start_dropped (env : query.QueryEnv)
    (request : query.QueryRequest) (f : query.QueryFilters)
    (dr : gmap string query.any) (v : query.any) :
  query.filters request = Some f ->
  query.date_range f = Some dr ->
  dr !! "start" = Some v ->
  query.date_parse env v = None ->
  query.resolve_start_date env request = None
  /\ query.build_search_filters env request !! "start_date" = None.
Proof.
  intros Hf Hdr Hstart Hparse.
  assert (Hnone : query.resolve_start_date env request = None).
  { rewrite resolve_start_date_spec. unfold spec_start_date, spec_explicit_start.
    rewrite Hf, Hdr, Hstart. exact Hparse. }
  split; [exact Hnone|].
  rewrite search_filters_start_date, Hnone. reflexivity.
Qed.

Lemma C10_unparseable_start_dropped_witness :
  query.parse_temporal_intent demo_query_env "what changed last week"
    = Some (1762128000000000 - timedelta_days 7)
  /\ query.build_search_filters demo_query_env
       (demo_request "what changed last week"
                     (Some {[ "start" := query.AStr "a while ago" ]}))
       !! "start_date" = None.
Proof.
  split; [vm_compute; reflexivity|].
  refine (proj2 (C10_unparseable_start_dropped demo_query_env
            (demo_request "what changed last week"
                          (Some {[ "start" := query.AStr "a while ago" ]}))
            {| query.date_range := Some {[ "start" := query.AStr "a while ago" ]};
               query.source_type := None; query.document_ids := None |}
            {[ "start" := query.AStr "a while ago" ]}
            (query.AStr "a while ago") _ _ _ _)).
  - reflexivity.
  - reflexivity.
  - vm_compute. reflexivity.
  - reflexivity.
Defined.

(** ** Reciprocal Rank Fusion *)

Section FusionFacts.
Context {F : Type} {HF : search.PyFloat F} {M : Type}.

Local Abbreviation Item := (search.SearchItem F M).
Local Abbreviation zero := (search.f_of_int 0 : F).

Lemma dict_get_set_eq (d : search.scores_dict F) key (v dflt : F) :
  search.dict_get (search.dict_set d key v) key dflt = v.
Proof.
  induction d as [|[k0 v0] d IH]; simpl.
  - rewrite String.eqb_refl. reflexivity.
  - destruct (String.eqb_spec k0 key) as [->|Hne]; simpl.
    + rewrite String.eqb_refl. reflexivity.
    + destruct (String.eqb_spec k0 key); [contradiction | exact IH].
Qed.

Lemma dict_get_set_ne (d : search.scores_dict F) key key' (v dflt : F) :
  key <> key' ->
  search.dict_get (search.dict_set d key v) key' dflt = search.dict_get d key' dflt.
Proof.
  intros Hne. induction d as [|[k0 v0] d IH]; simpl.
  - destruct (String.eqb_spec key key'); [contradiction | reflexivity].
  - destruct (String.eqb_spec k0 key) as [->|Hk]; simpl.
    + destruct (String.eqb_spec key key'); [contradiction | reflexivity].
    + destruct (String.eqb_spec k0 key'); [reflexivity | exact IH].
Qed.

Lemma dict_set_keys (d : search.scores_dict F) key (v : F) key' :
  In key' (map fst (search.dict_set d key v)) <-> key' = key \/ In key' (map fst d).
Proof.
  induction d as [|[k0 v0] d IH]; simpl.
  - intuition.
  - destruct (String.eqb_spec k0 key) as [->|Hk]; simpl.
    + intuition.
    + rewrite IH. intuition.
Qed.

Lemma dict_set_NoDup (d : search.scores_dict F) key (v : F) :
  List.NoDup (map fst d) -> List.NoDup (map fst (search.dict_set d key v)).
Proof.
  induction d as [|[k0 v0] d IH]; simpl; intros Hnd.
  - constructor; [intros [] | constructor].
  - inversion Hnd as [|? ? Hnotin Hnd']; subst.
    destruct (String.eqb_spec k0 key) as [->|Hk]; simpl.
    + constructor; assumption.
    + constructor; [| apply IH; exact Hnd'].
      rewrite dict_set_keys. intros [Heq | Hin]; [congruence | contradiction].
Qed.

Lemma dict_get_In (d : search.scores_dict F) key (v dflt : F) :
  List.NoDup (map fst d) -> In (key, v) d -> search.dict_get d key dflt = v.
Proof.
  induction d as [|[k0 v0] d IH]; simpl; intros Hnd Hin; [contradiction|].
  inversion Hnd as [|? ? Hnotin Hnd']; subst.
  destruct Hin as [Heq | Hin].
  - inversion Heq; subst. rewrite String.eqb_refl. reflexivity.
  - destruct (String.eqb_spec k0 key) as [->|Hk].
    + exfalso. apply Hnotin. change key with (fst (key, v)). apply in_map, Hin.
    + apply IH; assumption.
Qed.

(** The score updates are the same loop in both legs. *)
Fixpoint score_pass (rank : Z) (results : list Item) (scores : search.scores_dict F)
    : search.scores_dict F :=
  match results with
  | [] => scores
  | item :: rest =>
      score_pass (rank + 1) rest
        (search.dict_set scores (search.chunk_id item)
           (search.f_add (search.dict_get scores (search.chunk_id item) zero)
                         (search.rrf_term rank)))
  end.

Lemma fuse_semantic_scores rank (results : list Item) scores chunks_map :
  fst (search.fuse_semantic rank results scores chunks_map) = score_pass rank results scores.
Proof.
  revert rank scores chunks_map.
  induction results as [|item rest IH]; intros; simpl; [reflexivity | apply IH].
Qed.

Lemma fuse_keyword_scores rank (results : list Item) scores chunks_map :
  fst (search.fuse_keyword rank results scores chunks_map) = score_pass rank results scores.
Proof.
  revert rank scores chunks_map.
  induction results as [|item rest IH]; intros; simpl; [reflexivity | apply IH].
Qed.

Lemma rank_from_None rank cid (results : list Item) :
  ~ In cid (map search.chunk_id results) -> search.spec_rank_from rank cid results = None.
Proof.
  revert rank. induction results as [|item rest IH]; intros rank Hnotin; simpl.
  - reflexivity.
  - destruct (String.eqb_spec (search.chunk_id item) cid) as [Heq|Hne].
    + exfalso. apply Hnotin. left. exact Heq.
    + apply IH. intros Hin. apply Hnotin. right. exact Hin.
Qed.

Lemma rank_from_Some_In rank cid (results : list Item) r :
  search.spec_rank_from rank cid results = Some r -> In cid (map search.chunk_id results).
Proof.
  revert rank. induction results as [|item rest IH]; intros rank; simpl; [discriminate|].
  destruct (String.eqb_spec (search.chunk_id item) cid) as [Heq|Hne].
  - intros _. left. exact Heq.
  - intros Hr. right. eapply IH, Hr.
Qed.

(** After a pass over a leg without repeated fragments, a fragment's
    score has grown by the leg's term at its rank, if it has one. *)
Lemma score_pass_get rank (results : list Item) scores cid :
  List.NoDup (map search.chunk_id results) ->
  search.dict_get (score_pass rank results scores) cid zero
  = search.spec_add_leg (search.dict_get scores cid zero) (search.spec_rank_from rank cid results).
Proof.
  revert rank scores.
  induction results as [|item rest IH]; intros rank scores Hnd; simpl; [reflexivity|].
  inversion Hnd as [|? ? Hnotin Hnd']; subst.
  rewrite IH by exact Hnd'.
  destruct (String.eqb_spec (search.chunk_id item) cid) as [Heq|Hne].
  - subst cid. rewrite rank_from_None by exact Hnotin.
    simpl. rewrite dict_get_set_eq. reflexivity.
  - rewrite dict_get_set_ne by exact Hne. reflexivity.
Qed.

Lemma score_pass_keys rank (results : list Item) scores cid :
  In cid (map fst (score_pass rank results scores))
  <-> In cid (map fst scores) \/ In cid (map search.chunk_id results).
Proof.
  revert rank scores.
  induction results as [|item rest IH]; intros rank scores; simpl; [intuition|].
  rewrite IH, dict_set_keys. intuition.
Qed.

Lemma score_pass_NoDup rank (results : list Item) scores :
  List.NoDup (map fst scores) -> List.NoDup (map fst (score_pass rank results scores)).
Proof.
  revert rank scores.
  induction results as [|item rest IH]; intros rank scores Hnd; simpl; [exact Hnd|].
  apply IH, dict_set_NoDup, Hnd.
Qed.

(** Every scored fragment has its result dict on file, and every dict is
    filed under its own id. *)
Definition on_file (scores : search.scores_dict F) (chunks_map : gmap string Item) : Prop :=
  (forall cid, In cid (map fst scores) -> is_Some (chunks_map !! cid)) /\
  (forall cid item, chunks_map !! cid = Some item -> search.chunk_id item = cid).

Lemma fuse_semantic_on_file rank (results : list Item) scores chunks_map :
  on_file scores chunks_map ->
  on_file (fst (search.fuse_semantic rank results scores chunks_map))
          (snd (search.fuse_semantic rank results scores chunks_map)).
Proof.
  revert rank scores chunks_map.
  induction results as [|item rest IH]; intros rank scores chunks_map [Hscored Hids];
    simpl; [split; assumption|].
  apply IH. split.
  - intros cid Hin. apply dict_set_keys in Hin.
    destruct (decide (search.chunk_id item = cid)) as [<-|Hne].
    + rewrite lookup_insert_eq. eexists; reflexivity.
    + rewrite lookup_insert_ne by exact Hne.
      destruct Hin as [Heq | Hin]; [congruence | exact (Hscored cid Hin)].
  - intros cid it Hlook.
    destruct (decide (search.chunk_id item = cid)) as [<-|Hne].
    + rewrite lookup_insert_eq in Hlook. congruence.
    + rewrite lookup_insert_ne in Hlook by exact Hne. exact (Hids cid it Hlook).
Qed.

Lemma fuse_keyword_on_file rank (results : list Item) scores chunks_map :
  on_file scores chunks_map ->
  on_file (fst (search.fuse_keyword rank results scores chunks_map))
          (snd (search.fuse_keyword rank results scores chunks_map)).
Proof.
  revert rank scores chunks_map.
  induction results as [|item rest IH]; intros rank scores chunks_map [Hscored Hids];
    simpl; [split; assumption|].
  apply IH.
  destruct (chunks_map !! search.chunk_id item) as [old|] eqn:Hold.
  - split; [| exact Hids].
    intros cid Hin. apply dict_set_keys in Hin.
    destruct Hin as [-> | Hin]; [| exact (Hscored cid Hin)].
    rewrite Hold. eexists; reflexivity.
  - split.
    + intros cid Hin. apply dict_set_keys in Hin.
      destruct (decide (search.chunk_id item = cid)) as [<-|Hne].
      * rewrite lookup_insert_eq. eexists; reflexivity.
      * rewrite lookup_insert_ne by exact Hne.
        destruct Hin as [Heq | Hin]; [congruence | exact (Hscored cid Hin)].
    + intros cid it Hlook.
      destruct (decide (search.chunk_id item = cid)) as [<-|Hne].
      * rewrite lookup_insert_eq in Hlook. congruence.
      * rewrite lookup_insert_ne in Hlook by exact Hne. exact (Hids cid it Hlook).
Qed.

(** The fused list: one entry per scored fragment, in the order of the
    score dict, carrying the fragment's score. *)
Lemma collect_fused_ids (scores : search.scores_dict F) chunks_map :
  on_file scores chunks_map ->
  map (fun p => search.chunk_id (snd p)) (search.collect_fused scores chunks_map)
  = map fst scores.
Proof.
  intros [Hscored Hids].
  induction scores as [|[cid s] scores IH]; simpl; [reflexivity|].
  destruct (Hscored cid) as [item Hitem]; [left; reflexivity|].
  rewrite Hitem. simpl. rewrite (Hids _ _ Hitem). f_equal.
  apply IH. intros c Hc. apply Hscored. right. exact Hc.
Qed.

Lemma collect_fused_In (scores : search.scores_dict F) chunks_map s it :
  List.NoDup (map fst scores) ->
  on_file scores chunks_map ->
  In (s, it) (search.collect_fused scores chunks_map) ->
  search.fusion_score it = Some s
  /\ In (search.chunk_id it) (map fst scores)
  /\ s = search.dict_get scores (search.chunk_id it) zero.
Proof.
  intros Hnd [Hscored Hids].
  induction scores as [|[cid s0] scores IH]; simpl; [contradiction|].
  inversion Hnd as [|? ? Hnotin Hnd']; subst.
  assert (Hscored' : forall c, In c (map fst scores) -> is_Some (chunks_map !! c)).
  { intros c Hc. apply Hscored. right. exact Hc. }
  destruct (chunks_map !! cid) as [item|] eqn:Hitem.
  - intros [Heq | Hin].
    + inversion Heq; subst. simpl. rewrite (Hids _ _ Hitem).
      rewrite String.eqb_refl. repeat split. left. reflexivity.
    + destruct (IH Hnd' Hscored' Hin) as (Hfs & Hkey & Hget).
      repeat split; [exact Hfs | right; exact Hkey |].
      destruct (String.eqb_spec cid (search.chunk_id it)) as [->|Hne];
        [contradiction | exact Hget].
  - intros Hin. destruct (IH Hnd' Hscored' Hin) as (Hfs & Hkey & Hget).
    repeat split; [exact Hfs | right; exact Hkey |].
    destruct (String.eqb_spec cid (search.chunk_id it)) as [->|Hne];
      [contradiction | exact Hget].
Qed.

(** *** The sort *)

Lemma insert_desc_perm (x : F * Item) l :
  Permutation (search.insert_desc x l) (x :: l).
Proof.
  induction l as [|y l IH]; simpl; [reflexivity|].
  destruct (search.f_lt (fst x) (fst y)); [| reflexivity].
  rewrite IH. apply perm_swap.
Qed.

Lemma sort_desc_perm (l : list (F * Item)) : Permutation (search.sort_desc l) l.
Proof.
  induction l as [|x l IH]; simpl; [reflexivity|].
  rewrite insert_desc_perm. constructor. exact IH.
Qed.

Section Sorted.
(** [<] on the keys in play is the strict part of a total preorder, as it
    is on floats that are not NaN. *)
Variable in_play : F -> Prop.
Hypothesis lt_asym : forall x y : F,
  in_play x -> in_play y -> search.f_lt x y = true -> search.f_lt y x = false.
Hypothesis ge_trans : forall x y z : F,
  in_play x -> in_play y -> in_play z ->
  search.f_lt x y = false -> search.f_lt y z = false -> search.f_lt x z = false.

Lemma insert_desc_sorted (x : F * Item) l :
  in_play (fst x) -> Forall (fun p => in_play (fst p)) l ->
  StronglySorted search.desc l -> StronglySorted search.desc (search.insert_desc x l).
Proof.
  intros Hx. induction l as [|y l IH]; simpl; intros Hl Hs.
  - constructor; constructor.
  - inversion Hs as [|? ? Hs' Hall]; subst.
    inversion Hl as [|? ? Hy Hl']; subst.
    destruct (search.f_lt (fst x) (fst y)) eqn:Hxy.
    + constructor; [apply IH; assumption|].
      rewrite List.Forall_forall in *. intros z Hz.
      apply (Permutation_in _ (insert_desc_perm x l)) in Hz.
      destruct Hz as [<- | Hz]; [apply lt_asym; assumption | apply Hall; exact Hz].
    + constructor; [exact Hs|].
      constructor; [exact Hxy|].
      rewrite List.Forall_forall in *. intros z Hz.
      eapply (ge_trans _ (fst y)); auto. apply Hall; exact Hz.
Qed.

Lemma sort_desc_in_play (l : list (F * Item)) :
  Forall (fun p => in_play (fst p)) l ->
  Forall (fun p => in_play (fst p)) (search.sort_desc l).
Proof.
  intros Hl. rewrite List.Forall_forall in *. intros p Hp.
  apply Hl. exact (Permutation_in _ (sort_desc_perm l) Hp).
Qed.

Lemma sort_desc_sorted (l : list (F * Item)) :
  Forall (fun p => in_play (fst p)) l ->
  StronglySorted search.desc (search.sort_desc l).
Proof.
  induction l as [|x l IH]; simpl; intros Hl; [constructor|].
  inversion Hl as [|? ? Hx Hl']; subst.
  apply insert_desc_sorted; [exact Hx | apply sort_desc_in_play; exact Hl' | apply IH; exact Hl'].
Qed.
End Sorted.


(** *** The fusion as a whole *)

Definition fused_scores (semantic_results keyword_results : list Item)
    : search.scores_dict F :=
  score_pass 0 keyword_results (score_pass 0 semantic_results []).

Lemma fused_sorted_unfold (semantic_results keyword_results : list Item) :
  exists chunks_map,
    on_file (fused_scores semantic_results keyword_results) chunks_map /\
    search.fused_sorted semantic_results keyword_results
    = search.sort_desc
        (search.collect_fused (fused_scores semantic_results keyword_results) chunks_map).
Proof.
  unfold search.fused_sorted, fused_scores.
  pose proof (fuse_semantic_scores 0 semantic_results [] ∅) as Hs1.
  pose proof (fuse_semantic_on_file 0 semantic_results [] ∅) as Hf1.
  destruct (search.fuse_semantic 0 semantic_results [] ∅) as [scores1 map1].
  simpl in Hs1, Hf1. subst scores1.
  pose proof (fuse_keyword_scores 0 keyword_results
                (score_pass 0 semantic_results []) map1) as Hs2.
  pose proof (fuse_keyword_on_file 0 keyword_results
                (score_pass 0 semantic_results []) map1) as Hf2.
  destruct (search.fuse_keyword 0 keyword_results _ map1) as [scores2 map2].
  simpl in Hs2, Hf2. subst scores2.
  exists map2. split; [| reflexivity].
  apply Hf2, Hf1. split.
  - intros cid [].
  - intros cid item Hlook. rewrite lookup_empty in Hlook. discriminate.
Qed.

Lemma fused_scores_keys (semantic_results keyword_results : list Item) cid :
  In cid (map fst (fused_scores semantic_results keyword_results))
  <-> In cid (map search.chunk_id semantic_results)
      \/ In cid (map search.chunk_id keyword_results).
Proof.
  unfold fused_scores. rewrite !score_pass_keys. simpl. intuition.
Qed.

Lemma fused_scores_NoDup (semantic_results keyword_results : list Item) :
  List.NoDup (map fst (fused_scores semantic_results keyword_results)).
Proof. unfold fused_scores. apply score_pass_NoDup, score_pass_NoDup. constructor. Qed.

Lemma fused_scores_get (semantic_results keyword_results : list Item) cid :
  List.NoDup (map search.chunk_id semantic_results) ->
  List.NoDup (map search.chunk_id keyword_results) ->
  search.dict_get (fused_scores semantic_results keyword_results) cid zero
  = search.spec_rrf_sum semantic_results keyword_results cid.
Proof.
  intros Hsem Hkw. unfold fused_scores, search.spec_rrf_sum, search.spec_rank_in.
  rewrite !score_pass_get by assumption. reflexivity.
Qed.

(** Each fused entry carries the sum of its legs' terms, as sort key and
    as the item's [fusion_score]. *)
Lemma fused_sorted_In (semantic_results keyword_results : list Item) s it :
  List.NoDup (map search.chunk_id semantic_results) ->
  List.NoDup (map search.chunk_id keyword_results) ->
  In (s, it) (search.fused_sorted semantic_results keyword_results) ->
  s = search.spec_rrf_sum semantic_results keyword_results (search.chunk_id it)
  /\ search.fusion_score it = Some s
  /\ (In (search.chunk_id it) (map search.chunk_id semantic_results)
      \/ In (search.chunk_id it) (map search.chunk_id keyword_results)).
Proof.
  intros Hsem Hkw Hin.
  destruct (fused_sorted_unfold semantic_results keyword_results)
    as (chunks_map & Hfile & Heq).
  rewrite Heq in Hin.
  apply (Permutation_in _ (sort_desc_perm _)) in Hin.
  apply collect_fused_In in Hin as (Hfs & Hkey & Hget);
    [| apply fused_scores_NoDup | exact Hfile].
  rewrite fused_scores_get in Hget by assumption.
  apply fused_scores_keys in Hkey. auto.
Qed.

(** The fused list holds each fragment of either leg exactly once. *)
Lemma fused_sorted_ids (semantic_results keyword_results : list Item) :
  Permutation
    (map (fun p => search.chunk_id (snd p))
         (search.fused_sorted semantic_results keyword_results))
    (map fst (fused_scores semantic_results keyword_results)).
Proof.
  destruct (fused_sorted_unfold semantic_results keyword_results)
    as (chunks_map & Hfile & Heq).
  rewrite Heq, <- (collect_fused_ids _ _ Hfile).
  apply Permutation_map, sort_desc_perm.
Qed.

End FusionFacts.

(** When the query cannot be embedded, the keyword leg alone answers,
    with the caller's limit and without fused scores. *)
Lemma hybrid_search_fallback {F : Type} {HF : search.PyFloat F} {M : Type}
    (env : search.SearchEnv F M) (limit : Z) :
  search.query_embedding env = None ->
  search.hybrid_search env limit = search.keyword_search env limit.
Proof. intros Hqe. unfold search.hybrid_search. rewrite Hqe. reflexivity. Qed.

Lemma StronglySorted_map_in {A B : Type} (R : A -> A -> Prop) (R' : B -> B -> Prop)
    (f : A -> B) (l : list A) :
  (forall x y, In x l -> In y l -> R x y -> R' (f x) (f y)) ->
  StronglySorted R l -> StronglySorted R' (map f l).
Proof.
  induction l as [|a l IH]; intros Himp Hs; simpl; [constructor|].
  inversion Hs as [|? ? Hs' Hall]; subst.
  constructor.
  - apply IH; [| exact Hs'].
    intros x y Hx Hy. apply Himp; right; assumption.
  - rewrite List.Forall_forall in *. intros b Hb.
    apply in_map_iff in Hb as (y & <- & Hy).
    apply Himp; [left; reflexivity | right; exact Hy | apply Hall; exact Hy].
Qed.

Lemma In_firstn {A : Type} (n : nat) (l : list A) (x : A) :
  In x (firstn n l) -> In x l.
Proof.
  revert n. induction l as [|a l IH]; intros [|n]; simpl; try contradiction.
  intros [Heq | Hin]; [left; exact Heq | right; exact (IH n Hin)].
Qed.

Lemma StronglySorted_firstn {A : Type} (R : A -> A -> Prop) (n : nat) (l : list A) :
  StronglySorted R l -> StronglySorted R (firstn n l).
Proof.
  revert n. induction l as [|a l IH]; intros [|n] Hs; simpl; try constructor.
  - inversion Hs; subst. apply IH. assumption.
  - inversion Hs as [|? ? Hs' Hall]; subst.
    rewrite List.Forall_forall in *. intros x Hx.
    apply Hall. exact (In_firstn n l x Hx).
Qed.

Lemma slice_to_nonneg {A : Type} (l : list A) (n : Z) :
  0 <= n -> py.slice_to l n = firstn (Z.to_nat n) l.
Proof.
  intros Hn. unfold py.slice_to.
  destruct (Z.ltb_spec n 0); [lia | reflexivity].
Qed.

Lemma StronglySorted_app_In {A : Type} (R : A -> A -> Prop) (l1 l2 : list A) (x y : A) :
  StronglySorted R (l1 ++ l2) -> In x l1 -> In y l2 -> R x y.
Proof.
  induction l1 as [|a l1 IH]; simpl; intros Hs Hx Hy; [contradiction|].
  inversion Hs as [|? ? Hs' Hall]; subst.
  destruct Hx as [<-|Hx]; [| exact (IH Hs' Hx Hy)].
  rewrite List.Forall_forall in Hall. apply Hall. apply in_or_app. right. exact Hy.
Qed.

(** C3. When the query embedding is obtained, [hybrid_search] returns
    fragments each of which comes from one of the two legs and carries as
    fused score the sum, accumulated from 0.0 over the semantic and then
    the keyword leg, of [1 / (60 + r + 1)] for its zero-based rank [r] in
    each leg it appears in; no returned fragment has a smaller fused score
    than a later one.  The result is sorted and then truncated: it is the
    first [limit] entries of a list that holds every fragment of either
    leg once and is itself sorted by descending fused score, so no
    fragment that was left out has a larger fused score than a returned
    one.  The legs list no fragment twice, and [<] on the fused scores is
    the strict part of a total preorder. *)
Theorem C3_reciprocal_rank_fusion {F : Type} {HF : search.PyFloat F} {M : Type}
    (env : search.SearchEnv F M) (limit : Z) (qe : embeddings.vector) :
  let semantic_results := search.semantic_search env qe 20 in
  let keyword_results := search.keyword_search env 20 in
  let fused_score := search.spec_rrf_sum semantic_results keyword_results in
  let in_legs := fun cid =>
    In cid (map search.chunk_id semantic_results)
    \/ In cid (map search.chunk_id keyword_results) in
  let results := search.hybrid_search env limit in
  (forall a b, in_legs a -> in_legs b ->
     search.f_lt (fused_score a) (fused_score b) = true ->
     search.f_lt (fused_score b) (fused_score a) = false) ->
  (forall a b c, in_legs a -> in_legs b -> in_legs c ->
     search.f_lt (fused_score a) (fused_score b) = false ->
     search.f_lt (fused_score b) (fused_score c) = false ->
     search.f_lt (fused_score a) (fused_score c) = false) ->
  search.query_embedding env = Some qe ->
  List.NoDup (map search.chunk_id semantic_results) ->
  List.NoDup (map search.chunk_id keyword_results) ->
  0 <= limit ->
  (forall item, In item results ->
     search.fusion_score item = Some (fused_score (search.chunk_id item))
     /\ in_legs (search.chunk_id item))
  /\ StronglySorted
       (fun x y => search.f_lt (fused_score (search.chunk_id x))
                               (fused_score (search.chunk_id y)) = false)
       results
  /\ (exists fused,
        results = firstn (Z.to_nat limit) fused
        /\ List.NoDup (map search.chunk_id fused)
        /\ (forall cid, In cid (map search.chunk_id fused) <-> in_legs cid)
        /\ StronglySorted
             (fun x y => search.f_lt (fused_score (search.chunk_id x))
                                     (fused_score (search.chunk_id y)) = false)
             fused)
  /\ (forall item cid,
        In item results -> in_legs cid -> ~ In cid (map search.chunk_id results) ->
        search.f_lt (fused_score (search.chunk_id item)) (fused_score cid) = false)
  /\ Z.of_nat (length results) <= limit.
Proof.
  intros semantic_results keyword_results fused_score in_legs results
         lt_asym ge_trans Hqe Hsem Hkw Hlimit.
  assert (Hresults : results
            = firstn (Z.to_nat limit)
                     (map snd (search.fused_sorted semantic_results keyword_results))).
  { subst results. unfold search.hybrid_search. rewrite Hqe.
    apply slice_to_nonneg, Hlimit. }
  assert (Hentry : forall p,
            In p (search.fused_sorted semantic_results keyword_results) ->
            fst p = fused_score (search.chunk_id (snd p))
            /\ search.fusion_score (snd p) = Some (fst p)
            /\ in_legs (search.chunk_id (snd p))).
  { intros [s it] Hin. apply fused_sorted_In; assumption. }
  assert (Hsorted : StronglySorted
            (fun x y => search.f_lt (fused_score (search.chunk_id x))
                                    (fused_score (search.chunk_id y)) = false)
            (map snd (search.fused_sorted semantic_results keyword_results))).
  { apply (StronglySorted_map_in search.desc).
    - intros x y Hx Hy Hdesc. unfold search.desc in Hdesc.
      rewrite (proj1 (Hentry x Hx)), (proj1 (Hentry y Hy)) in Hdesc. exact Hdesc.
    - pose proof Hentry as Hentry'.
      destruct (fused_sorted_unfold semantic_results keyword_results)
        as (chunks_map & _ & Heq).
      rewrite Heq in Hentry' |- *.
      apply (sort_desc_sorted
               (fun x => exists cid, in_legs cid /\ x = fused_score cid)).
      + intros x y (a & Ha & ->) (b & Hb & ->). apply lt_asym; assumption.
      + intros x y z (a & Ha & ->) (b & Hb & ->) (c & Hc & ->).
        apply ge_trans; assumption.
      + apply List.Forall_forall. intros p Hp.
        destruct (Hentry' p) as (Hkey & _ & Hleg).
        { exact (Permutation_in _ (Permutation_sym (sort_desc_perm _)) Hp). }
        exists (search.chunk_id (snd p)). split; assumption. }
  assert (Hids : forall cid,
            In cid (map search.chunk_id
                        (map snd (search.fused_sorted semantic_results keyword_results)))
            <-> in_legs cid).
  { intros cid. rewrite map_map.
    pose proof (fused_sorted_ids semantic_results keyword_results) as Hperm.
    subst in_legs. cbv beta. rewrite <- fused_scores_keys.
    split; intros Hin.
    - eapply Permutation_in; [exact Hperm | exact Hin].
    - eapply Permutation_in; [symmetry; exact Hperm | exact Hin]. }
  split; [| split; [| split; [| split]]].
  - intros item Hin. rewrite Hresults in Hin. apply In_firstn in Hin.
    apply in_map_iff in Hin as (p & <- & Hp).
    destruct (Hentry p Hp) as (Hkey & Hfs & Hleg).
    split; [rewrite Hfs, Hkey; reflexivity | exact Hleg].
  - rewrite Hresults. apply StronglySorted_firstn. exact Hsorted.
  - exists (map snd (search.fused_sorted semantic_results keyword_results)).
    split; [exact Hresults|].
    split; [| split; [exact Hids | exact Hsorted]].
    rewrite map_map.
    pose proof (fused_sorted_ids semantic_results keyword_results) as Hperm.
    eapply Permutation_NoDup; [symmetry; exact Hperm | apply fused_scores_NoDup].
  - intros item cid Hitem Hleg Hout.
    apply Hids in Hleg. apply in_map_iff in Hleg as (other & Hcid & Hother).
    subst cid. rewrite Hresults in Hitem, Hout.
    rewrite <- (firstn_skipn (Z.to_nat limit)
                  (map snd (search.fused_sorted semantic_results keyword_results)))
      in Hother, Hsorted.
    apply in_app_or in Hother as [Hkept|Hcut].
    + exfalso. apply Hout. apply in_map. exact Hkept.
    + exact (StronglySorted_app_In _ _ _ _ _ Hsorted Hitem Hcut).
  - rewrite Hresults. pose proof (firstn_le_length (Z.to_nat limit)
      (map snd (search.fused_sorted semantic_results keyword_results))). lia.
Qed.

(** A run over [Q]: the semantic leg returns a, b, c and the keyword leg
    c, d. *)
Definition demo_item (id : string) : search.SearchItem Q unit :=
  {| search.chunk_id := id; search.document_id := "doc-1"; search.text := id;
     search.score := 0%Q; search.distance := None; search.method := None;
     search.metadata := tt; search.fusion_score := None |}.

Definition demo_search_env : search.SearchEnv Q unit :=
  {| search.query_embedding := Some [];
     search.semantic_search := fun _ _ => [demo_item "a"; demo_item "b"; demo_item "c"];
     search.keyword_search := fun _ => [demo_item "c"; demo_item "d"] |}.

Lemma Q_lt_asym (x y : Q) : search.f_lt x y = true -> search.f_lt y x = false.
Proof.
  simpl. intros Hxy. apply negb_true_iff in Hxy. apply negb_false_iff.
  apply Qle_bool_iff. apply Qlt_le_weak. apply Qnot_le_lt.
  intros Hle. apply Qle_bool_iff in Hle. congruence.
Qed.

Lemma Q_ge_trans (x y z : Q) :
  search.f_lt x y = false -> search.f_lt y z = false -> search.f_lt x z = false.
Proof.
  simpl. rewrite !negb_false_iff, !Qle_bool_iff. intros Hyx Hzy.
  eapply Qle_trans; eassumption.
Qed.

(** The same run in binary64: the fused scores as CPython computes them,
    and the order they give. *)
Definition float_item (id : string) : search.SearchItem float unit :=
  {| search.chunk_id := id; search.document_id := "doc-1"; search.text := id;
     search.score := 0%float; search.distance := None; search.method := None;
     search.metadata := tt; search.fusion_score := None |}.

Definition float_search_env : search.SearchEnv float unit :=
  {| search.query_embedding := Some [];
     search.semantic_search := fun _ _ => [float_item "a"; float_item "b"; float_item "c"];
     search.keyword_search := fun _ => [float_item "c"; float_item "d"] |}.

Example rrf_in_binary64 :
  map (fun item => (search.chunk_id item, search.fusion_score item))
      (search.hybrid_search float_search_env 20)
  = [("c", Some (0 + 1 / 63 + 1 / 61)%float);
     ("a", Some (0 + 1 / 61)%float);
     ("b", Some (0 + 1 / 62)%float);
     ("d", Some (0 + 1 / 62)%float)].
Proof. vm_compute. reflexivity. Qed.

Lemma C3_reciprocal_rank_fusion_witness :
  Forall (fun item =>
            search.fusion_score item
            = Some (search.spec_rrf_sum
                      [float_item "a"; float_item "b"; float_item "c"]
                      [float_item "c"; float_item "d"] (search.chunk_id item)))
         (search.hybrid_search float_search_env 3).
Proof.
  apply List.Forall_forall. intros item Hin.
  refine (proj1 (proj1 (C3_reciprocal_rank_fusion float_search_env 3 []
                          _ _ _ _ _ _) item Hin)).
  - intros a b Ha Hb. simpl in Ha, Hb.
    repeat match goal with H : _ \/ _ |- _ => destruct H as [H|H] end;
      try contradiction; subst; vm_compute; congruence.
  - intros a b c Ha Hb Hc. simpl in Ha, Hb, Hc.
    repeat match goal with H : _ \/ _ |- _ => destruct H as [H|H] end;
      try contradiction; subst; vm_compute; congruence.
  - reflexivity.
  - simpl. repeat constructor; simpl; intuition discriminate.
  - simpl. repeat constructor; simpl; intuition discriminate.
  - lia.
Defined.

(** The specification's example: rank 2 in the semantic leg and rank 0 in
    the keyword leg give 1/63 + 1/61, and that fragment comes first. *)
Example rrf_rank_2_and_rank_0 :
  map search.chunk_id (search.hybrid_search demo_search_env 3) = ["c"; "a"; "b"]
  /\ map search.chunk_id (search.hybrid_search demo_search_env 20) = ["c"; "a"; "b"; "d"]
  /\ exists s, (search.fusion_score <$> head (search.hybrid_search demo_search_env 3))
               = Some (Some s)
               /\ (s == 1 / 63 + 1 / 61)%Q.
Proof.
  split; [vm_compute; reflexivity|].
  split; [vm_compute; reflexivity|].
  eexists. split; [vm_compute; reflexivity | reflexivity].
Qed.

(** ** The embedding client *)

(** *** Batches *)

Lemma slice_blocks_concat {A : Type} (step m : nat) (l : list A) :
  (length l <= m * step)%nat ->
  concat (map (fun k => py.slice l (k * step) step) (seq 0 m)) = l.
Proof.
  revert l. induction m as [|m IH]; intros l Hlen.
  - simpl in *. destruct l; [reflexivity | simpl in Hlen; lia].
  - cbn [seq]. rewrite <- seq_shift. cbn [map concat]. rewrite List.map_map.
    transitivity (firstn step l ++ skipn step l); [| apply firstn_skipn].
    f_equal.
    rewrite <- (IH (skipn step l)) at 1.
    + f_equal. apply map_ext. intros k. unfold py.slice.
      rewrite skipn_skipn. f_equal. f_equal. lia.
    + rewrite length_skipn. lia.
Qed.

Lemma ceil_div_covers (n step : nat) :
  (0 < step)%nat -> (n <= (n + step - 1) / step * step)%nat.
Proof.
  intros Hstep.
  pose proof (Nat.div_mod_eq (n + step - 1) step) as Hdm.
  pose proof (Nat.mod_upper_bound (n + step - 1) step ltac:(lia)) as Hmod.
  nia.
Qed.

Lemma ceil_div_tight (n step k : nat) :
  (0 < step)%nat -> (k < (n + step - 1) / step)%nat -> (k * step < n)%nat.
Proof.
  intros Hstep Hk.
  pose proof (Nat.div_mod_eq (n + step - 1) step) as Hdm.
  pose proof (Nat.mod_upper_bound (n + step - 1) step ltac:(lia)) as Hmod.
  nia.
Qed.

(** The batches are consecutive, cover the texts, and each holds between
    one and [step] texts. *)
Lemma batches_partition (texts : list string) (step : nat) :
  (0 < step)%nat ->
  concat (embeddings.batches texts step) = texts
  /\ Forall (fun b => (0 < length b <= step)%nat) (embeddings.batches texts step).
Proof.
  intros Hstep. unfold embeddings.batches, embeddings.range_step.
  rewrite map_map. split.
  - apply slice_blocks_concat, ceil_div_covers, Hstep.
  - apply List.Forall_forall. intros b Hb.
    apply in_map_iff in Hb as (k & <- & Hk). apply in_seq in Hk.
    unfold py.slice. rewrite length_firstn, length_skipn.
    pose proof (ceil_div_tight (length texts) step k Hstep ltac:(lia)). lia.
Qed.

(** The configured limit never exceeds the provider's 250. *)
Lemma configure_batch_limit_capped env_value :
  embeddings.configure_batch_limit env_value <= 250.
Proof.
  unfold embeddings.configure_batch_limit.
  destruct env_value as [[env_limit|]|]; lia.
Qed.

(** *** One attempt *)

(** The provider answered each of the batches, from call number [calls]
    on, with as many vectors as the batch has texts. *)
Fixpoint answered (svc : embeddings.VertexAIEmbeddingService) (calls : nat)
    (bs : list (list string)) (rs : list (list embeddings.vector)) : Prop :=
  match bs, rs with
  | [], [] => True
  | b :: bs', r :: rs' =>
      embeddings.model_get_embeddings svc calls b = inr r
      /\ length r = length b
      /\ answered svc (S calls) bs' rs'
  | _, _ => False
  end.

Lemma answered_lengths svc calls bs rs :
  answered svc calls bs rs -> length (concat rs) = length (concat bs).
Proof.
  revert calls rs. induction bs as [|b bs IH]; intros calls [|r rs]; simpl;
    try contradiction; [reflexivity|].
  intros (_ & Hlen & Hrest). rewrite !length_app, Hlen, (IH _ _ Hrest). reflexivity.
Qed.

Section Attempt.
Variable svc : embeddings.VertexAIEmbeddingService.
Variable texts : list string.
Variable step : nat.

Local Abbreviation batch_at := (fun i => py.slice texts i step).

(** A run of the loop that returns has had every batch answered in full,
    and returns the answers in order after what was already collected. *)
Lemma embed_batches_returns starts calls acc vs calls' :
  embeddings.embed_batches svc texts step starts calls acc = (inr vs, calls') ->
  exists rs,
    answered svc calls (map batch_at starts) rs
    /\ vs = acc ++ concat rs
    /\ calls' = (calls + length starts)%nat.
Proof.
  revert calls acc. induction starts as [|i starts IH]; intros calls acc; simpl.
  - intros Heq. inversion Heq; subst. exists []. simpl.
    rewrite app_nil_r. repeat split. lia.
  - destruct (embeddings.model_get_embeddings svc calls (py.slice texts i step))
      as [e|r] eqn:Hcall; [discriminate|].
    destruct (Nat.eqb_spec (length r) (length (py.slice texts i step))) as [Hlen|Hlen];
      simpl; [|discriminate].
    intros Hrest. apply IH in Hrest as (rs & Hans & -> & ->).
    exists (r :: rs). simpl. rewrite <- app_assoc. repeat split; try assumption. lia.
Qed.

(** The first batch whose answer has the wrong count ends the attempt
    with the mismatch error; the batches after it are not sent. *)
Lemma embed_batches_mismatch pre i post rs r calls acc :
  answered svc calls (map batch_at pre) rs ->
  embeddings.model_get_embeddings svc (calls + length pre) (batch_at i) = inr r ->
  length r <> length (batch_at i) ->
  embeddings.embed_batches svc texts step (pre ++ i :: post) calls acc
  = (inl (RuntimeError
            (embeddings.mismatch_message (length (batch_at i)) (length r))),
     S (calls + length pre)).
Proof.
  revert rs calls acc. induction pre as [|j pre IH]; intros rs calls acc Hans Hcall Hlen.
  - simpl in *. rewrite Nat.add_0_r in Hcall. rewrite Hcall.
    destruct (Nat.eqb_spec (length r) (length (py.slice texts i step)));
      [contradiction|]. simpl. rewrite Nat.add_0_r. reflexivity.
  - destruct rs as [|r0 rs]; simpl in Hans; [contradiction|].
    destruct Hans as (Hcall0 & Hlen0 & Hans). simpl.
    rewrite Hcall0. rewrite Hlen0, Nat.eqb_refl. simpl.
    rewrite (IH rs (S calls)); [f_equal; f_equal; lia | exact Hans | | exact Hlen].
    rewrite <- Hcall. f_equal. simpl. lia.
Qed.

(** An exception of the provider ends the attempt the same way. *)
Lemma embed_batches_provider_error pre i post rs e calls acc :
  answered svc calls (map batch_at pre) rs ->
  embeddings.model_get_embeddings svc (calls + length pre) (batch_at i) = inl e ->
  embeddings.embed_batches svc texts step (pre ++ i :: post) calls acc
  = (inl e, S (calls + length pre)).
Proof.
  revert rs calls acc. induction pre as [|j pre IH]; intros rs calls acc Hans Hcall.
  - simpl in *. rewrite Nat.add_0_r in Hcall. rewrite Hcall, Nat.add_0_r. reflexivity.
  - destruct rs as [|r0 rs]; simpl in Hans; [contradiction|].
    destruct Hans as (Hcall0 & Hlen0 & Hans). simpl.
    rewrite Hcall0. rewrite Hlen0, Nat.eqb_refl. simpl.
    rewrite (IH rs (S calls)); [f_equal; lia | exact Hans |].
    rewrite <- Hcall. f_equal. simpl. lia.
Qed.
End Attempt.

(** An attempt that returns gives one vector per text. *)
Lemma attempt_returns_complete svc texts calls vs calls' :
  0 < embeddings.batch_limit svc ->
  embeddings.generate_embeddings_attempt svc texts calls = (inr vs, calls') ->
  exists rs,
    answered svc calls (embeddings.batches texts (Z.to_nat (embeddings.batch_limit svc))) rs
    /\ vs = concat rs
    /\ length vs = length texts.
Proof.
  intros Hlimit. unfold embeddings.generate_embeddings_attempt.
  destruct texts as [|t texts].
  - intros Heq. inversion Heq; subst. exists [].
    unfold embeddings.batches, embeddings.range_step. cbn [length].
    rewrite Nat.div_small by lia. repeat split.
  - destruct (Z.eqb_spec (embeddings.batch_limit svc) 0); [lia|].
    destruct (Z.ltb_spec (embeddings.batch_limit svc) 0); [lia|].
    intros Hrun. apply embed_batches_returns in Hrun as (rs & Hans & -> & _).
    exists rs. split; [exact Hans|]. split; [reflexivity|].
    simpl app. rewrite (answered_lengths _ _ _ _ Hans).
    fold (embeddings.batches (t :: texts) (Z.to_nat (embeddings.batch_limit svc))).
    assert (Hstep : (0 < Z.to_nat (embeddings.batch_limit svc))%nat) by lia.
    rewrite (proj1 (batches_partition (t :: texts) _ Hstep)). reflexivity.
Qed.

(** *** The retry decorator *)

Lemma retry_returns {A : Type} repr more (body : nat -> (exn + A) * nat) calls v calls' :
  embeddings.retry repr more body calls = (inr v, calls') ->
  exists calls0, body calls0 = (inr v, calls').
Proof.
  revert calls. induction more as [|more IH]; intros calls; simpl.
  - destruct (body calls) as [[e|v0] c] eqn:Hbody; [discriminate|].
    intros Heq. inversion Heq; subst. exists calls. exact Hbody.
  - destruct (body calls) as [[e|v0] c] eqn:Hbody.
    + apply IH.
    + intros Heq. inversion Heq; subst. exists calls. exact Hbody.
Qed.

(** The decorated call raises only after three failed attempts, and then
    a [RetryError] around the third attempt's exception. *)
Lemma generate_embeddings_raises svc texts calls e calls' :
  embeddings.generate_embeddings svc texts calls = (inl e, calls') ->
  exists e1 e2 e3 c1 c2,
    embeddings.generate_embeddings_attempt svc texts calls = (inl e1, c1)
    /\ embeddings.generate_embeddings_attempt svc texts c1 = (inl e2, c2)
    /\ embeddings.generate_embeddings_attempt svc texts c2 = (inl e3, calls')
    /\ e = RetryError e3 (embeddings.retry_error_repr svc e3).
Proof.
  unfold embeddings.generate_embeddings. simpl.
  destruct (embeddings.generate_embeddings_attempt svc texts calls)
    as [[e1|v1] c1] eqn:H1; [|discriminate].
  destruct (embeddings.generate_embeddings_attempt svc texts c1)
    as [[e2|v2] c2] eqn:H2; [|discriminate].
  destruct (embeddings.generate_embeddings_attempt svc texts c2)
    as [[e3|v3] c3] eqn:H3; [|discriminate].
  intros Heq. inversion Heq; subst.
  exists e1, e2, e3, c1, c2. repeat split; assumption.
Qed.

Lemma generate_embeddings_complete svc texts calls vs calls' :
  0 < embeddings.batch_limit svc ->
  embeddings.generate_embeddings svc texts calls = (inr vs, calls') ->
  length vs = length texts.
Proof.
  intros Hlimit Hrun. apply retry_returns in Hrun as (calls0 & Hattempt).
  apply attempt_returns_complete in Hattempt as (_ & _ & _ & Hlen); assumption.
Qed.

(** ** The job runner *)

(** *** What a step may do to the durable database *)

(** A computation that never commits leaves the durable database as it
    found it, whether it returns or raises. *)
Definition keeps_committed {A : Type} (c : worker.M A) : Prop :=
  forall w r w', c w = (r, w') -> worker.committed w' = worker.committed w.

Lemma keeps_ret {A} (a : A) : keeps_committed (worker.ret a).
Proof. intros w r w' Heq. inversion Heq; reflexivity. Qed.

Lemma keeps_raise {A} (e : exn) : keeps_committed (@worker.raise A e).
Proof. intros w r w' Heq. inversion Heq; reflexivity. Qed.

Lemma keeps_lift {A} (x : exn + A) : keeps_committed (worker.lift x).
Proof. intros w r w' Heq. inversion Heq; reflexivity. Qed.

Lemma keeps_logger ev : keeps_committed (worker.logger ev).
Proof. intros w r w' Heq. inversion Heq; reflexivity. Qed.

Lemma keeps_get_session : keeps_committed worker.get_session.
Proof. intros w r w' Heq. inversion Heq; reflexivity. Qed.

Lemma keeps_put_session db : keeps_committed (worker.put_session db).
Proof. intros w r w' Heq. inversion Heq; reflexivity. Qed.

Lemma keeps_fresh_uuid env : keeps_committed (worker.fresh_uuid env).
Proof. intros w r w' Heq. inversion Heq; reflexivity. Qed.

Lemma keeps_rollback : keeps_committed worker.rollback.
Proof. intros w r w' Heq. inversion Heq; reflexivity. Qed.

Lemma keeps_db_guard env op : keeps_committed (worker.db_guard env op).
Proof.
  unfold worker.db_guard. destruct (worker.db_fault env op);
    [apply keeps_raise | apply keeps_ret].
Qed.

Lemma keeps_init_services env : keeps_committed (worker.init_services env).
Proof.
  unfold worker.init_services. destruct (worker.services_fault env);
    [apply keeps_raise | apply keeps_ret].
Qed.

Lemma keeps_bind {A B} (c : worker.M A) (f : A -> worker.M B) :
  keeps_committed c -> (forall a, keeps_committed (f a)) ->
  keeps_committed (worker.bind c f).
Proof.
  intros Hc Hf w r w' Heq. unfold worker.bind in Heq.
  destruct (c w) as [[e|a] w1] eqn:Hcw.
  - inversion Heq; subst. exact (Hc _ _ _ Hcw).
  - rewrite (Hf a _ _ _ Heq). exact (Hc _ _ _ Hcw).
Qed.

Create HintDb keeps.

#[local] Hint Resolve keeps_ret keeps_raise keeps_lift keeps_logger keeps_get_session
  keeps_put_session keeps_fresh_uuid keeps_rollback keeps_db_guard
  keeps_init_services : keeps.

Ltac keeps :=
  repeat first
    [ apply keeps_bind; [| intros ? ]
    | solve [ auto with keeps ]
    | match goal with
      | |- keeps_committed (match ?x with _ => _ end) => destruct x
      | |- keeps_committed (if ?b then _ else _) => destruct b
      | |- keeps_committed (let '(_, _) := ?x in _) => destruct x
      end ].

Lemma keeps_select_job env op job_id : keeps_committed (worker.select_job env op job_id).
Proof. unfold worker.select_job. keeps. Qed.

Lemma keeps_extract_chunks env document :
  keeps_committed (worker.extract_chunks env document).
Proof. unfold worker.extract_chunks. keeps. Qed.

Lemma keeps_upsert_chunk env job embs i chunk_meta :
  keeps_committed (worker.upsert_chunk env job embs i chunk_meta).
Proof. unfold worker.upsert_chunk. keeps. Qed.

Lemma keeps_store_chunks env job embs i chunks_data :
  keeps_committed (worker.store_chunks env job embs i chunks_data).
Proof.
  revert i. induction chunks_data as [|chunk_meta rest IH]; intros i; simpl.
  - apply keeps_ret.
  - apply keeps_bind; [apply keeps_upsert_chunk | intros _; apply IH].
Qed.

#[local] Hint Resolve keeps_select_job keeps_extract_chunks keeps_upsert_chunk
  keeps_store_chunks : keeps.

(** A computation whose only commit is its last database statement: if it
    raises, nothing was committed. *)
Definition raises_clean {A : Type} (c : worker.M A) : Prop :=
  forall w e w', c w = (inl e, w') -> worker.committed w' = worker.committed w.

Lemma keeps_raises_clean {A} (c : worker.M A) : keeps_committed c -> raises_clean c.
Proof. intros Hc w e w' Heq. exact (Hc _ _ _ Heq). Qed.

Lemma raises_clean_bind {A B} (c : worker.M A) (f : A -> worker.M B) :
  keeps_committed c -> (forall a, raises_clean (f a)) ->
  raises_clean (worker.bind c f).
Proof.
  intros Hc Hf w e w' Heq. unfold worker.bind in Heq.
  destruct (c w) as [[e0|a] w1] eqn:Hcw.
  - inversion Heq; subst. exact (Hc _ _ _ Hcw).
  - rewrite (Hf a _ _ _ Heq). exact (Hc _ _ _ Hcw).
Qed.

Lemma raises_clean_commit_then_log env op ev :
  raises_clean (worker.bind (worker.commit env op) (fun _ => worker.logger ev)).
Proof.
  intros w e w' Heq.
  unfold worker.bind, worker.commit, worker.db_guard, worker.logger in Heq.
  destruct (worker.db_fault env op); simpl in Heq; inversion Heq; reflexivity.
Qed.

Lemma raises_clean_embed_and_store env job chunks_data :
  raises_clean (worker.embed_and_store env job chunks_data).
Proof.
  unfold worker.embed_and_store.
  destruct chunks_data as [|c0 rest]; [apply keeps_raises_clean, keeps_raise|].
  apply raises_clean_bind; [auto with keeps | intros _].
  apply raises_clean_bind; [auto with keeps | intros embs].
  destruct (negb _); [apply keeps_raises_clean, keeps_raise|].
  apply raises_clean_bind; [auto with keeps | intros _].
  apply raises_clean_bind; [auto with keeps | intros _].
  apply raises_clean_bind; [auto with keeps | intros db].
  apply raises_clean_bind; [auto with keeps | intros _].
  apply raises_clean_commit_then_log.
Qed.

Lemma raises_clean_pipeline env job_id : raises_clean (worker.pipeline env job_id).
Proof.
  unfold worker.pipeline.
  apply raises_clean_bind; [auto with keeps | intros _].
  apply raises_clean_bind; [auto with keeps | intros [job|]];
    [| apply keeps_raises_clean, keeps_raise].
  apply raises_clean_bind; [auto with keeps | intros _].
  apply raises_clean_bind; [auto with keeps | intros db].
  destruct (worker.documents db !! _) as [document|];
    [| apply keeps_raises_clean, keeps_raise].
  apply raises_clean_bind; [auto with keeps | intros _].
  apply raises_clean_bind; [auto with keeps | intros chunks_data].
  apply raises_clean_embed_and_store.
Qed.

(** *** The claim *)

(** The world right after a successful claim: the job is [processing] in
    the durable database, and nothing is pending. *)
Definition claimed_world (env : worker.Env) (job_id : uuid) (j : models.Job.t)
    (w : worker.World) : worker.World :=
  let db := worker.set_jobs (worker.session w)
              (<[job_id := worker.mark_processing (worker.utcnow env) j]>
                 (worker.jobs (worker.session w))) in
  {| worker.committed := db; worker.session := db;
     worker.log := worker.log w; worker.uuids_drawn := worker.uuids_drawn w |}.

(** The world after a claim that found the job in other hands. *)
Definition skipped_world (job_id : uuid) (status : models.IngestionStatus)
    (w : worker.World) : worker.World :=
  {| worker.committed := worker.committed w; worker.session := worker.committed w;
     worker.log := worker.log w ++ [worker.InfoAlreadyClaimed job_id status];
     worker.uuids_drawn := worker.uuids_drawn w |}.

Lemma claim_pending env job_id w j :
  worker.db_fault env worker.OpClaimUpdate = None ->
  worker.db_fault env worker.OpClaimCommit = None ->
  worker.jobs (worker.session w) !! job_id = Some j ->
  models.Job.status j = models.pending ->
  worker.claim env job_id w = (inr worker.Claimed, claimed_world env job_id j w).
Proof.
  intros Hupd Hcommit Hjob Hstatus.
  unfold worker.claim, worker.execute_claim_update, worker.commit, worker.db_guard,
    worker.bind, worker.get_session, worker.put_session, worker.ret.
  rewrite Hupd, Hcommit. simpl. rewrite Hjob.
  rewrite bool_decide_eq_true_2 by exact Hstatus. reflexivity.
Qed.

Lemma claim_not_pending env job_id w j :
  worker.session w = worker.committed w ->
  worker.db_fault env worker.OpClaimUpdate = None ->
  worker.db_fault env worker.OpClaimCheck = None ->
  worker.jobs (worker.committed w) !! job_id = Some j ->
  models.Job.status j <> models.pending ->
  worker.claim env job_id w
  = (inr worker.AlreadyHandled, skipped_world job_id (models.Job.status j) w).
Proof.
  intros Hsess Hupd Hcheck Hjob Hstatus.
  unfold worker.claim, worker.execute_claim_update, worker.select_job, worker.rollback,
    worker.logger, worker.db_guard, worker.bind, worker.get_session, worker.ret.
  rewrite Hupd, Hcheck. simpl. rewrite Hsess, Hjob.
  rewrite bool_decide_eq_false_2 by exact Hstatus. simpl. rewrite Hjob. reflexivity.
Qed.

Lemma claim_missing env job_id w :
  worker.session w = worker.committed w ->
  worker.db_fault env worker.OpClaimUpdate = None ->
  worker.db_fault env worker.OpClaimCheck = None ->
  worker.jobs (worker.committed w) !! job_id = None ->
  worker.claim env job_id w
  = (inl (WorkerError ("Job not found: " +:+ job_id)),
     {| worker.committed := worker.committed w; worker.session := worker.committed w;
        worker.log := worker.log w ++ [worker.ErrorJobNotFound job_id];
        worker.uuids_drawn := worker.uuids_drawn w |}).
Proof.
  intros Hsess Hupd Hcheck Hjob.
  unfold worker.claim, worker.execute_claim_update, worker.select_job, worker.rollback,
    worker.logger, worker.db_guard, worker.bind, worker.get_session, worker.ret,
    worker.raise.
  rewrite Hupd, Hcheck. simpl. rewrite Hsess, Hjob. simpl. rewrite Hjob. reflexivity.
Qed.

(** A claim succeeds only on a job whose stored status is [pending], and
    then the world is the claimed one. *)
Lemma claim_Claimed_inv env job_id w w1 :
  worker.claim env job_id w = (inr worker.Claimed, w1) ->
  exists j,
    worker.jobs (worker.session w) !! job_id = Some j
    /\ models.Job.status j = models.pending
    /\ w1 = claimed_world env job_id j w.
Proof.
  unfold worker.claim, worker.execute_claim_update, worker.select_job, worker.rollback,
    worker.commit, worker.logger, worker.db_guard, worker.bind, worker.get_session,
    worker.put_session, worker.ret, worker.raise.
  destruct (worker.db_fault env worker.OpClaimUpdate); simpl; [discriminate|].
  destruct (worker.jobs (worker.session w) !! job_id) as [j|] eqn:Hjob.
  - destruct (bool_decide (models.Job.status j = models.pending)) eqn:Hstatus; simpl.
    + destruct (worker.db_fault env worker.OpClaimCommit); simpl; [discriminate|].
      intros Heq. inversion Heq; subst. exists j.
      apply bool_decide_eq_true_1 in Hstatus. repeat split; assumption.
    + destruct (worker.db_fault env worker.OpClaimCheck); simpl; [discriminate|].
      destruct (worker.jobs (worker.committed w) !! job_id); simpl; discriminate.
  - simpl. destruct (worker.db_fault env worker.OpClaimCheck); simpl; [discriminate|].
    destruct (worker.jobs (worker.committed w) !! job_id); simpl; discriminate.
Qed.

Lemma process_job_claimed env job_id w w1 :
  worker.claim env job_id w = (inr worker.Claimed, w1) ->
  worker.process_job env job_id w
  = worker.try_except (worker.pipeline env job_id) (worker.on_failure env job_id) w1.
Proof.
  intros Hclaim.
  unfold worker.process_job, worker.claim_and_run, worker.try_except, worker.bind.
  rewrite Hclaim. reflexivity.
Qed.

(** *** The failure path *)

(** Whether the failure-status write goes through. *)
Definition failure_write_fault (env : worker.Env) : option exn :=
  match worker.db_fault env worker.OpFailUpdate with
  | Some commit_error => Some commit_error
  | None => worker.db_fault env worker.OpFailCommit
  end.

(** The handler always re-raises the exception it was given.  It first
    discards the pending writes; then the job row is marked [failed] with
    the exception's text and committed, or, when that write fails, the
    durable database stays as it was and the secondary failure is logged. *)
Lemma on_failure_spec env job_id e w :
  exists w',
    worker.on_failure env job_id e w = (inl e, w')
    /\ worker.chunks (worker.committed w') = worker.chunks (worker.committed w)
    /\ worker.documents (worker.committed w') = worker.documents (worker.committed w)
    /\ match failure_write_fault env with
       | None =>
           worker.jobs (worker.committed w')
           = alter (worker.mark_failed (worker.utcnow env) (exn_str e)) job_id
                   (worker.jobs (worker.committed w))
           /\ worker.session w' = worker.committed w'
       | Some commit_error =>
           worker.committed w' = worker.committed w
           /\ In (worker.ErrorCriticalFailedToSave commit_error) (worker.log w')
       end.
Proof.
  unfold failure_write_fault, worker.on_failure, worker.write_failed_status,
    worker.try_except, worker.commit, worker.rollback, worker.logger, worker.db_guard,
    worker.bind, worker.get_session, worker.put_session, worker.ret, worker.raise.
  destruct (worker.db_fault env worker.OpFailUpdate) as [ce|]; simpl.
  - eexists. split; [reflexivity|]. simpl. repeat split.
    apply in_or_app. right. left. reflexivity.
  - destruct (worker.db_fault env worker.OpFailCommit) as [ce|]; simpl.
    + eexists. split; [reflexivity|]. simpl. repeat split.
      apply in_or_app. right. left. reflexivity.
    + eexists. split; [reflexivity|]. simpl. repeat split.
Qed.

(** A failure after the claim: the original exception comes out of
    [process_job], and the durable database is the claimed one with, at
    most, the job row marked [failed]. *)
Lemma process_job_failure env job_id w w1 e w2 :
  worker.claim env job_id w = (inr worker.Claimed, w1) ->
  worker.pipeline env job_id w1 = (inl e, w2) ->
  exists w3,
    worker.process_job env job_id w = (inl e, w3)
    /\ worker.chunks (worker.committed w3) = worker.chunks (worker.committed w1)
    /\ worker.documents (worker.committed w3) = worker.documents (worker.committed w1)
    /\ match failure_write_fault env with
       | None =>
           worker.jobs (worker.committed w3)
           = alter (worker.mark_failed (worker.utcnow env) (exn_str e)) job_id
                   (worker.jobs (worker.committed w1))
           /\ worker.session w3 = worker.committed w3
       | Some commit_error =>
           worker.committed w3 = worker.committed w1
           /\ In (worker.ErrorCriticalFailedToSave commit_error) (worker.log w3)
       end.
Proof.
  intros Hclaim Hpipe.
  rewrite (process_job_claimed _ _ _ _ Hclaim).
  unfold worker.try_except. rewrite Hpipe.
  pose proof (raises_clean_pipeline env job_id _ _ _ Hpipe) as Hclean.
  destruct (on_failure_spec env job_id e w2) as (w3 & Hrun & Hchunks & Hdocs & Hjobs).
  exists w3. rewrite Hclean in *. repeat split; assumption.
Qed.

(** *** A database and collaborators for the runs below *)

Definition demo_job (job_id document_id : uuid) (status : models.IngestionStatus)
    : models.Job.t :=
  {| models.Job.job_id := job_id; models.Job.user_id := "user-0";
     models.Job.document_id := document_id; models.Job.status := status;
     models.Job.error_message := None;
     models.Job.created_at := 1762000000000000;
     models.Job.updated_at := 1762000000000000 |}.

Definition demo_document (document_id : uuid) (kind : models.DocumentSourceType)
    (title source_uri : string) : models.Document.t :=
  {| models.Document.document_id := document_id; models.Document.user_id := "user-0";
     models.Document.source_type := kind; models.Document.title := title;
     models.Document.source_uri := source_uri;
     models.Document.ingested_at := 1762000000000000;
     models.Document.content_created_at := None;
     models.Document.status := models.pending |}.

(** Job 1 waits on a text document, job 2 has completed, job 3 waits on a
    web page. *)
Definition demo_db : worker.DB :=
  {| worker.jobs :=
       <["job-1" := demo_job "job-1" "doc-1" models.pending]>
         (<["job-2" := demo_job "job-2" "doc-1" models.completed]>
            {["job-3" := demo_job "job-3" "doc-2" models.pending]});
     worker.documents :=
       <["doc-1" := demo_document "doc-1" models.text "notes.txt" "gs://bucket/notes.txt"]>
         {["doc-2" := demo_document "doc-2" models.web "page" "https://example.org"]};
     worker.chunks := [] |}.

Definition demo_env (faults : worker.db_op -> option exn)
    (embed : list string -> exn + list embeddings.vector) : worker.Env :=
  {| worker.utcnow := 1762128000000000;
     worker.uuid4 := fun n => "chunk-" +:+ pretty n;
     worker.db_fault := faults;
     worker.services_fault := None;
     worker.transcribe_audio := fun _ => inl (Exc "Unavailable" "no speech service");
     worker.download_as_bytes := fun _ _ => inr "Alpha beta.Gamma delta.";
     worker.codecs :=
       {| extraction.pdf_pages := fun _ => inl (Exc "PdfReadError" "not a PDF");
          extraction.decode_utf8 := fun bytes => bytes |};
     worker.text_tools := demo.tools;
     worker.generate_embeddings := embed |}.

Definition no_faults : worker.db_op -> option exn := fun _ => None.

Definition embed_ok (texts : list string) : exn + list embeddings.vector :=
  inr (map (fun _ => [1 # 2; 1 # 3]%Q) texts).

Definition quota_error : exn :=
  RetryError (Exc "ResourceExhausted" "429 quota exceeded") "RetryError[...]".

Definition embed_down (texts : list string) : exn + list embeddings.vector :=
  inl quota_error.

(** The pipeline can complete: job 1 ends [completed] with its one chunk
    stored. *)
Example process_job_completes :
  let '(r, w) := worker.process_job (demo_env no_faults embed_ok) "job-1"
                   (worker.open_session demo_db) in
  r = inr tt
  /\ models.Job.status <$> worker.jobs (worker.committed w) !! "job-1"
     = Some models.completed
  /\ map (fun c => (models.Chunk.chunk_index c, models.Chunk.text c))
         (worker.chunks (worker.committed w))
     = [(0, "Alpha beta. Gamma delta.")].
Proof. vm_compute. repeat split. Qed.

(** C4. With no transaction pending and no database fault in the claim
    itself, [process_job] does one of three things according to the stored
    job row.  No row: it fails with the not-found error and stores nothing.
    A row that is not [pending]: it returns normally, having only rolled
    back and logged; the durable database is untouched and no pipeline
    step runs.  A [pending] row: the claim makes it [processing] in the
    durable database, and only then is the pipeline run, from that
    committed state. *)
Theorem C4_claim (env : worker.Env) (job_id : uuid) (w : worker.World) :
  worker.session w = worker.committed w ->
  worker.db_fault env worker.OpClaimUpdate = None ->
  worker.db_fault env worker.OpClaimCheck = None ->
  worker.db_fault env worker.OpClaimCommit = None ->
  match worker.jobs (worker.committed w) !! job_id with
  | None =>
      exists w',
        worker.process_job env job_id w
        = (inl (WorkerError ("Job not found: " +:+ job_id)), w')
        /\ worker.jobs (worker.committed w') !! job_id = None
        /\ worker.chunks (worker.committed w') = worker.chunks (worker.committed w)
  | Some j =>
      if bool_decide (models.Job.status j = models.pending) then
        worker.claim env job_id w = (inr worker.Claimed, claimed_world env job_id j w)
        /\ models.Job.status
             <$> worker.jobs (worker.committed (claimed_world env job_id j w)) !! job_id
           = Some models.processing
        /\ worker.process_job env job_id w
           = worker.try_except (worker.pipeline env job_id)
               (worker.on_failure env job_id) (claimed_world env job_id j w)
      else
        worker.process_job env job_id w
        = (inr tt, skipped_world job_id (models.Job.status j) w)
  end.
Proof.
  intros Hsess Hupd Hcheck Hcommit.
  destruct (worker.jobs (worker.committed w) !! job_id) as [j|] eqn:Hjob.
  - destruct (bool_decide (models.Job.status j = models.pending)) eqn:Hstatus.
    + apply bool_decide_eq_true_1 in Hstatus.
      assert (Hclaim : worker.claim env job_id w
                       = (inr worker.Claimed, claimed_world env job_id j w)).
      { apply claim_pending; try assumption. rewrite Hsess. exact Hjob. }
      split; [exact Hclaim|]. split.
      * unfold claimed_world. simpl. rewrite lookup_insert_eq. reflexivity.
      * apply process_job_claimed, Hclaim.
    + apply bool_decide_eq_false_1 in Hstatus.
      unfold worker.process_job, worker.claim_and_run, worker.try_except, worker.bind.
      rewrite (claim_not_pending env job_id w j) by assumption. reflexivity.
  - unfold worker.process_job, worker.claim_and_run, worker.try_except, worker.bind.
    rewrite (claim_missing env job_id w) by assumption.
    destruct (on_failure_spec env job_id (WorkerError ("Job not found: " +:+ job_id))
                {| worker.committed := worker.committed w;
                   worker.session := worker.committed w;
                   worker.log := worker.log w ++ [worker.ErrorJobNotFound job_id];
                   worker.uuids_drawn := worker.uuids_drawn w |})
      as (w' & Hrun & Hchunks & _ & Hjobs).
    exists w'. split; [exact Hrun|]. split; [| exact Hchunks].
    simpl in Hjobs. destruct (failure_write_fault env).
    + destruct Hjobs as [-> _]. exact Hjob.
    + destruct Hjobs as [-> _]. rewrite lookup_alter_eq, Hjob. reflexivity.
Qed.

(** Job 2 has completed: running [process_job] on it again changes
    nothing. *)
Lemma C4_claim_witness :
  worker.process_job (demo_env no_faults embed_ok) "job-2" (worker.open_session demo_db)
  = (inr tt, skipped_world "job-2" models.completed (worker.open_session demo_db)).
Proof.
  exact (C4_claim (demo_env no_faults embed_ok) "job-2" (worker.open_session demo_db)
           eq_refl eq_refl eq_refl eq_refl).
Defined.

(** Re-running a job that is already completed or failed is a no-op. *)
Lemma rerun_of_finished_job_is_noop env job_id w j :
  worker.session w = worker.committed w ->
  worker.db_fault env worker.OpClaimUpdate = None ->
  worker.db_fault env worker.OpClaimCheck = None ->
  worker.jobs (worker.committed w) !! job_id = Some j ->
  models.Job.status j = models.completed \/ models.Job.status j = models.failed ->
  exists w',
    worker.process_job env job_id w = (inr tt, w')
    /\ worker.committed w' = worker.committed w.
Proof.
  intros Hsess Hupd Hcheck Hjob Hdone.
  exists (skipped_world job_id (models.Job.status j) w). split; [| reflexivity].
  unfold worker.process_job, worker.claim_and_run, worker.try_except, worker.bind.
  rewrite (claim_not_pending env job_id w j); try assumption; [reflexivity|].
  destruct Hdone as [-> | ->]; discriminate.
Qed.

(** C5. When the pipeline raises [e] after a successful claim,
    [process_job] raises that same [e].  Nothing the attempt wrote is
    durable: chunks and documents are as the claim left them.  When the
    failure-status write goes through, the job row is [failed] with
    [str(e)] as its error message and the other rows are untouched; when
    that write itself fails, the durable database is as the claim left it,
    the secondary failure is logged, and [e] is still what is raised. *)
Theorem C5_failure_handling (env : worker.Env) (job_id : uuid)
    (w w1 w2 : worker.World) (e : exn) :
  worker.claim env job_id w = (inr worker.Claimed, w1) ->
  worker.pipeline env job_id w1 = (inl e, w2) ->
  exists w3,
    worker.process_job env job_id w = (inl e, w3)
    /\ worker.chunks (worker.committed w3) = worker.chunks (worker.committed w1)
    /\ worker.documents (worker.committed w3) = worker.documents (worker.committed w1)
    /\ match failure_write_fault env with
       | None =>
           models.Job.status <$> worker.jobs (worker.committed w3) !! job_id
             = Some models.failed
           /\ (worker.jobs (worker.committed w3) !! job_id ≫= models.Job.error_message)
              = Some (exn_str e)
           /\ (forall other, other <> job_id ->
                 worker.jobs (worker.committed w3) !! other
                 = worker.jobs (worker.committed w1) !! other)
           /\ worker.session w3 = worker.committed w3
       | Some commit_error =>
           worker.committed w3 = worker.committed w1
           /\ In (worker.ErrorCriticalFailedToSave commit_error) (worker.log w3)
       end.
Proof.
  intros Hclaim Hpipe.
  destruct (process_job_failure env job_id w w1 e w2 Hclaim Hpipe)
    as (w3 & Hrun & Hchunks & Hdocs & Hjobs).
  exists w3. split; [exact Hrun|]. split; [exact Hchunks|]. split; [exact Hdocs|].
  destruct (failure_write_fault env) as [ce|]; [exact Hjobs|].
  destruct Hjobs as [Hjobs Hsess].
  apply claim_Claimed_inv in Hclaim as (j & Hj & _ & ->).
  rewrite Hjobs. unfold claimed_world. simpl.
  rewrite lookup_alter_eq, lookup_insert_eq. simpl.
  repeat split; [| exact Hsess].
  intros other Hother. rewrite lookup_alter_ne by congruence. reflexivity.
Qed.

Definition commit_fails : worker.db_op -> option exn :=
  fun op =>
    match op with
    | worker.OpFailCommit => Some (Exc "OperationalError" "connection lost")
    | _ => None
    end.

Lemma C5_failure_handling_witness :
  exists w3,
    worker.process_job (demo_env no_faults embed_down) "job-1"
      (worker.open_session demo_db) = (inl quota_error, w3)
    /\ models.Job.status <$> worker.jobs (worker.committed w3) !! "job-1"
       = Some models.failed
    /\ (worker.jobs (worker.committed w3) !! "job-1" ≫= models.Job.error_message)
       = Some "RetryError[...]"
    /\ worker.chunks (worker.committed w3) = [].
Proof.
  pose (env := demo_env no_faults embed_down).
  pose (w := worker.open_session demo_db).
  pose (w1 := claimed_world env "job-1" (demo_job "job-1" "doc-1" models.pending) w).
  destruct (C5_failure_handling env "job-1" w w1
              (snd (worker.pipeline env "job-1" w1)) quota_error)
    as (w3 & Hrun & Hchunks & _ & Hjobs).
  - vm_compute. reflexivity.
  - vm_compute. reflexivity.
  - exists w3. destruct Hjobs as (Hstatus & Hmessage & _).
    split; [exact Hrun|]. split; [exact Hstatus|]. split; [exact Hmessage|].
    rewrite Hchunks. reflexivity.
Defined.

(** When the failure-status write fails too, the original exception is
    still the one raised, and the row stays [processing]. *)
Example failed_failure_write_does_not_mask :
  let '(r, w) := worker.process_job (demo_env commit_fails embed_down) "job-1"
                   (worker.open_session demo_db) in
  r = inl quota_error
  /\ models.Job.status <$> worker.jobs (worker.committed w) !! "job-1"
     = Some models.processing
  /\ last (worker.log w)
     = Some (worker.ErrorCriticalFailedToSave (Exc "OperationalError" "connection lost")).
Proof. vm_compute. repeat split. Qed.

(** *** Extraction and what follows it *)

(** Extraction only reads its collaborators and writes the log. *)
Lemma extract_chunks_store env document w :
  worker.committed (snd (worker.extract_chunks env document w)) = worker.committed w
  /\ worker.session (snd (worker.extract_chunks env document w)) = worker.session w.
Proof.
  unfold worker.extract_chunks, worker.bind, worker.logger, worker.lift, worker.ret,
    worker.raise.
  destruct (models.Document.source_type document); simpl;
    repeat match goal with
           | |- context [match ?x with _ => _ end] => destruct x; simpl
           end; split; reflexivity.
Qed.

Lemma extract_chunks_result env document w w0 :
  fst (worker.extract_chunks env document w) = fst (worker.extract_chunks env document w0).
Proof.
  unfold worker.extract_chunks, worker.bind, worker.logger, worker.lift, worker.ret,
    worker.raise.
  destruct (models.Document.source_type document); simpl;
    repeat match goal with
           | |- context [match ?x with _ => _ end] => destruct x; simpl
           end; reflexivity.
Qed.

Lemma extract_chunks_returns env document w w1 chunks_data :
  fst (worker.extract_chunks env document w) = inr chunks_data ->
  worker.extract_chunks env document w1
  = (inr chunks_data, snd (worker.extract_chunks env document w1)).
Proof.
  intros Hresult. rewrite <- Hresult, (extract_chunks_result env document w w1).
  apply surjective_pairing.
Qed.

Lemma bind_returns {A B} (c : worker.M A) (f : A -> worker.M B) w a w' :
  c w = (inr a, w') -> worker.bind c f w = f a w'.
Proof. intros Hc. unfold worker.bind. rewrite Hc. reflexivity. Qed.

(** Kinds the dispatch does not handle produce no chunks. *)
Lemma unsupported_kind_no_chunks env document w :
  models.Document.source_type document = models.web
  \/ models.Document.source_type document = models.image ->
  worker.extract_chunks env document w = (inr [], w).
Proof.
  unfold worker.extract_chunks. intros [-> | ->]; reflexivity.
Qed.

(** After the claim, the pipeline is extraction followed by
    [embed_and_store], on the claimed row. *)
Lemma pipeline_after_claim env job_id j w document :
  worker.db_fault env worker.OpLoadJob = None ->
  worker.db_fault env worker.OpLoadDocument = None ->
  worker.services_fault env = None ->
  worker.documents (worker.session w) !! models.Job.document_id j = Some document ->
  worker.pipeline env job_id (claimed_world env job_id j w)
  = worker.bind (worker.extract_chunks env document)
      (worker.embed_and_store env (worker.mark_processing (worker.utcnow env) j))
      {| worker.committed := worker.committed (claimed_world env job_id j w);
         worker.session := worker.session (claimed_world env job_id j w);
         worker.log := worker.log w ++ [worker.InfoClaimed job_id];
         worker.uuids_drawn := worker.uuids_drawn w |}.
Proof.
  intros Hload Hdoc Hservices Hdocument.
  unfold worker.pipeline, worker.select_job, worker.db_guard, worker.init_services,
    worker.logger.
  unfold worker.bind at 1 2 3 4 5 6 7. unfold worker.get_session, worker.ret.
  rewrite Hload, Hdoc, Hservices. simpl.
  rewrite lookup_insert_eq. simpl. rewrite Hdocument. reflexivity.
Qed.

(** An empty chunk list stops the pipeline with the no-chunks error. *)
Lemma pipeline_no_chunks env job_id j w document :
  worker.db_fault env worker.OpLoadJob = None ->
  worker.db_fault env worker.OpLoadDocument = None ->
  worker.services_fault env = None ->
  worker.documents (worker.session w) !! models.Job.document_id j = Some document ->
  fst (worker.extract_chunks env document w) = inr [] ->
  exists w2,
    worker.pipeline env job_id (claimed_world env job_id j w)
    = (inl (RuntimeError (worker.no_chunks_message (models.Job.document_id j))), w2).
Proof.
  intros Hload Hdoc Hservices Hdocument Hempty.
  rewrite (pipeline_after_claim env job_id j w document) by assumption.
  erewrite bind_returns; [| apply (extract_chunks_returns _ _ w); exact Hempty].
  eexists. reflexivity.
Qed.

(** An exception of the embedding service, or an answer with the wrong
    number of vectors, stops the pipeline before any chunk is written. *)
Lemma pipeline_embedding_failure env job_id j w document chunks_data :
  worker.db_fault env worker.OpLoadJob = None ->
  worker.db_fault env worker.OpLoadDocument = None ->
  worker.services_fault env = None ->
  worker.documents (worker.session w) !! models.Job.document_id j = Some document ->
  fst (worker.extract_chunks env document w) = inr chunks_data ->
  chunks_data <> [] ->
  match worker.generate_embeddings env (map chunking.text chunks_data) with
  | inl e =>
      exists w2, worker.pipeline env job_id (claimed_world env job_id j w) = (inl e, w2)
  | inr embs =>
      length embs <> length chunks_data ->
      exists w2,
        worker.pipeline env job_id (claimed_world env job_id j w)
        = (inl (RuntimeError
                  (worker.count_mismatch_message (length chunks_data) (length embs))),
           w2)
  end.
Proof.
  intros Hload Hdoc Hservices Hdocument Hchunks Hnonempty.
  rewrite (pipeline_after_claim env job_id j w document) by assumption.
  erewrite bind_returns; [| apply (extract_chunks_returns _ _ w); exact Hchunks].
  unfold worker.embed_and_store.
  destruct chunks_data as [|c0 rest]; [contradiction|].
  unfold worker.bind, worker.logger, worker.lift, worker.raise.
  destruct (worker.generate_embeddings env (map chunking.text (c0 :: rest)))
    as [e|embs].
  - eexists. reflexivity.
  - intros Hlen. destruct (Nat.eqb_spec (length embs) (length (c0 :: rest)));
      [contradiction|]. eexists. reflexivity.
Qed.

(** C6. A pending job whose extraction yields no chunk, in particular one
    whose document is of a kind the dispatch does not handle (web, image),
    fails: [process_job] raises the no-chunks error, stores no chunk, never
    leaves the job [completed], and, when the failure-status write goes
    through, leaves it [failed] with that error recorded. *)
Theorem C6_empty_extraction_fails (env : worker.Env) (job_id : uuid)
    (w : worker.World) (j : models.Job.t) (document : models.Document.t) :
  worker.session w = worker.committed w ->
  worker.jobs (worker.committed w) !! job_id = Some j ->
  models.Job.status j = models.pending ->
  worker.documents (worker.committed w) !! models.Job.document_id j = Some document ->
  worker.db_fault env worker.OpClaimUpdate = None ->
  worker.db_fault env worker.OpClaimCommit = None ->
  worker.db_fault env worker.OpLoadJob = None ->
  worker.db_fault env worker.OpLoadDocument = None ->
  worker.services_fault env = None ->
  (models.Document.source_type document = models.web
   \/ models.Document.source_type document = models.image
   \/ fst (worker.extract_chunks env document w) = inr []) ->
  exists w',
    worker.process_job env job_id w
    = (inl (RuntimeError (worker.no_chunks_message (models.Job.document_id j))), w')
    /\ worker.chunks (worker.committed w') = worker.chunks (worker.committed w)
    /\ models.Job.status <$> worker.jobs (worker.committed w') !! job_id
       <> Some models.completed
    /\ (failure_write_fault env = None ->
        worker.jobs (worker.committed w') !! job_id
        = Some (worker.mark_failed (worker.utcnow env)
                  (worker.no_chunks_message (models.Job.document_id j))
                  (worker.mark_processing (worker.utcnow env) j))).
Proof.
  intros Hsess Hjob Hpending Hdocument Hupd Hcommit Hload Hdoc Hservices Hkind.
  assert (Hempty : fst (worker.extract_chunks env document w) = inr []).
  { destruct Hkind as [Hweb | [Himage | Hempty]]; [| | exact Hempty].
    - rewrite unsupported_kind_no_chunks by (left; exact Hweb). reflexivity.
    - rewrite unsupported_kind_no_chunks by (right; exact Himage). reflexivity. }
  rewrite <- Hsess in Hjob, Hdocument.
  pose proof (claim_pending env job_id w j Hupd Hcommit Hjob Hpending) as Hclaim.
  destruct (pipeline_no_chunks env job_id j w document
              Hload Hdoc Hservices Hdocument Hempty) as (w2 & Hpipe).
  destruct (process_job_failure env job_id w _ _ w2 Hclaim Hpipe)
    as (w' & Hrun & Hchunks & _ & Hjobs).
  exists w'. split; [exact Hrun|]. split.
  { rewrite Hchunks. unfold claimed_world. simpl. rewrite Hsess. reflexivity. }
  destruct (failure_write_fault env) as [ce|].
  - destruct Hjobs as [-> _]. split; [| discriminate].
    unfold claimed_world. simpl. rewrite lookup_insert_eq. discriminate.
  - destruct Hjobs as [-> _]. unfold claimed_world. simpl.
    rewrite lookup_alter_eq, lookup_insert_eq. simpl.
    split; [discriminate | reflexivity].
Qed.

(** Job 3 waits on a web page: it ends [failed] with the no-chunks error. *)
Lemma C6_empty_extraction_fails_witness :
  exists w',
    worker.process_job (demo_env no_faults embed_ok) "job-3" (worker.open_session demo_db)
    = (inl (RuntimeError (worker.no_chunks_message "doc-2")), w')
    /\ (models.Job.status <$> worker.jobs (worker.committed w') !! ("job-3" : uuid))
       = Some models.failed
    /\ (worker.jobs (worker.committed w') !! ("job-3" : uuid) ≫= models.Job.error_message)
       = Some "No chunks produced from document doc-2. Source may be empty or unreadable.".
Proof.
  destruct (C6_empty_extraction_fails (demo_env no_faults embed_ok) "job-3"
              (worker.open_session demo_db)
              (demo_job "job-3" "doc-2" models.pending)
              (demo_document "doc-2" models.web "page" "https://example.org"))
    as (w' & Hrun & _ & _ & Hjob).
  - reflexivity.
  - vm_compute. reflexivity.
  - reflexivity.
  - vm_compute. reflexivity.
  - reflexivity.
  - reflexivity.
  - reflexivity.
  - reflexivity.
  - reflexivity.
  - left. reflexivity.
  - exists w'. split; [exact Hrun|].
    rewrite (Hjob eq_refl). split; reflexivity.
Defined.

(** *** The embedding step of the job *)

Lemma attempt_mismatch svc texts calls pre b post rs r :
  0 < embeddings.batch_limit svc ->
  embeddings.batches texts (Z.to_nat (embeddings.batch_limit svc)) = pre ++ b :: post ->
  answered svc calls pre rs ->
  embeddings.model_get_embeddings svc (calls + length pre) b = inr r ->
  length r <> length b ->
  embeddings.generate_embeddings_attempt svc texts calls
  = (inl (RuntimeError (embeddings.mismatch_message (length b) (length r))),
     S (calls + length pre)).
Proof.
  intros Hlimit Hsplit Hans Hcall Hlen.
  unfold embeddings.generate_embeddings_attempt.
  destruct texts as [|t texts].
  - exfalso. revert Hsplit. unfold embeddings.batches, embeddings.range_step.
    cbn [length]. rewrite Nat.div_small by lia. simpl.
    intros Hnil. exact (app_cons_not_nil _ _ _ Hnil).
  - destruct (Z.eqb_spec (embeddings.batch_limit svc) 0); [lia|].
    destruct (Z.ltb_spec (embeddings.batch_limit svc) 0); [lia|].
    unfold embeddings.batches in Hsplit.
    apply map_eq_app in Hsplit as (pre_s & rest_s & Hstarts & Hpre & Hrest).
    apply map_eq_cons in Hrest as (i & post_s & -> & Hb & _).
    rewrite Hstarts. subst pre b.
    rewrite length_map in *.
    eapply embed_batches_mismatch; eassumption.
Qed.

(** C7. For a positive batch limit: the texts are cut into consecutive
    batches of at most that many texts; in an attempt, the first batch
    answered with a wrong number of vectors ends the attempt with the
    mismatch error; the decorated call returns only results with exactly
    one vector per text, and raises only after three failed attempts, a
    [RetryError] around the last one; and when it raises inside
    [process_job], that exception is the job's failure and the stored
    chunks are what they were. *)
Theorem C7_embedding_batches (svc : embeddings.VertexAIEmbeddingService)
    (texts : list string) (calls : nat) :
  0 < embeddings.batch_limit svc ->
  let step := Z.to_nat (embeddings.batch_limit svc) in
  (concat (embeddings.batches texts step) = texts
   /\ Forall (fun b => (0 < length b <= step)%nat) (embeddings.batches texts step))
  /\ (forall pre b post rs r,
        embeddings.batches texts step = pre ++ b :: post ->
        answered svc calls pre rs ->
        embeddings.model_get_embeddings svc (calls + length pre) b = inr r ->
        length r <> length b ->
        embeddings.generate_embeddings_attempt svc texts calls
        = (inl (RuntimeError (embeddings.mismatch_message (length b) (length r))),
           S (calls + length pre)))
  /\ (forall vs calls',
        embeddings.generate_embeddings svc texts calls = (inr vs, calls') ->
        length vs = length texts)
  /\ (forall e calls',
        embeddings.generate_embeddings svc texts calls = (inl e, calls') ->
        exists e1 e2 e3 c1 c2,
          embeddings.generate_embeddings_attempt svc texts calls = (inl e1, c1)
          /\ embeddings.generate_embeddings_attempt svc texts c1 = (inl e2, c2)
          /\ embeddings.generate_embeddings_attempt svc texts c2 = (inl e3, calls')
          /\ e = RetryError e3 (embeddings.retry_error_repr svc e3))
  /\ (forall env job_id w j document chunks_data e,
        worker.session w = worker.committed w ->
        worker.jobs (worker.committed w) !! job_id = Some j ->
        models.Job.status j = models.pending ->
        worker.documents (worker.committed w) !! models.Job.document_id j
          = Some document ->
        worker.db_fault env worker.OpClaimUpdate = None ->
        worker.db_fault env worker.OpClaimCommit = None ->
        worker.db_fault env worker.OpLoadJob = None ->
        worker.db_fault env worker.OpLoadDocument = None ->
        worker.services_fault env = None ->
        fst (worker.extract_chunks env document w) = inr chunks_data ->
        chunks_data <> [] ->
        map chunking.text chunks_data = texts ->
        worker.generate_embeddings env texts
          = fst (embeddings.generate_embeddings svc texts calls) ->
        fst (embeddings.generate_embeddings svc texts calls) = inl e ->
        exists w',
          worker.process_job env job_id w = (inl e, w')
          /\ worker.chunks (worker.committed w') = worker.chunks (worker.committed w)).
Proof.
  intros Hlimit step.
  split; [apply batches_partition; subst step; lia|].
  split; [intros pre b post rs r; apply attempt_mismatch; exact Hlimit|].
  split; [intros vs calls'; apply generate_embeddings_complete; exact Hlimit|].
  split; [intros e calls'; apply generate_embeddings_raises|].
  intros env job_id w j document chunks_data e
         Hsess Hjob Hpending Hdocument Hupd Hcommit Hload Hdoc Hservices
         Hchunks Hnonempty Htexts Hservice Hraise.
  rewrite <- Hsess in Hjob, Hdocument.
  pose proof (claim_pending env job_id w j Hupd Hcommit Hjob Hpending) as Hclaim.
  pose proof (pipeline_embedding_failure env job_id j w document chunks_data
                Hload Hdoc Hservices Hdocument Hchunks Hnonempty) as Hpipe.
  rewrite Htexts, Hservice, Hraise in Hpipe. destruct Hpipe as (w2 & Hpipe).
  destruct (process_job_failure env job_id w _ _ w2 Hclaim Hpipe)
    as (w' & Hrun & Hstored & _).
  exists w'. split; [exact Hrun|].
  rewrite Hstored. unfold claimed_world. simpl. rewrite Hsess. reflexivity.
Qed.

(** Ten texts; a provider that always drops one vector, and one that does
    so on its first call only. *)
Definition ten_texts : list string :=
  ["t0"; "t1"; "t2"; "t3"; "t4"; "t5"; "t6"; "t7"; "t8"; "t9"].

Definition one_vector_each (batch : list string) : list embeddings.vector :=
  map (fun _ => [1 # 2]%Q) batch.

Definition short_service : embeddings.VertexAIEmbeddingService :=
  {| embeddings.batch_limit := 128;
     embeddings.model_get_embeddings := fun _ batch => inr (one_vector_each (tl batch));
     embeddings.retry_error_repr := fun _ => "RetryError[...]" |}.

Definition flaky_service : embeddings.VertexAIEmbeddingService :=
  {| embeddings.batch_limit := 128;
     embeddings.model_get_embeddings := fun calls batch =>
       if (calls =? 0)%nat then inr (one_vector_each (tl batch))
       else inr (one_vector_each batch);
     embeddings.retry_error_repr := fun _ => "RetryError[...]" |}.

Lemma C7_embedding_batches_witness :
  concat (embeddings.batches ten_texts 128) = ten_texts
  /\ exists e3,
       fst (embeddings.generate_embeddings short_service ten_texts 0)
       = inl (RetryError e3 "RetryError[...]").
Proof.
  destruct (C7_embedding_batches short_service ten_texts 0 eq_refl)
    as (Hbatches & _ & _ & Hraises & _).
  split; [exact (proj1 Hbatches)|].
  destruct (Hraises
              (RetryError
                 (RuntimeError (embeddings.mismatch_message 10 9)) "RetryError[...]")
              3%nat)
    as (e1 & e2 & e3 & c1 & c2 & _ & _ & _ & He).
  - vm_compute. reflexivity.
  - injection He as <-. eexists. vm_compute. reflexivity.
Defined.

(** A count mismatch is not always fatal: the provider answers the batch
    of ten texts with nine vectors, the attempt ends with the mismatch
    error, the decorator tries again, and the call returns ten vectors. *)
Lemma C7_mismatch_retried_away :
  embeddings.model_get_embeddings flaky_service 0 ten_texts
    = inr (one_vector_each (tl ten_texts))
  /\ length (one_vector_each (tl ten_texts)) = 9%nat
  /\ embeddings.generate_embeddings_attempt flaky_service ten_texts 0
     = (inl (RuntimeError (embeddings.mismatch_message 10 9)), 1%nat)
  /\ embeddings.generate_embeddings flaky_service ten_texts 0
     = (inr (one_vector_each ten_texts), 2%nat).
Proof. vm_compute. repeat split. Qed.

(** *** The chunk upsert *)

(** At most one stored row per (document, chunk index). *)
Definition one_row_per_key (rows : list models.Chunk.t) : Prop :=
  forall document_id chunk_index,
    (length (List.filter (worker.same_key document_id chunk_index) rows) <= 1)%nat.

Lemma filter_map_same {A : Type} (p : A -> bool) (g : A -> A) (l : list A) :
  (forall x, p (g x) = p x) -> List.filter p (map g l) = map g (List.filter p l).
Proof.
  intros Hp. induction l as [|x l IH]; simpl; [reflexivity|].
  rewrite Hp. destruct (p x); simpl; rewrite IH; reflexivity.
Qed.

Lemma same_key_overwrite document_id chunk_index (key : models.Chunk.t -> bool)
    chunk_meta emb row :
  worker.same_key document_id chunk_index
    (if key row then worker.overwrite chunk_meta emb row else row)
  = worker.same_key document_id chunk_index row.
Proof. destruct (key row); reflexivity. Qed.

Lemma same_key_exclusive d i d' i' row :
  worker.same_key d i row = true -> worker.same_key d' i' row = true ->
  d = d' /\ i = i'.
Proof.
  unfold worker.same_key. rewrite !andb_true_iff.
  intros [Hd Hi] [Hd' Hi'].
  apply String.eqb_eq in Hd, Hd'. apply Z.eqb_eq in Hi, Hi'. split; congruence.
Qed.

(** One upsert that goes through keeps one row per key, and leaves exactly
    one row under the chunk's key, holding its text, embedding, offsets
    and page. *)
Lemma upsert_chunk_one_row_per_key env job embs i chunk_meta w w' :
  one_row_per_key (worker.chunks (worker.session w)) ->
  worker.upsert_chunk env job embs i chunk_meta w = (inr tt, w') ->
  one_row_per_key (worker.chunks (worker.session w'))
  /\ exists row emb,
       embs !! i = Some emb
       /\ List.filter (worker.same_key (models.Job.document_id job)
                         (chunking.chunk_index chunk_meta))
                      (worker.chunks (worker.session w')) = [row]
       /\ models.Chunk.text row = chunking.text chunk_meta
       /\ models.Chunk.embedding row = Some emb
       /\ models.Chunk.start_offset row = chunking.start_time chunk_meta
       /\ models.Chunk.end_offset row = chunking.end_time chunk_meta
       /\ models.Chunk.page_number row = chunking.page_number chunk_meta.
Proof.
  intros Hone.
  unfold worker.upsert_chunk, worker.bind, worker.db_guard, worker.get_session,
    worker.put_session, worker.fresh_uuid, worker.ret, worker.raise.
  destruct (worker.db_fault env (worker.OpSelectChunk i)); simpl; [discriminate|].
  destruct (embs !! i) as [emb|]; [| discriminate].
  set (key := worker.same_key (models.Job.document_id job)
                (chunking.chunk_index chunk_meta)).
  destruct (List.filter key (worker.chunks (worker.session w)))
    as [|existing [|another more]] eqn:Hfound; simpl; [| | discriminate].
  - (* insert *)
    intros Heq. inversion Heq; subst w'; clear Heq. simpl.
    set (fresh := worker.new_chunk env job _ chunk_meta emb).
    assert (Hfresh : key fresh = true).
    { subst key fresh. unfold worker.same_key. simpl.
      rewrite String.eqb_refl, Z.eqb_refl. reflexivity. }
    split.
    + intros d idx. rewrite List.filter_app, length_app. simpl.
      destruct (worker.same_key d idx fresh) eqn:Hk; simpl; [| specialize (Hone d idx); lia].
      destruct (same_key_exclusive _ _ _ _ _ Hfresh Hk) as [<- <-].
      fold key. rewrite Hfound. simpl. lia.
    + exists fresh, emb. split; [reflexivity|].
      rewrite List.filter_app, Hfound. simpl. rewrite Hfresh. repeat split.
  - (* overwrite *)
    intros Heq. inversion Heq; subst w'; clear Heq. simpl.
    split.
    + intros d idx. rewrite filter_map_same by (intros; apply same_key_overwrite).
      rewrite length_map. apply Hone.
    + exists (worker.overwrite chunk_meta emb existing), emb. split; [reflexivity|].
      rewrite filter_map_same by (intros; apply same_key_overwrite).
      rewrite Hfound. simpl.
      assert (Hkey : key existing = true).
      { assert (Hin : In existing (List.filter key (worker.chunks (worker.session w))))
          by (rewrite Hfound; left; reflexivity).
        apply List.filter_In in Hin. exact (proj2 Hin). }
      rewrite Hkey. repeat split.
Qed.

(** The whole loop keeps one row per key. *)
Lemma store_chunks_one_row_per_key env job embs i chunks_data w w' :
  one_row_per_key (worker.chunks (worker.session w)) ->
  worker.store_chunks env job embs i chunks_data w = (inr tt, w') ->
  one_row_per_key (worker.chunks (worker.session w')).
Proof.
  revert i w. induction chunks_data as [|chunk_meta rest IH]; intros i w Hone; simpl.
  - intros Heq. inversion Heq; subst. exact Hone.
  - unfold worker.bind.
    destruct (worker.upsert_chunk env job embs i chunk_meta w) as [[e|[]] w1] eqn:Hup;
      [discriminate|].
    apply IH.
    exact (proj1 (upsert_chunk_one_row_per_key _ _ _ _ _ _ _ Hone Hup)).
Qed.

(** A stored chunk of a PDF, pages 1 to 1, and the chunk that a later run
    produces for the same position, pages 2 to 3. *)
Definition stored_chunk : models.Chunk.t :=
  {| models.Chunk.chunk_id := "chunk-0"; models.Chunk.user_id := "user-0";
     models.Chunk.document_id := "doc-1"; models.Chunk.chunk_index := 0;
     models.Chunk.text := "First run.";
     models.Chunk.embedding := Some [1 # 2]%Q;
     models.Chunk.source_ref := <["end_page" := 1]> {["start_page" := 1]};
     models.Chunk.page_number := Some 1;
     models.Chunk.section_heading := None; models.Chunk.speaker := None;
     models.Chunk.start_offset := None; models.Chunk.end_offset := None;
     models.Chunk.content_time_start := None;
     models.Chunk.created_at := 1762000000000000 |}.

Definition rerun_chunk : chunking.ChunkMetadata :=
  chunking.finalize_document
    {| chunking.ps_text := "Second"; chunking.ps_page_number := 2;
       chunking.ps_token_count := 1 |}
    [ {| chunking.ps_text := "run."; chunking.ps_page_number := 3;
         chunking.ps_token_count := 2 |} ]
    0.

(** C8. The upsert does not overwrite every mutable field.  Storing a
    chunk for a key that already has a row leaves exactly one row, with
    the new text, embedding and page, but with the provenance payload and
    the timestamp of the first write: the [existing] branch never assigns
    [source_ref], and its [updated_at] is not a column of the table. *)
Theorem C8_upsert_keeps_stale_provenance :
  let env := demo_env no_faults embed_ok in
  let job := demo_job "job-1" "doc-1" models.processing in
  let w := worker.open_session (worker.set_chunks demo_db [stored_chunk]) in
  let run := worker.store_chunks env job [[1 # 3]%Q] 0 [rerun_chunk] w in
  fst run = inr tt
  /\ map (fun row =>
            (models.Chunk.text row, models.Chunk.embedding row,
             models.Chunk.page_number row,
             models.Chunk.source_ref row !! "start_page",
             models.Chunk.source_ref row !! "end_page",
             models.Chunk.created_at row))
         (worker.chunks (worker.session (snd run)))
     = [("Second run.", Some [1 # 3]%Q, Some 2, Some 1, Some 1, 1762000000000000)]
  /\ (chunking.metadata rerun_chunk ≫= lookup "start_page",
      chunking.metadata rerun_chunk ≫= lookup "end_page") = (Some 2, Some 3)
  /\ worker.utcnow env = 1762128000000000.
Proof. vm_compute. repeat split. Qed.

(* ===================================================================== *)
(** * Part III. Further properties of the modelled code                    *)
(* ===================================================================== *)

(** ** The chunker: indices, counts, contiguity, overlap *)

Section PackerShape.
Context {Sent : Type}.
Variable token_count : Sent -> Z.
Variables max_tokens overlap_tokens : Z.

Local Abbreviation total := (chunking.total_tokens token_count).
Local Abbreviation group_finalize :=
  (fun (s0 : Sent) (rest : list Sent) (idx : Z) => (idx, s0 :: rest)).
Local Abbreviation step :=
  (chunking.pack_step token_count group_finalize max_tokens overlap_tokens).

(** The overlap scan returns, in their original order, the sentences it
    took from the front of the reversed buffer; it stops at the end of the
    buffer or at the first sentence that would exceed the overlap budget. *)
Lemma overlap_scan_takes (rev_sents buffer : list Sent) (cnt : Z) seed seed_cnt :
  chunking.overlap_scan token_count overlap_tokens rev_sents buffer cnt
    = (seed, seed_cnt) ->
  exists taken left_over,
    rev_sents = taken ++ left_over /\ seed = rev taken ++ buffer
    /\ seed_cnt = cnt + total taken
    /\ match left_over with
       | [] => True
       | s :: _ => overlap_tokens < seed_cnt + token_count s
       end.
Proof.
  revert buffer cnt. induction rev_sents as [|s rest IH]; intros buffer cnt; simpl.
  - intros Heq. inversion Heq; subst. exists [], [].
    unfold chunking.total_tokens. simpl. repeat split; lia.
  - destruct (Z.leb_spec (cnt + token_count s) overlap_tokens) as [Hle|Hgt].
    + intros Hscan. apply IH in Hscan as (taken & left_over & -> & -> & -> & Hstop).
      exists (s :: taken), left_over. split; [reflexivity|].
      split; [simpl; rewrite <- app_assoc; reflexivity|].
      split; [unfold chunking.total_tokens; simpl; lia | exact Hstop].
    + intros Heq. inversion Heq; subst. exists [], (s :: rest).
      unfold chunking.total_tokens. simpl. repeat split; lia.
Qed.

(** How a seed sits in the group it is taken from: a suffix, within the
    overlap budget, and as long as the budget allows. *)
Definition seed_of (group seed : list Sent) : Prop :=
  exists before,
    group = before ++ seed
    /\ (seed = [] \/ total seed <= overlap_tokens)
    /\ (before = []
        \/ exists before' s,
             before = before' ++ [s] /\ overlap_tokens < total seed + token_count s).

Lemma overlap_seed_of (buffer seed : list Sent) seed_cnt :
  chunking.overlap_scan token_count overlap_tokens (rev buffer) [] 0 = (seed, seed_cnt) ->
  seed_of buffer seed /\ seed_cnt = total seed.
Proof.
  intros Hscan.
  destruct (overlap_scan_seed token_count overlap_tokens (rev buffer) [] 0
              eq_refl (or_introl eq_refl) seed seed_cnt Hscan) as [Hcnt Hfit].
  split; [| exact Hcnt].
  apply overlap_scan_takes in Hscan as (taken & left_over & Hrev & Hseed & Hcnt' & Hstop).
  rewrite app_nil_r in Hseed.
  exists (rev left_over). split; [| split; [exact Hfit|]].
  - rewrite <- (rev_involutive buffer), Hrev, rev_app_distr, Hseed. reflexivity.
  - destruct left_over as [|s left_over']; [left; reflexivity|].
    right. exists (rev left_over'), s. split; [reflexivity|].
    rewrite <- Hcnt. exact Hstop.
Qed.

(** The state of the loop after the sentences [done]. *)
Definition state_after (done : list Sent) : @chunking.pack_state Sent (Z * list Sent) :=
  fold_left step done chunking.pack_init.

Lemma state_after_snoc (done : list Sent) (sent : Sent) :
  state_after (done ++ [sent]) = step (state_after done) sent.
Proof. unfold state_after. rewrite fold_left_app. reflexivity. Qed.

(** One step, by cases: the sentence joins the buffer, or the buffer is
    emitted and the sentence joins the seed. *)
Lemma step_cases (st : @chunking.pack_state Sent (Z * list Sent)) (sent : Sent) :
  (step st sent
   = {| chunking.chunks := chunking.chunks st;
        chunking.current_chunk_sents := chunking.current_chunk_sents st ++ [sent];
        chunking.current_tokens := chunking.current_tokens st + token_count sent;
        chunking.chunk_idx := chunking.chunk_idx st |}
   /\ (chunking.current_chunk_sents st = []
       \/ chunking.current_tokens st + token_count sent <= max_tokens))
  \/ (exists s0 rest seed seed_cnt,
        chunking.current_chunk_sents st = s0 :: rest
        /\ max_tokens < chunking.current_tokens st + token_count sent
        /\ chunking.overlap_scan token_count overlap_tokens (rev (s0 :: rest)) [] 0
           = (seed, seed_cnt)
        /\ step st sent
           = {| chunking.chunks :=
                  chunking.chunks st ++ [(chunking.chunk_idx st, s0 :: rest)];
                chunking.current_chunk_sents := seed ++ [sent];
                chunking.current_tokens := seed_cnt + token_count sent;
                chunking.chunk_idx := chunking.chunk_idx st + 1 |}).
Proof.
  unfold chunking.pack_step, chunking.flush_if_full.
  destruct (Z.gtb_spec (chunking.current_tokens st + token_count sent) max_tokens)
    as [Hgt|Hle].
  - destruct (chunking.current_chunk_sents st) as [|s0 rest] eqn:Hsents.
    + left. rewrite Hsents. split; [reflexivity | left; reflexivity].
    + right.
      destruct (chunking.overlap_scan token_count overlap_tokens (rev (s0 :: rest)) [] 0)
        as [seed seed_cnt] eqn:Hscan.
      exists s0, rest, seed, seed_cnt. repeat split; assumption.
  - left. split; [reflexivity | right; exact Hle].
Qed.

(** The groups of the whole run: the emitted chunks and the last buffer. *)
Lemma pack_groups_final (sents : list Sent) :
  chunking.pack_groups token_count max_tokens overlap_tokens sents
  = match chunking.current_chunk_sents (state_after sents) with
    | [] => chunking.chunks (state_after sents)
    | s0 :: rest =>
        chunking.chunks (state_after sents)
        ++ [(chunking.chunk_idx (state_after sents), s0 :: rest)]
    end.
Proof. reflexivity. Qed.

(** *** Indices and counts *)

Definition indexed_in_order (st : @chunking.pack_state Sent (Z * list Sent)) : Prop :=
  map fst (chunking.chunks st)
    = map Z.of_nat (seq 0 (length (chunking.chunks st)))
  /\ chunking.chunk_idx st = Z.of_nat (length (chunking.chunks st)).

Lemma state_after_indexed (done : list Sent) : indexed_in_order (state_after done).
Proof.
  induction done as [|sent done IH] using rev_ind.
  - split; reflexivity.
  - rewrite state_after_snoc. destruct IH as [Hidx Hnext].
    destruct (step_cases (state_after done) sent)
      as [[-> _] | (s0 & rest & seed & cnt & _ & _ & _ & ->)].
    + split; assumption.
    + unfold indexed_in_order. pack_fields.
      rewrite map_app, length_app, Hidx. simpl.
      rewrite Nat.add_1_r, seq_S, map_app. simpl. rewrite Hnext.
      split; [reflexivity | lia].
Qed.

(** The chunk indices are 0, 1, 2, ... in the order of emission. *)
Lemma pack_groups_indices (sents : list Sent) :
  map fst (chunking.pack_groups token_count max_tokens overlap_tokens sents)
  = map Z.of_nat
      (seq 0 (length (chunking.pack_groups token_count max_tokens overlap_tokens sents))).
Proof.
  rewrite pack_groups_final.
  destruct (state_after_indexed sents) as [Hidx Hnext].
  destruct (chunking.current_chunk_sents (state_after sents)); [exact Hidx|].
  rewrite map_app, length_app, Hidx. simpl.
  rewrite Nat.add_1_r, seq_S, map_app. simpl. rewrite Hnext. reflexivity.
Qed.

(** After any sentence the buffer is not empty, and no more chunks have
    been emitted than sentences read before the last one. *)
Lemma state_after_counts (done : list Sent) :
  done <> [] ->
  chunking.current_chunk_sents (state_after done) <> []
  /\ (S (length (chunking.chunks (state_after done))) <= length done)%nat.
Proof.
  induction done as [|sent done IH] using rev_ind; [contradiction|]. intros _.
  rewrite state_after_snoc, length_app.
  destruct (step_cases (state_after done) sent)
    as [[-> _] | (s0 & rest & seed & cnt & Hbuf & _ & _ & ->)]; pack_fields.
  - split; [intros Hnil; apply app_eq_nil in Hnil as [_ Hnil]; discriminate|].
    destruct done as [|d done']; [simpl; lia|].
    destruct IH as [_ IH]; [discriminate|]. simpl in *. lia.
  - split; [intros Hnil; apply app_eq_nil in Hnil as [_ Hnil]; discriminate|].
    destruct done as [|d done']; [discriminate Hbuf|].
    destruct IH as [_ IH]; [discriminate|]. rewrite length_app. simpl in *. lia.
Qed.

(** No sentences, no chunks; otherwise at least one chunk and at most one
    per sentence. *)
Lemma pack_groups_count (sents : list Sent) :
  (chunking.pack_groups token_count max_tokens overlap_tokens sents = [] <-> sents = [])
  /\ (length (chunking.pack_groups token_count max_tokens overlap_tokens sents)
      <= length sents)%nat.
Proof.
  rewrite pack_groups_final.
  destruct sents as [|s sents].
  - split; [split; reflexivity | simpl; lia].
  - destruct (state_after_counts (s :: sents)) as [Hbuf Hcount]; [discriminate|].
    destruct (chunking.current_chunk_sents (state_after (s :: sents))) as [|s0 rest];
      [contradiction|].
    split.
    + split; [| discriminate].
      intros Hnil. apply app_eq_nil in Hnil as [_ Hnil]. discriminate.
    + rewrite length_app. simpl in *. lia.
Qed.

(** *** Contiguity *)

(** [g] is a non-empty run of consecutive sentences of [whole]. *)
Definition run_of (whole g : list Sent) : Prop :=
  g <> [] /\ exists before after, whole = before ++ g ++ after.

Lemma run_of_snoc (whole g : list Sent) (sent : Sent) :
  run_of whole g -> run_of (whole ++ [sent]) g.
Proof.
  intros [Hne (before & after & ->)]. split; [exact Hne|].
  exists before, (after ++ [sent]). rewrite <- !app_assoc. reflexivity.
Qed.

Definition contiguous (done : list Sent)
    (st : @chunking.pack_state Sent (Z * list Sent)) : Prop :=
  (exists before, done = before ++ chunking.current_chunk_sents st)
  /\ Forall (fun ig => run_of done (snd ig)) (chunking.chunks st).

Lemma state_after_contiguous (done : list Sent) : contiguous done (state_after done).
Proof.
  induction done as [|sent done IH] using rev_ind.
  - split; [exists []; reflexivity | constructor].
  - rewrite state_after_snoc. destruct IH as [[before Hbuf] Hruns].
    assert (Hruns' : Forall (fun ig => run_of (done ++ [sent]) (snd ig))
                       (chunking.chunks (state_after done))).
    { eapply List.Forall_impl; [| exact Hruns]. intros ig. apply run_of_snoc. }
    destruct (step_cases (state_after done) sent)
      as [[-> _] | (s0 & rest & seed & cnt & Hsents & _ & Hscan & ->)];
      unfold contiguous; pack_fields.
    + split; [| exact Hruns'].
      exists before. rewrite Hbuf at 1. rewrite <- app_assoc. reflexivity.
    + apply overlap_seed_of in Hscan as [(pre & Hpre & _) _].
      rewrite Hsents in Hbuf. split.
      * exists (before ++ pre). rewrite Hbuf at 1. rewrite Hpre.
        rewrite <- !app_assoc. reflexivity.
      * apply Forall_app. split; [exact Hruns'|].
        constructor; [| constructor]. split; [discriminate|].
        exists before, [sent]. simpl. rewrite Hbuf at 1.
        rewrite <- app_assoc. reflexivity.
Qed.

(** Every chunk is a non-empty run of consecutive sentences of the input. *)
Lemma pack_groups_runs (sents : list Sent) :
  Forall (fun ig => run_of sents (snd ig))
    (chunking.pack_groups token_count max_tokens overlap_tokens sents).
Proof.
  rewrite pack_groups_final.
  destruct (state_after_contiguous sents) as [[before Hbuf] Hruns].
  destruct (chunking.current_chunk_sents (state_after sents)) as [|s0 rest];
    [exact Hruns|].
  apply Forall_app. split; [exact Hruns|].
  constructor; [| constructor]. split; [discriminate|].
  exists before, []. rewrite app_nil_r. exact Hbuf.
Qed.

(** *** Overlap *)

(** A chunk seen as the seed it starts with and the sentences new to it. *)
Definition join_part (p : list Sent * list Sent) : list Sent := fst p ++ snd p.

(** The first chunk has no seed; every later one starts with a seed of
    the chunk before it; each brings at least one new sentence. *)
Fixpoint seeded_chain (previous : option (list Sent))
    (parts : list (list Sent * list Sent)) : Prop :=
  match parts with
  | [] => True
  | p :: parts' =>
      match previous with
      | None => fst p = []
      | Some group => seed_of group (fst p)
      end
      /\ snd p <> []
      /\ seeded_chain (Some (join_part p)) parts'
  end.

Definition last_group (previous : option (list Sent))
    (parts : list (list Sent * list Sent)) : option (list Sent) :=
  fold_left (fun _ p => Some (join_part p)) parts previous.

Lemma seeded_chain_snoc previous parts p :
  seeded_chain previous parts ->
  match last_group previous parts with
  | None => fst p = []
  | Some group => seed_of group (fst p)
  end ->
  snd p <> [] ->
  seeded_chain previous (parts ++ [p]).
Proof.
  revert previous. induction parts as [|q parts IH]; intros previous; simpl.
  - intros _ Hseed Hfresh. repeat split; assumption.
  - intros (Hq & Hqfresh & Hchain) Hseed Hfresh.
    repeat split; [exact Hq | exact Hqfresh |].
    apply IH; assumption.
Qed.

Lemma last_group_snoc previous parts p :
  last_group previous (parts ++ [p]) = Some (join_part p).
Proof. unfold last_group. rewrite fold_left_app. reflexivity. Qed.

(** The loop's state as seeds and new sentences. *)
Definition overlapping (done : list Sent)
    (st : @chunking.pack_state Sent (Z * list Sent)) : Prop :=
  exists parts seed fresh,
    map snd (chunking.chunks st) = map join_part parts
    /\ chunking.current_chunk_sents st = seed ++ fresh
    /\ done = concat (map snd parts) ++ fresh
    /\ seeded_chain None parts
    /\ match last_group None parts with
       | None => seed = []
       | Some group => seed_of group seed
       end
    /\ (done <> [] -> fresh <> []).

Lemma state_after_overlapping (done : list Sent) : overlapping done (state_after done).
Proof.
  induction done as [|sent done IH] using rev_ind.
  - exists [], [], []. repeat split. intros Hne. contradiction.
  - rewrite state_after_snoc.
    destruct IH as (parts & seed & fresh & Hchunks & Hbuf & Hdone & Hchain & Hseed & Hfresh).
    destruct (step_cases (state_after done) sent)
      as [[-> _] | (s0 & rest & seed' & cnt & Hsents & _ & Hscan & ->)];
      unfold overlapping; pack_fields.
    + exists parts, seed, (fresh ++ [sent]).
      split; [exact Hchunks|]. split; [rewrite Hbuf, app_assoc; reflexivity|].
      split; [rewrite app_assoc, <- Hdone; reflexivity|].
      split; [exact Hchain|]. split; [exact Hseed|].
      intros _ Hnil. apply app_eq_nil in Hnil as [_ Hnil]. discriminate.
    + apply overlap_seed_of in Hscan as [Hseed' _].
      assert (Hne : fresh <> []).
      { apply Hfresh. intros ->. discriminate Hsents. }
      exists (parts ++ [(seed, fresh)]), seed', [sent].
      rewrite !map_app, Hchunks, concat_app, last_group_snoc. simpl.
      rewrite app_nil_r. change (join_part (seed, fresh)) with (seed ++ fresh).
      rewrite <- Hbuf, Hsents.
      split; [reflexivity|]. split; [reflexivity|].
      split; [rewrite <- Hdone; reflexivity|].
      split; [apply seeded_chain_snoc; assumption|].
      split; [exact Hseed' | discriminate].
Qed.

(** Every chunk is a seed taken from the end of the chunk before it
    followed by sentences not yet emitted, at least one; the first chunk
    has no seed; the new sentences of all chunks, in order, are the input. *)
Lemma pack_groups_overlap (sents : list Sent) :
  exists parts,
    map snd (chunking.pack_groups token_count max_tokens overlap_tokens sents)
      = map join_part parts
    /\ concat (map snd parts) = sents
    /\ seeded_chain None parts.
Proof.
  rewrite pack_groups_final.
  destruct (state_after_overlapping sents)
    as (parts & seed & fresh & Hchunks & Hbuf & Hdone & Hchain & Hseed & Hfresh).
  destruct (chunking.current_chunk_sents (state_after sents)) as [|s0 rest] eqn:Hsents.
  - exists parts. apply eq_sym, app_eq_nil in Hbuf as [_ ->].
    rewrite app_nil_r in Hdone. repeat split; [exact Hchunks | congruence | exact Hchain].
  - exists (parts ++ [(seed, fresh)]).
    rewrite !map_app, Hchunks, concat_app. simpl.
    rewrite app_nil_r. change (join_part (seed, fresh)) with (seed ++ fresh).
    rewrite <- Hbuf.
    split; [reflexivity|]. split; [congruence|].
    apply seeded_chain_snoc; [assumption | assumption |].
    apply Hfresh. intros ->. unfold state_after in Hsents. discriminate Hsents.
Qed.

End PackerShape.

(** *** The two entry points *)

Lemma chunk_transcript_indices tt transcript words max_tokens overlap_tokens :
  map chunking.chunk_index
      (chunking.chunk_transcript tt transcript words max_tokens overlap_tokens)
  = map fst (chunking.transcript_groups tt transcript words max_tokens overlap_tokens).
Proof.
  rewrite chunk_transcript_of_groups, map_map. apply map_ext_in.
  intros [idx g] Hin. unfold transcript_chunk_of. simpl.
  destruct g; reflexivity.
Qed.

(** X1. Both chunkers number their chunks 0, 1, 2, ... in the order they
    return them. *)
Theorem chunk_indices_count_up tt pages transcript words max_tokens overlap_tokens :
  let document_chunks := chunking.chunk_document tt pages max_tokens overlap_tokens in
  let transcript_chunks :=
    chunking.chunk_transcript tt transcript words max_tokens overlap_tokens in
  map chunking.chunk_index document_chunks
    = map Z.of_nat (seq 0 (length document_chunks))
  /\ map chunking.chunk_index transcript_chunks
    = map Z.of_nat (seq 0 (length transcript_chunks)).
Proof.
  cbv zeta. split.
  - rewrite chunk_document_indices, chunk_document_of_groups, length_map.
    apply pack_groups_indices.
  - rewrite chunk_transcript_indices, chunk_transcript_of_groups, length_map.
    apply pack_groups_indices.
Qed.

(** X2. A chunker returns no chunk exactly when it has no sentence to
    pack, and never more chunks than sentences. *)
Theorem chunk_count_bounds tt pages transcript words max_tokens overlap_tokens :
  let document_chunks := chunking.chunk_document tt pages max_tokens overlap_tokens in
  let transcript_chunks :=
    chunking.chunk_transcript tt transcript words max_tokens overlap_tokens in
  let timed := chunking.align_sentences tt (chunking.sent_tokenize tt transcript) words in
  (document_chunks = [] <-> chunking.page_sentences tt pages = [])
  /\ (length document_chunks <= length (chunking.page_sentences tt pages))%nat
  /\ (transcript_chunks = [] <-> timed = [])
  /\ (length transcript_chunks <= length timed)%nat.
Proof.
  cbv zeta.
  rewrite chunk_document_of_groups, chunk_transcript_of_groups, !length_map.
  unfold chunking.document_groups, chunking.transcript_groups.
  destruct (pack_groups_count chunking.ps_token_count max_tokens overlap_tokens
              (chunking.page_sentences tt pages)) as [Hd Hdn].
  destruct (pack_groups_count chunking.ts_token_count max_tokens overlap_tokens
              (chunking.align_sentences tt (chunking.sent_tokenize tt transcript) words))
    as [Ht Htn].
  repeat split; try assumption.
  - intros Hnil. apply Hd. apply map_eq_nil in Hnil. exact Hnil.
  - intros Hnil. apply Hd in Hnil. rewrite Hnil. reflexivity.
  - intros Hnil. apply Ht. apply map_eq_nil in Hnil. exact Hnil.
  - intros Hnil. apply Ht in Hnil. rewrite Hnil. reflexivity.
Qed.

(** X3. Every chunk is built from a non-empty run of consecutive
    sentences of the input. *)
Theorem chunks_are_runs_of_sentences tt pages transcript words
    max_tokens overlap_tokens :
  Forall (fun c => exists s0 rest,
            run_of (chunking.page_sentences tt pages) (s0 :: rest)
            /\ c = chunking.finalize_document s0 rest (chunking.chunk_index c))
         (chunking.chunk_document tt pages max_tokens overlap_tokens)
  /\ Forall (fun c => exists s0 rest,
               run_of (chunking.align_sentences tt
                         (chunking.sent_tokenize tt transcript) words) (s0 :: rest)
               /\ c = chunking.finalize_transcript s0 rest (chunking.chunk_index c))
            (chunking.chunk_transcript tt transcript words max_tokens overlap_tokens).
Proof.
  rewrite chunk_document_of_groups, chunk_transcript_of_groups. split.
  - apply List.Forall_map.
    eapply List.Forall_impl;
      [| apply (pack_groups_runs chunking.ps_token_count max_tokens overlap_tokens)].
    intros [idx g] [Hne Hrun]. simpl in *.
    destruct g as [|s0 rest]; [contradiction|].
    exists s0, rest. split; [split; [discriminate | exact Hrun] | reflexivity].
  - apply List.Forall_map.
    eapply List.Forall_impl;
      [| apply (pack_groups_runs chunking.ts_token_count max_tokens overlap_tokens)].
    intros [idx g] [Hne Hrun]. simpl in *.
    destruct g as [|s0 rest]; [contradiction|].
    exists s0, rest. split; [split; [discriminate | exact Hrun] | reflexivity].
Qed.

Lemma seeded_chain_nonempty {Sent} (token_count : Sent -> Z) overlap_tokens
    previous parts :
  seeded_chain token_count overlap_tokens previous parts ->
  Forall (fun p => join_part p <> []) parts.
Proof.
  revert previous. induction parts as [|p parts IH]; intros previous; simpl.
  - constructor.
  - intros (_ & Hfresh & Hchain). constructor; [| eapply IH; exact Hchain].
    unfold join_part. intros Hnil. apply app_eq_nil in Hnil as [_ Hnil]. contradiction.
Qed.

(** X4. Overlap: the first chunk starts with the first sentence; every
    later chunk starts with a seed, the longest run of sentences at the
    end of the chunk before it that fits [overlap_tokens], and continues
    with at least one sentence not emitted before.  The new sentences of
    all chunks, in order, are exactly the input: no sentence is dropped or
    reordered. *)
Theorem chunks_overlap_by_seed tt pages transcript words max_tokens overlap_tokens :
  (exists parts,
     map chunking.text (chunking.chunk_document tt pages max_tokens overlap_tokens)
       = map (fun p => py.join " " (map chunking.ps_text (join_part p))) parts
     /\ concat (map snd parts) = chunking.page_sentences tt pages
     /\ seeded_chain chunking.ps_token_count overlap_tokens None parts)
  /\ (exists parts,
        map chunking.text
            (chunking.chunk_transcript tt transcript words max_tokens overlap_tokens)
          = map (fun p => py.join " " (map chunking.ts_text (join_part p))) parts
        /\ concat (map snd parts)
           = chunking.align_sentences tt (chunking.sent_tokenize tt transcript) words
        /\ seeded_chain chunking.ts_token_count overlap_tokens None parts).
Proof.
  split.
  - destruct (pack_groups_overlap chunking.ps_token_count max_tokens overlap_tokens
                (chunking.page_sentences tt pages)) as (parts & Hgroups & Hfresh & Hchain).
    exists parts. split; [| split; assumption].
    rewrite chunk_document_of_groups. unfold chunking.document_groups.
    pose proof (seeded_chain_nonempty _ _ _ _ Hchain) as Hne.
    rewrite map_map.
    transitivity (map (fun g => py.join " " (map chunking.ps_text g))
                      (map snd (chunking.pack_groups chunking.ps_token_count max_tokens
                                  overlap_tokens (chunking.page_sentences tt pages)))).
    + rewrite map_map. apply map_ext_in. intros [idx g] Hin.
      unfold document_chunk_of. simpl.
      assert (Hg : In g (map join_part parts)).
      { rewrite <- Hgroups. apply (in_map snd) in Hin. exact Hin. }
      apply in_map_iff in Hg as (p & <- & Hp).
      rewrite List.Forall_forall in Hne. specialize (Hne p Hp).
      destruct (join_part p); [contradiction | reflexivity].
    + rewrite Hgroups, map_map. reflexivity.
  - destruct (pack_groups_overlap chunking.ts_token_count max_tokens overlap_tokens
                (chunking.align_sentences tt (chunking.sent_tokenize tt transcript) words))
      as (parts & Hgroups & Hfresh & Hchain).
    exists parts. split; [| split; assumption].
    rewrite chunk_transcript_of_groups. unfold chunking.transcript_groups.
    pose proof (seeded_chain_nonempty _ _ _ _ Hchain) as Hne.
    rewrite map_map.
    transitivity (map (fun g => py.join " " (map chunking.ts_text g))
                      (map snd (chunking.pack_groups chunking.ts_token_count max_tokens
                                  overlap_tokens
                                  (chunking.align_sentences tt
                                     (chunking.sent_tokenize tt transcript) words)))).
    + rewrite map_map. apply map_ext_in. intros [idx g] Hin.
      unfold transcript_chunk_of. simpl.
      assert (Hg : In g (map join_part parts)).
      { rewrite <- Hgroups. apply (in_map snd) in Hin. exact Hin. }
      apply in_map_iff in Hg as (p & <- & Hp).
      rewrite List.Forall_forall in Hne. specialize (Hne p Hp).
      destruct (join_part p); [contradiction | reflexivity].
    + rewrite Hgroups, map_map. reflexivity.
Qed.

(** X5. The budget that does hold: when the overlap is not negative and no
    sentence has more than [max_tokens - overlap_tokens] tokens, the
    sentences of every chunk add up to at most [max_tokens] tokens. *)
Theorem chunk_tokens_within_budget tt pages max_tokens overlap_tokens :
  0 <= overlap_tokens ->
  Forall (fun s => chunking.ps_token_count s <= max_tokens - overlap_tokens)
         (chunking.page_sentences tt pages) ->
  Forall (fun ig => chunking.total_tokens chunking.ps_token_count (snd ig) <= max_tokens)
         (chunking.document_groups tt pages max_tokens overlap_tokens).
Proof.
  intros Hov Hsmall. apply List.Forall_forall. intros [idx g] Hin.
  pose proof (document_groups_bounded_or_seeded _ _ _ _ _ _ Hin) as Hshape.
  simpl.
  destruct Hshape as [Hle | (seed & s & -> & Hseed)]; [exact Hle|].
  assert (Hs : chunking.ps_token_count s <= max_tokens - overlap_tokens).
  { pose proof (pack_groups_runs chunking.ps_token_count max_tokens overlap_tokens
                  (chunking.page_sentences tt pages)) as Hruns.
    rewrite List.Forall_forall in Hruns.
    destruct (Hruns _ Hin) as [_ (before & after & Hwhole)]. simpl in Hwhole.
    rewrite List.Forall_forall in Hsmall. apply Hsmall.
    rewrite Hwhole. apply in_or_app. right. apply in_or_app. left.
    apply in_or_app. right. left. reflexivity. }
  rewrite total_tokens_app. unfold chunking.total_tokens at 2. simpl.
  destruct Hseed as [-> | Hfit]; [unfold chunking.total_tokens; simpl; lia | lia].
Qed.

Lemma chunk_tokens_within_budget_witness :
  Forall (fun ig => chunking.total_tokens chunking.ps_token_count (snd ig) <= 800)
         (chunking.document_groups demo.tools demo.pages_50_60_700_90 800 100).
Proof.
  apply (chunk_tokens_within_budget demo.tools demo.pages_50_60_700_90 800 100).
  - lia.
  - assert (Hsents : chunking.page_sentences demo.tools demo.pages_50_60_700_90
                     = [demo.sentence 50 "a"; demo.sentence 60 "b";
                        demo.sentence 700 "c"; demo.sentence 90 "d"])
      by (vm_compute; reflexivity).
    rewrite Hsents.
    repeat (apply List.Forall_cons; [simpl; lia|]). apply List.Forall_nil.
Defined.

(** ** Word alignment of transcripts *)

(** The words [align_sentences] gives to each sentence it keeps. *)
Fixpoint align_words (tt : chunking.TextTools) (sentences : list string)
    (remaining : list transcription.WordInfo) : list (list transcription.WordInfo) :=
  match sentences with
  | [] => []
  | sent_text :: sentences' =>
      let target_chars := chunking.lower tt (py.remove_spaces sent_text) in
      let '(sent_words, remaining') :=
        chunking.consume_words tt target_chars remaining "" [] in
      match sent_words with
      | [] => align_words tt sentences' remaining'
      | _ :: _ => sent_words :: align_words tt sentences' remaining'
      end
  end.

(** The sentence dict built from the words of one sentence. *)
Definition timed_sentence_of (tt : chunking.TextTools)
    (sent_words : list transcription.WordInfo) : option chunking.TimedSentence :=
  match sent_words with
  | [] => None
  | w0 :: ws =>
      let real_sent_text := py.join " " (map transcription.text sent_words) in
      Some {| chunking.ts_text := real_sent_text;
              chunking.ts_start_time := transcription.start_time w0;
              chunking.ts_end_time := transcription.end_time (List.last ws w0);
              chunking.ts_token_count := chunking.count_tokens tt real_sent_text |}
  end.

Lemma consume_words_splits tt target remaining collected sent_words taken left_over :
  chunking.consume_words tt target remaining collected sent_words = (taken, left_over) ->
  taken ++ left_over = sent_words ++ remaining.
Proof.
  revert collected sent_words.
  induction remaining as [|w remaining IH]; intros collected sent_words; simpl.
  - intros Heq. inversion Heq; subst. reflexivity.
  - destruct (_ <=? _)%nat.
    + intros Heq. inversion Heq; subst. rewrite <- app_assoc. reflexivity.
    + intros Hrec. apply IH in Hrec. rewrite <- app_assoc in Hrec. exact Hrec.
Qed.

Lemma align_sentences_of_words tt sentences words :
  map Some (chunking.align_sentences tt sentences words)
  = map (timed_sentence_of tt) (align_words tt sentences words).
Proof.
  revert words. induction sentences as [|sent_text sentences IH]; intros words; simpl.
  - reflexivity.
  - destruct (chunking.consume_words tt _ words "" []) as [sent_words remaining'].
    destruct sent_words as [|w0 ws]; [apply IH|].
    simpl. rewrite IH. reflexivity.
Qed.

Lemma align_words_shape tt sentences words :
  Forall (fun ws => ws <> []) (align_words tt sentences words)
  /\ (exists left_over, words = concat (align_words tt sentences words) ++ left_over)
  /\ (length (align_words tt sentences words) <= length sentences)%nat
  /\ (length (align_words tt sentences words) <= length words)%nat.
Proof.
  revert words. induction sentences as [|sent_text sentences IH]; intros words; simpl.
  - repeat split; [constructor | exists words; reflexivity | lia | lia].
  - destruct (chunking.consume_words tt _ words "" []) as [sent_words remaining'] eqn:Hc.
    apply consume_words_splits in Hc as Hsplit. simpl in Hsplit.
    destruct (IH remaining') as (Hne & [left_over Hcat] & Hlen & Hlenw).
    destruct sent_words as [|w0 ws].
    + simpl in Hsplit. subst remaining'.
      repeat split; [exact Hne | exists left_over; exact Hcat | lia | exact Hlenw].
    + repeat split.
      * constructor; [discriminate | exact Hne].
      * exists left_over. cbn [concat]. rewrite <- app_assoc, <- Hcat.
        symmetry. exact Hsplit.
      * simpl. lia.
      * rewrite <- Hsplit. simpl. rewrite length_app.
        simpl in Hlenw |- *. lia.
Qed.

(** X6. Alignment hands the recognised words to the sentences in order,
    each word to at most one sentence and each kept sentence at least one
    word: the sentences' words, concatenated, are a prefix of the word
    list.  A kept sentence starts with its first word and ends with its
    last; a sentence left without words is dropped, so there are no more
    timed sentences than sentences or words. *)
Theorem align_sentences_consumes_words_in_order tt sentences words :
  let groups := align_words tt sentences words in
  let timed := chunking.align_sentences tt sentences words in
  map Some timed = map (timed_sentence_of tt) groups
  /\ Forall (fun ws => ws <> []) groups
  /\ (exists left_over, words = concat groups ++ left_over)
  /\ (length timed <= length sentences)%nat
  /\ (length timed <= length words)%nat.
Proof.
  cbv zeta.
  pose proof (align_sentences_of_words tt sentences words) as Hmap.
  destruct (align_words_shape tt sentences words) as (Hne & Hcat & Hlen & Hlenw).
  assert (Hsame : length (chunking.align_sentences tt sentences words)
                  = length (align_words tt sentences words)).
  { rewrite <- (length_map Some), Hmap, length_map. reflexivity. }
  rewrite Hsame. repeat split; assumption.
Qed.

(** ** Page ranges *)

Lemma number_pages_numbers i texts :
  map chunking.pc_page_number (extraction.number_pages i texts)
  = map (fun n => i + 1 + Z.of_nat n) (seq 0 (length texts)).
Proof.
  revert i. induction texts as [|t texts IH]; intros i; simpl; [reflexivity|].
  rewrite IH, <- seq_shift, map_map. f_equal; [lia|].
  apply map_ext. intros n. lia.
Qed.

Lemma StronglySorted_count_up i n :
  StronglySorted Z.le (map (fun m => i + Z.of_nat m) (seq 0 n)).
Proof.
  revert i. induction n as [|n IH]; intros i; simpl; [constructor|].
  constructor.
  - rewrite <- seq_shift, map_map.
    replace (map (fun x => i + Z.of_nat (S x)) (seq 0 n))
      with (map (fun m => (i + 1) + Z.of_nat m) (seq 0 n)); [apply IH|].
    apply map_ext. intros m. lia.
  - apply List.Forall_forall. intros x Hx. apply in_map_iff in Hx as (m & <- & _). lia.
Qed.

(** The pages an extraction returns are numbered 1, 2, ..., in order. *)
Lemma extraction_pages_numbered cd file_bytes file_type :
  map chunking.pc_page_number
      (extraction.pages (extraction.extract_document_text cd file_bytes file_type))
  = map (fun n => 1 + Z.of_nat n)
        (seq 0 (length (extraction.pages
                          (extraction.extract_document_text cd file_bytes file_type)))).
Proof.
  unfold extraction.extract_document_text, extraction.extract_pdf,
    extraction.extract_text_file.
  destruct (String.eqb file_type "pdf"); [| reflexivity].
  destruct (extraction.pdf_pages cd file_bytes) as [e|texts]; [reflexivity|].
  simpl. rewrite number_pages_numbers.
  assert (Hlen : length (extraction.number_pages 0 texts) = length texts).
  { generalize 0. induction texts as [|t texts IH]; intros i; simpl;
      [reflexivity | rewrite IH; reflexivity]. }
  rewrite Hlen. reflexivity.
Qed.

Lemma page_sentences_pages tt pages :
  map chunking.ps_page_number (chunking.page_sentences tt pages)
  = flat_map (fun page =>
                repeat (chunking.pc_page_number page)
                       (length (chunking.sent_tokenize tt (chunking.pc_text page))))
             pages.
Proof.
  unfold chunking.page_sentences.
  induction pages as [|page pages IH]; simpl; [reflexivity|].
  rewrite map_app, IH, map_map. simpl. f_equal.
  induction (chunking.sent_tokenize tt (chunking.pc_text page)) as [|s l IHl]; simpl;
    [reflexivity | rewrite IHl; reflexivity].
Qed.

Lemma page_sentences_sorted tt pages :
  StronglySorted Z.le (map chunking.pc_page_number pages) ->
  StronglySorted Z.le (map chunking.ps_page_number (chunking.page_sentences tt pages)).
Proof.
  rewrite page_sentences_pages.
  induction pages as [|page pages IH]; simpl; [constructor|].
  intros Hsorted. inversion Hsorted as [|? ? Hrest Hle]; subst.
  specialize (IH Hrest).
  induction (length (chunking.sent_tokenize tt (chunking.pc_text page))) as [|n IHn];
    simpl; [exact IH|].
  constructor; [exact IHn|].
  apply Forall_app. split.
  - apply List.Forall_forall. intros x Hx. apply repeat_spec in Hx. subst. lia.
  - apply List.Forall_forall. intros x Hx. apply in_flat_map in Hx as (p & Hp & Hx).
    apply repeat_spec in Hx. subst x.
    rewrite List.Forall_forall in Hle. apply Hle. apply in_map. exact Hp.
Qed.

Lemma page_sentences_from_pages tt pages s :
  In s (chunking.page_sentences tt pages) ->
  In (chunking.ps_page_number s) (map chunking.pc_page_number pages).
Proof.
  unfold chunking.page_sentences. intros Hin.
  apply in_flat_map in Hin as (page & Hpage & Hs).
  apply in_map_iff in Hs as (s_text & <- & _). simpl. apply in_map. exact Hpage.
Qed.

Lemma last_map_default {A B} (f : A -> B) (l : list A) (d : A) :
  List.last (map f l) (f d) = f (List.last l d).
Proof.
  induction l as [|x l IH]; [reflexivity|].
  destruct l as [|y l']; [reflexivity|]. exact IH.
Qed.

Lemma StronglySorted_run_ends (l before after : list Z) (x : Z) (rest : list Z) :
  StronglySorted Z.le l -> l = before ++ (x :: rest) ++ after ->
  x <= List.last rest x.
Proof.
  intros Hsorted ->. 
  induction before as [|b before IH].
  - simpl in Hsorted. inversion Hsorted as [|? ? _ Hle]; subst.
    destruct rest as [|r rest'] using rev_ind; [simpl; lia|].
    rewrite last_last. rewrite List.Forall_forall in Hle. apply Hle.
    apply in_or_app. left. apply in_or_app. right. left. reflexivity.
  - apply IH. simpl in Hsorted. inversion Hsorted; assumption.
Qed.

(** For pages numbered in non-decreasing order every chunk carries a start page and an end
    page that are page numbers of the document, the start not after the
    end; [page_number] is the start page. *)
Lemma chunk_page_range_ordered tt pages max_tokens overlap_tokens :
  StronglySorted Z.le (map chunking.pc_page_number pages) ->
  Forall (fun c => exists start_page end_page,
            chunking.page_number c = Some start_page
            /\ chunking.metadata c
               = Some (<["end_page" := end_page]> {["start_page" := start_page]})
            /\ start_page <= end_page
            /\ In start_page (map chunking.pc_page_number pages)
            /\ In end_page (map chunking.pc_page_number pages))
         (chunking.chunk_document tt pages max_tokens overlap_tokens).
Proof.
  intros Hsorted.
  destruct (chunks_are_runs_of_sentences tt pages "" [] max_tokens overlap_tokens)
    as [Hruns _].
  eapply List.Forall_impl; [| exact Hruns].
  intros c (s0 & rest & [_ (before & after & Hwhole)] & ->).
  exists (chunking.ps_page_number s0), (chunking.ps_page_number (List.last rest s0)).
  split; [reflexivity|]. split; [reflexivity|].
  assert (Hin : forall s, In s (s0 :: rest) ->
                  In (chunking.ps_page_number s) (map chunking.pc_page_number pages)).
  { intros s Hs. apply (page_sentences_from_pages tt). rewrite Hwhole.
    apply in_or_app. right. apply in_or_app. left. exact Hs. }
  split; [| split].
  - pose proof (page_sentences_sorted tt pages Hsorted) as Hs.
    rewrite Hwhole, !map_app in Hs. simpl in Hs.
    pose proof (StronglySorted_run_ends _ _ _ _ _ Hs eq_refl) as Hends.
    rewrite last_map_default in Hends. exact Hends.
  - apply Hin. left. reflexivity.
  - apply Hin. destruct rest as [|r rest'] using rev_ind; [left; reflexivity|].
    rewrite last_last. right. apply in_or_app. right. left. reflexivity.
Qed.

(** X7. Page ranges.  Every chunk of an extracted document carries a start
    page and an end page, both pages of the document counted from 1, the
    start not after the end; [page_number] is the start page. *)
Theorem extracted_chunk_page_range cd file_bytes file_type tt max_tokens overlap_tokens :
  let content := extraction.extract_document_text cd file_bytes file_type in
  Forall (fun c => exists start_page end_page,
            chunking.page_number c = Some start_page
            /\ chunking.metadata c
               = Some (<["end_page" := end_page]> {["start_page" := start_page]})
            /\ 1 <= start_page <= end_page
            /\ end_page <= Z.of_nat (length (extraction.pages content)))
         (chunking.chunk_document tt (extraction.pages content) max_tokens overlap_tokens).
Proof.
  cbv zeta.
  pose proof (extraction_pages_numbered cd file_bytes file_type) as Hnumbers.
  set (pages := extraction.pages _) in *.
  assert (Hsorted : StronglySorted Z.le (map chunking.pc_page_number pages)).
  { rewrite Hnumbers. apply StronglySorted_count_up. }
  eapply List.Forall_impl; [| exact (chunk_page_range_ordered tt pages _ _ Hsorted)].
  intros c (start_page & end_page & Hpage & Hmeta & Hle & Hstart & Hend).
  exists start_page, end_page. split; [exact Hpage|]. split; [exact Hmeta|].
  rewrite Hnumbers in Hstart, Hend.
  apply in_map_iff in Hstart as (n & <- & Hn).
  apply in_map_iff in Hend as (m & <- & Hm).
  apply in_seq in Hn, Hm. lia.
Qed.

(** ** The embedding service: provider calls and the batch limit *)

Lemma embed_batches_calls svc texts step starts calls acc :
  (calls <= snd (embeddings.embed_batches svc texts step starts calls acc)
   <= calls + length starts)%nat.
Proof.
  revert calls acc. induction starts as [|i starts IH]; intros calls acc; simpl.
  - lia.
  - destruct (embeddings.model_get_embeddings svc calls (py.slice texts i step))
      as [e|r]; simpl; [lia|].
    destruct (negb _); simpl; [lia|].
    specialize (IH (S calls) (acc ++ r)). lia.
Qed.

(** One attempt sends at most one request per batch. *)
Lemma attempt_calls svc texts calls :
  let step := Z.to_nat (embeddings.batch_limit svc) in
  (calls <= snd (embeddings.generate_embeddings_attempt svc texts calls)
   <= calls + (length texts + step - 1) / step)%nat.
Proof.
  cbv zeta. unfold embeddings.generate_embeddings_attempt.
  destruct texts as [|t texts]; [simpl; lia|].
  destruct (embeddings.batch_limit svc =? 0); [simpl; lia|].
  destruct (embeddings.batch_limit svc <? 0); [simpl; lia|].
  pose proof (embed_batches_calls svc (t :: texts)
                (Z.to_nat (embeddings.batch_limit svc))
                (embeddings.range_step (length (t :: texts))
                   (Z.to_nat (embeddings.batch_limit svc))) calls []) as Hcalls.
  assert (Hlen : forall n step,
            length (embeddings.range_step n step) = ((n + step - 1) / step)%nat).
  { intros n step. unfold embeddings.range_step.
    rewrite List.length_map, List.length_seq. reflexivity. }
  rewrite Hlen in Hcalls. exact Hcalls.
Qed.

Lemma retry_calls {A : Type} repr more (body : nat -> (exn + A) * nat) (n calls : nat) :
  (forall c, (c <= snd (body c) <= c + n)%nat) ->
  (calls <= snd (embeddings.retry repr more body calls) <= calls + S more * n)%nat.
Proof.
  intros Hbody. revert calls. induction more as [|more IH]; intros calls; simpl.
  - specialize (Hbody calls). destruct (body calls) as [[e|v] calls']; simpl in *; lia.
  - pose proof (Hbody calls) as Hfirst.
    destruct (body calls) as [[e|v] calls']; simpl in *; [| lia].
    specialize (IH calls'). simpl in IH. lia.
Qed.

(** X8. The decorated call sends the provider at most three requests per
    batch, that is [3 * ceil(len(texts) / batch_limit)], and none at all
    for an empty list, which it answers with an empty list.  (The
    quotient is 0 for a batch limit that is not positive: no request is
    sent then.) *)
Theorem generate_embeddings_call_budget (svc : embeddings.VertexAIEmbeddingService)
    (texts : list string) (calls : nat) :
  let step := Z.to_nat (embeddings.batch_limit svc) in
  (calls <= snd (embeddings.generate_embeddings svc texts calls)
   <= calls + 3 * ((length texts + step - 1) / step))%nat
  /\ embeddings.generate_embeddings svc [] calls = (inr [], calls).
Proof.
  cbv zeta. split; [| reflexivity].
  unfold embeddings.generate_embeddings.
  apply (retry_calls (embeddings.retry_error_repr svc) 2
           (embeddings.generate_embeddings_attempt svc texts)).
  intros c. apply attempt_calls.
Qed.

(** With a batch limit that is not positive the loop body never runs. *)
Lemma generate_embeddings_nonpositive svc texts calls :
  embeddings.batch_limit svc <= 0 ->
  texts <> [] ->
  embeddings.generate_embeddings svc texts calls
  = (if embeddings.batch_limit svc =? 0
     then inl (RetryError (ValueError "range() arg 3 must not be zero")
                 (embeddings.retry_error_repr svc
                    (ValueError "range() arg 3 must not be zero")))
     else inr [],
     calls).
Proof.
  intros Hle Htexts.
  unfold embeddings.generate_embeddings, embeddings.generate_embeddings_attempt.
  destruct texts as [|t texts]; [contradiction|].
  simpl.
  destruct (Z.eqb_spec (embeddings.batch_limit svc) 0) as [H0|H0]; [reflexivity|].
  destruct (Z.ltb_spec (embeddings.batch_limit svc) 0); [reflexivity | lia].
Qed.

(** X9. A batch limit read from EMBEDDING_BATCH_LIMIT is taken as it is
    when it is zero or negative.  With a negative limit the call sends
    nothing and returns an empty list whatever the texts; with limit zero
    and at least one text every attempt fails on the zero step, and the
    call raises a [RetryError] around that [ValueError], again without a
    request. *)
Theorem nonpositive_batch_limit (svc : embeddings.VertexAIEmbeddingService)
    (env_limit : Z) (texts : list string) (calls : nat) :
  env_limit <= 0 ->
  embeddings.batch_limit svc = embeddings.configure_batch_limit (Some (Some env_limit)) ->
  texts <> [] ->
  embeddings.generate_embeddings svc texts calls
  = (if env_limit =? 0
     then inl (RetryError (ValueError "range() arg 3 must not be zero")
                 (embeddings.retry_error_repr svc
                    (ValueError "range() arg 3 must not be zero")))
     else inr [],
     calls).
Proof.
  intros Hle Hlimit Htexts.
  assert (Hval : embeddings.batch_limit svc = env_limit).
  { rewrite Hlimit. unfold embeddings.configure_batch_limit. lia. }
  rewrite generate_embeddings_nonpositive by (try rewrite Hval; assumption).
  rewrite Hval. reflexivity.
Qed.

Definition misconfigured_service (limit : Z) : embeddings.VertexAIEmbeddingService :=
  {| embeddings.batch_limit := limit;
     embeddings.model_get_embeddings := fun _ batch => inr (one_vector_each batch);
     embeddings.retry_error_repr := fun _ => "RetryError[...]" |}.

Lemma nonpositive_batch_limit_witness :
  embeddings.generate_embeddings (misconfigured_service (-1)) ten_texts 0 = (inr [], 0%nat).
Proof.
  apply (nonpositive_batch_limit (misconfigured_service (-1)) (-1) ten_texts 0).
  - lia.
  - reflexivity.
  - discriminate.
Defined.

(** A failure of the embedding step, seen from [process_job]: the
    exception of the service, or the count mismatch, is what the job
    fails with, and the stored chunks stay as they were. *)
Lemma process_job_embedding_failure env job_id w j document chunks_data :
  worker.session w = worker.committed w ->
  worker.jobs (worker.committed w) !! job_id = Some j ->
  models.Job.status j = models.pending ->
  worker.documents (worker.committed w) !! models.Job.document_id j = Some document ->
  worker.db_fault env worker.OpClaimUpdate = None ->
  worker.db_fault env worker.OpClaimCommit = None ->
  worker.db_fault env worker.OpLoadJob = None ->
  worker.db_fault env worker.OpLoadDocument = None ->
  worker.services_fault env = None ->
  fst (worker.extract_chunks env document w) = inr chunks_data ->
  chunks_data <> [] ->
  match worker.generate_embeddings env (map chunking.text chunks_data) with
  | inl e =>
      exists w', worker.process_job env job_id w = (inl e, w')
                 /\ worker.chunks (worker.committed w') = worker.chunks (worker.committed w)
  | inr embs =>
      length embs <> length chunks_data ->
      exists w',
        worker.process_job env job_id w
        = (inl (RuntimeError
                  (worker.count_mismatch_message (length chunks_data) (length embs))),
           w')
        /\ worker.chunks (worker.committed w') = worker.chunks (worker.committed w)
  end.
Proof.
  intros Hclean Hj Hpending Hdoc Hupdate Hcommit Hload Hloaddoc Hservices Hextract Hne.
  assert (Hs : worker.jobs (worker.session w) !! job_id = Some j)
    by (rewrite Hclean; exact Hj).
  assert (Hds : worker.documents (worker.session w) !! models.Job.document_id j
                = Some document) by (rewrite Hclean; exact Hdoc).
  pose proof (claim_pending env job_id w j Hupdate Hcommit Hs Hpending) as Hclaim.
  pose proof (pipeline_embedding_failure env job_id j w document chunks_data
                Hload Hloaddoc Hservices Hds Hextract Hne) as Hfail.
  assert (Hchunks : worker.chunks (worker.committed (claimed_world env job_id j w))
                    = worker.chunks (worker.committed w)).
  { simpl. rewrite Hclean. reflexivity. }
  destruct (worker.generate_embeddings env (map chunking.text chunks_data)) as [e|embs].
  - destruct Hfail as [w2 Hpipe].
    destruct (process_job_failure env job_id w _ e w2 Hclaim Hpipe)
      as (w3 & Hrun & Hkept & _).
    exists w3. split; [exact Hrun | congruence].
  - intros Hlen. destruct (Hfail Hlen) as [w2 Hpipe].
    destruct (process_job_failure env job_id w _ _ w2 Hclaim Hpipe)
      as (w3 & Hrun & Hkept & _).
    exists w3. split; [exact Hrun | congruence].
Qed.

(** X10. A worker whose embedding service was configured with a negative
    batch limit fails every job that produced chunks: the service answers
    with no vector, and the job stops on the count mismatch, before any
    chunk is written. *)
Theorem negative_batch_limit_fails_job (svc : embeddings.VertexAIEmbeddingService)
    (calls : nat) (env : worker.Env) (job_id : uuid) (w : worker.World)
    (j : models.Job.t) (document : models.Document.t)
    (chunks_data : list chunking.ChunkMetadata) :
  embeddings.batch_limit svc < 0 ->
  worker.generate_embeddings env (map chunking.text chunks_data)
    = fst (embeddings.generate_embeddings svc (map chunking.text chunks_data) calls) ->
  worker.session w = worker.committed w ->
  worker.jobs (worker.committed w) !! job_id = Some j ->
  models.Job.status j = models.pending ->
  worker.documents (worker.committed w) !! models.Job.document_id j = Some document ->
  worker.db_fault env worker.OpClaimUpdate = None ->
  worker.db_fault env worker.OpClaimCommit = None ->
  worker.db_fault env worker.OpLoadJob = None ->
  worker.db_fault env worker.OpLoadDocument = None ->
  worker.services_fault env = None ->
  fst (worker.extract_chunks env document w) = inr chunks_data ->
  chunks_data <> [] ->
  exists w',
    worker.process_job env job_id w
    = (inl (RuntimeError (worker.count_mismatch_message (length chunks_data) 0)), w')
    /\ worker.chunks (worker.committed w') = worker.chunks (worker.committed w).
Proof.
  intros Hneg Hservice Hclean Hj Hpending Hdoc Hupdate Hcommit Hload Hloaddoc
    Hservices Hextract Hne.
  pose proof (process_job_embedding_failure env job_id w j document chunks_data
                Hclean Hj Hpending Hdoc Hupdate Hcommit Hload Hloaddoc Hservices
                Hextract Hne) as Hfail.
  rewrite Hservice in Hfail.
  rewrite generate_embeddings_nonpositive in Hfail;
    [| lia | destruct chunks_data; [contradiction | discriminate]].
  destruct (Z.eqb_spec (embeddings.batch_limit svc) 0) as [H0|_]; [lia|].
  simpl in Hfail. apply Hfail.
  destruct chunks_data; [contradiction | discriminate].
Qed.

Lemma negative_batch_limit_fails_job_witness :
  exists w',
    worker.process_job
      (demo_env no_faults
         (fun texts => fst (embeddings.generate_embeddings (misconfigured_service (-1))
                              texts 0)))
      "job-1" (worker.open_session demo_db)
    = (inl (RuntimeError "Embedding count mismatch! Chunks: 1, Embeddings: 0. This implies a partial failure in embedding service."),
       w')
    /\ worker.chunks (worker.committed w') = [].
Proof.
  apply (negative_batch_limit_fails_job (misconfigured_service (-1)) 0
           (demo_env no_faults
              (fun texts => fst (embeddings.generate_embeddings
                                   (misconfigured_service (-1)) texts 0)))
           "job-1" (worker.open_session demo_db)
           (demo_job "job-1" "doc-1" models.pending)
           (demo_document "doc-1" models.text "notes.txt" "gs://bucket/notes.txt")
           (chunking.chunk_document demo.tools
              [demo.page 1 "Alpha beta.Gamma delta."]
              chunking.default_max_tokens chunking.default_overlap_tokens));
    try reflexivity.
  vm_compute. discriminate.
Defined.

(** ** The worker: what a run may change *)

(** The three status writes: they change the status, the error message
    and [updated_at], to a status that is not [pending]. *)
Definition status_stamp (f : models.Job.t -> models.Job.t) : Prop :=
  forall j,
    models.Job.job_id (f j) = models.Job.job_id j
    /\ models.Job.document_id (f j) = models.Job.document_id j
    /\ models.Job.status (f j) <> models.pending.

Lemma mark_processing_stamp now : status_stamp (worker.mark_processing now).
Proof. intros j. repeat split. discriminate. Qed.
Lemma mark_completed_stamp now : status_stamp (worker.mark_completed now).
Proof. intros j. repeat split. discriminate. Qed.
Lemma mark_failed_stamp now message : status_stamp (worker.mark_failed now message).
Proof. intros j. repeat split. discriminate. Qed.

Lemma insert_as_alter {A} (f : A -> A) (m : gmap uuid A) (key : uuid) (a : A) :
  m !! key = Some a -> <[key := f a]> m = alter f key m.
Proof.
  intros Hkey. apply map_eq. intros other.
  destruct (decide (other = key)) as [->|Hne].
  - rewrite lookup_insert_eq, lookup_alter_eq, Hkey. reflexivity.
  - rewrite lookup_insert_ne, lookup_alter_ne by congruence. reflexivity.
Qed.

Section WorkerInvariant.
Variable env : worker.Env.
Variable job_id : uuid.
(** A property of the database, and the closure conditions that make it
    an invariant of a run on [job_id]: it survives a status write to the
    job's row, and the two chunk writes made for a job row read under
    [job_id]. *)
Variable I : worker.DB -> Prop.

Hypothesis I_status : forall db f,
  status_stamp f -> I db ->
  I (worker.set_jobs db (alter f job_id (worker.jobs db))).
Hypothesis I_status_loaded : forall db0 db job f,
  status_stamp f -> I db0 -> worker.jobs db0 !! job_id = Some job -> I db ->
  I (worker.set_jobs db (alter f (models.Job.job_id job) (worker.jobs db))).
Hypothesis I_chunk_new : forall db0 db job chunk_id chunk_meta emb,
  I db0 -> worker.jobs db0 !! job_id = Some job -> I db ->
  I (worker.set_chunks db
       (worker.chunks db ++ [worker.new_chunk env job chunk_id chunk_meta emb])).
Hypothesis I_chunk_overwrite : forall db0 db job chunk_meta emb,
  I db0 -> worker.jobs db0 !! job_id = Some job -> I db ->
  I (worker.set_chunks db
       (map (fun c =>
               if worker.same_key (models.Job.document_id job)
                    (chunking.chunk_index chunk_meta) c
               then worker.overwrite chunk_meta emb c else c)
            (worker.chunks db))).

Definition holds (w : worker.World) : Prop :=
  I (worker.committed w) /\ I (worker.session w).

Definition preserves {A : Type} (c : worker.M A) : Prop :=
  forall w r w', holds w -> c w = (r, w') -> holds w'.

Lemma preserves_ret {A} (a : A) : preserves (worker.ret a).
Proof. intros w r w' Hw Hrun. inversion Hrun; subst. exact Hw. Qed.
Lemma preserves_raise {A} (e : exn) : preserves (@worker.raise A e).
Proof. intros w r w' Hw Hrun. inversion Hrun; subst. exact Hw. Qed.
Lemma preserves_lift {A} (x : exn + A) : preserves (worker.lift x).
Proof. intros w r w' Hw Hrun. inversion Hrun; subst. exact Hw. Qed.
Lemma preserves_logger ev : preserves (worker.logger ev).
Proof. intros w r w' Hw Hrun. inversion Hrun; subst. exact Hw. Qed.
Lemma preserves_fresh_uuid : preserves (worker.fresh_uuid env).
Proof. intros w r w' Hw Hrun. inversion Hrun; subst. exact Hw. Qed.
Lemma preserves_get_session : preserves worker.get_session.
Proof. intros w r w' Hw Hrun. inversion Hrun; subst. exact Hw. Qed.
Lemma preserves_rollback : preserves worker.rollback.
Proof.
  intros w r w' [Hc _] Hrun. inversion Hrun; subst. split; exact Hc.
Qed.
Lemma preserves_db_guard op : preserves (worker.db_guard env op).
Proof.
  unfold worker.db_guard. destruct (worker.db_fault env op);
    [apply preserves_raise | apply preserves_ret].
Qed.
Lemma preserves_init_services : preserves (worker.init_services env).
Proof.
  unfold worker.init_services. destruct (worker.services_fault env);
    [apply preserves_raise | apply preserves_ret].
Qed.
Lemma preserves_put_session db : I db -> preserves (worker.put_session db).
Proof.
  intros Hdb w r w' [Hc _] Hrun. inversion Hrun; subst. split; assumption.
Qed.

Lemma preserves_bind {A B} (c : worker.M A) (f : A -> worker.M B) :
  preserves c -> (forall a, preserves (f a)) -> preserves (worker.bind c f).
Proof.
  intros Hc Hf w r w' Hw. unfold worker.bind.
  destruct (c w) as [[e|a] w1] eqn:Hrun.
  - intros Heq. inversion Heq; subst. exact (Hc _ _ _ Hw Hrun).
  - apply Hf. exact (Hc _ _ _ Hw Hrun).
Qed.

Lemma preserves_try_except {A} (c : worker.M A) (handler : exn -> worker.M A) :
  preserves c -> (forall e, preserves (handler e)) ->
  preserves (worker.try_except c handler).
Proof.
  intros Hc Hh w r w' Hw. unfold worker.try_except.
  destruct (c w) as [[e|a] w1] eqn:Hrun.
  - apply Hh. exact (Hc _ _ _ Hw Hrun).
  - intros Heq. inversion Heq; subst. exact (Hc _ _ _ Hw Hrun).
Qed.

(** Reading the session gives a database on which the property holds. *)
Lemma preserves_read {B} (f : worker.DB -> worker.M B) :
  (forall db, I db -> preserves (f db)) ->
  preserves (worker.bind worker.get_session f).
Proof.
  intros Hf w r w' Hw. unfold worker.bind, worker.get_session.
  apply Hf; [exact (proj2 Hw) | exact Hw].
Qed.

Lemma preserves_commit op : preserves (worker.commit env op).
Proof.
  unfold worker.commit. apply preserves_bind; [apply preserves_db_guard|].
  intros _ w r w' [_ Hs] Hrun. inversion Hrun; subst. split; exact Hs.
Qed.

Lemma preserves_select_job op : preserves (worker.select_job env op job_id).
Proof.
  unfold worker.select_job. apply preserves_bind; [apply preserves_db_guard|].
  intros _. apply preserves_read. intros db _. apply preserves_ret.
Qed.

Ltac preserves_step :=
  first
    [ apply preserves_ret | apply preserves_raise | apply preserves_lift
    | apply preserves_logger | apply preserves_fresh_uuid
    | apply preserves_rollback | apply preserves_db_guard
    | apply preserves_init_services | apply preserves_commit
    | apply preserves_select_job
    | apply preserves_read; intros ? ?
    | apply preserves_bind; [| intros ? ] ].

Lemma preserves_execute_claim_update :
  preserves (worker.execute_claim_update env job_id).
Proof.
  unfold worker.execute_claim_update.
  apply preserves_bind; [apply preserves_db_guard | intros _].
  apply preserves_read. intros db Hdb.
  destruct (worker.jobs db !! job_id) as [j|] eqn:Hjob; [| apply preserves_ret].
  destruct (bool_decide (models.Job.status j = models.pending)); [| apply preserves_ret].
  apply preserves_bind; [| intros _; apply preserves_ret].
  apply preserves_put_session. rewrite (insert_as_alter _ _ _ _ Hjob).
  apply I_status; [apply mark_processing_stamp | exact Hdb].
Qed.

Lemma preserves_claim : preserves (worker.claim env job_id).
Proof.
  unfold worker.claim.
  apply preserves_bind; [apply preserves_execute_claim_update | intros rowcount].
  destruct (rowcount =? 0).
  - apply preserves_bind; [apply preserves_rollback | intros _].
    apply preserves_bind; [apply preserves_select_job | intros [j|]];
      repeat preserves_step.
  - repeat preserves_step.
Qed.

Lemma preserves_extract_chunks document :
  preserves (worker.extract_chunks env document).
Proof.
  intros w r w' Hw Hrun.
  destruct (extract_chunks_store env document w) as [Hc Hs].
  rewrite Hrun in Hc, Hs. simpl in Hc, Hs.
  destruct Hw as [Hwc Hws]. split; [rewrite Hc | rewrite Hs]; assumption.
Qed.

(** A job row read under [job_id] from a database on which the property
    holds. *)
Definition loaded (job : models.Job.t) : Prop :=
  exists db0, I db0 /\ worker.jobs db0 !! job_id = Some job.

Lemma preserves_upsert_chunk job embs i chunk_meta :
  loaded job -> preserves (worker.upsert_chunk env job embs i chunk_meta).
Proof.
  intros (db0 & Hdb0 & Hjob). unfold worker.upsert_chunk.
  apply preserves_bind; [apply preserves_db_guard | intros _].
  apply preserves_read. intros db Hdb.
  destruct (embs !! i) as [emb|]; [| apply preserves_raise].
  destruct (List.filter _ (worker.chunks db)) as [|row [|row' rows]].
  - apply preserves_bind; [apply preserves_fresh_uuid | intros chunk_id].
    apply preserves_put_session. exact (I_chunk_new db0 db job _ _ _ Hdb0 Hjob Hdb).
  - apply preserves_put_session. exact (I_chunk_overwrite db0 db job _ _ Hdb0 Hjob Hdb).
  - apply preserves_raise.
Qed.

Lemma preserves_store_chunks job embs i chunks_data :
  loaded job -> preserves (worker.store_chunks env job embs i chunks_data).
Proof.
  intros Hjob. revert i.
  induction chunks_data as [|chunk_meta rest IH]; intros i; simpl.
  - apply preserves_ret.
  - apply preserves_bind; [apply preserves_upsert_chunk; exact Hjob | intros _; apply IH].
Qed.

Lemma preserves_embed_and_store job chunks_data :
  loaded job -> preserves (worker.embed_and_store env job chunks_data).
Proof.
  intros Hjob. unfold worker.embed_and_store.
  destruct chunks_data as [|c0 rest]; [apply preserves_raise|].
  apply preserves_bind; [apply preserves_logger | intros _].
  apply preserves_bind; [apply preserves_lift | intros embs].
  destruct (negb _); [apply preserves_raise|].
  apply preserves_bind; [apply preserves_logger | intros _].
  apply preserves_bind; [apply preserves_store_chunks; exact Hjob | intros _].
  apply preserves_read. intros db Hdb.
  apply preserves_bind; [| intros _; repeat preserves_step].
  apply preserves_put_session. destruct Hjob as (db0 & Hdb0 & Hjob).
  exact (I_status_loaded db0 db job _ (mark_completed_stamp _) Hdb0 Hjob Hdb).
Qed.

Lemma preserves_pipeline : preserves (worker.pipeline env job_id).
Proof.
  unfold worker.pipeline, worker.select_job.
  apply preserves_bind; [apply preserves_logger | intros _].
  intros w r w' Hw. unfold worker.bind at 1 2.
  destruct (worker.db_guard env worker.OpLoadJob w) as [[e|[]] w0] eqn:Hguard.
  { intros Heq. inversion Heq; subst. exact (preserves_db_guard _ _ _ _ Hw Hguard). }
  pose proof (preserves_db_guard _ _ _ _ Hw Hguard) as Hw0.
  unfold worker.bind at 1. unfold worker.get_session at 1. unfold worker.ret at 1.
  destruct (worker.jobs (worker.session w0) !! job_id) as [job|] eqn:Hjob.
  - assert (Hloaded : loaded job) by (exists (worker.session w0); split; [apply Hw0 | exact Hjob]).
    revert Hw0. generalize w0 r w'.
    change (preserves
      (worker.bind (worker.db_guard env worker.OpLoadDocument) (fun _ =>
         worker.bind worker.get_session (fun db =>
           match worker.documents db !! models.Job.document_id job with
           | Some document =>
               worker.bind (worker.init_services env) (fun _ =>
                 worker.bind (worker.extract_chunks env document) (fun chunks_data =>
                   worker.embed_and_store env job chunks_data))
           | None =>
               worker.raise
                 (ValueError ("Document " +:+ models.Job.document_id job +:+ " not found"))
           end)))).
    apply preserves_bind; [apply preserves_db_guard | intros _].
    apply preserves_read. intros db Hdb.
    destruct (worker.documents db !! models.Job.document_id job) as [document|];
      [| apply preserves_raise].
    apply preserves_bind; [apply preserves_init_services | intros _].
    apply preserves_bind; [apply preserves_extract_chunks | intros chunks_data].
    apply preserves_embed_and_store. exact Hloaded.
  - intros Heq. inversion Heq; subst. exact Hw0.
Qed.

Lemma preserves_on_failure e : preserves (worker.on_failure env job_id e).
Proof.
  unfold worker.on_failure, worker.write_failed_status.
  apply preserves_bind; [apply preserves_logger | intros _].
  apply preserves_bind; [apply preserves_rollback | intros _].
  apply preserves_bind; [| intros _; apply preserves_raise].
  apply preserves_try_except; [| intros commit_error; apply preserves_logger].
  apply preserves_bind; [apply preserves_db_guard | intros _].
  apply preserves_read. intros db Hdb.
  apply preserves_bind; [| intros _; repeat preserves_step].
  apply preserves_put_session. apply I_status; [apply mark_failed_stamp | exact Hdb].
Qed.

(** The work after the claim keeps the property. *)
Lemma preserves_after_claim :
  preserves (worker.try_except (worker.pipeline env job_id)
               (worker.on_failure env job_id)).
Proof.
  apply preserves_try_except; [apply preserves_pipeline | apply preserves_on_failure].
Qed.

(** So does the whole run. *)
Lemma preserves_process_job : preserves (worker.process_job env job_id).
Proof.
  unfold worker.process_job, worker.claim_and_run.
  apply preserves_try_except; [| apply preserves_on_failure].
  apply preserves_bind; [apply preserves_claim | intros [|]];
    [apply preserves_pipeline | apply preserves_ret].
Qed.

End WorkerInvariant.

(** *** A run touches its own job row and its own document's chunks *)

Definition other_document (document_id : uuid) (c : models.Chunk.t) : bool :=
  negb (String.eqb (models.Chunk.document_id c) document_id).

Lemma filter_map_unselected {A : Type} (p : A -> bool) (g : A -> A) (l : list A) :
  (forall x, p (g x) = p x) -> (forall x, p x = true -> g x = x) ->
  List.filter p (map g l) = List.filter p l.
Proof.
  intros Hsame Hfix. rewrite (filter_map_same p g l Hsame).
  induction l as [|x l IH]; simpl; [reflexivity|].
  destruct (p x) eqn:Hp; simpl; [rewrite (Hfix x Hp), IH; reflexivity | exact IH].
Qed.

(** The rows a run on [job_id] must leave alone, relative to a database
    [before]: the documents, the other jobs, and the chunks of documents
    other than the job's. *)
Definition own_rows_only (job_id document_id : uuid) (before db : worker.DB) : Prop :=
  worker.documents db = worker.documents before
  /\ map_Forall (fun key j => models.Job.job_id j = key) (worker.jobs db)
  /\ (forall other, other <> job_id ->
        worker.jobs db !! other = worker.jobs before !! other)
  /\ (forall j, worker.jobs db !! job_id = Some j ->
        models.Job.document_id j = document_id)
  /\ List.filter (other_document document_id) (worker.chunks db)
     = List.filter (other_document document_id) (worker.chunks before).

Lemma own_rows_only_status job_id document_id before db f :
  status_stamp f -> own_rows_only job_id document_id before db ->
  own_rows_only job_id document_id before
    (worker.set_jobs db (alter f job_id (worker.jobs db))).
Proof.
  intros Hf (Hdocs & Hkeyed & Hothers & Hdoc & Hchunks).
  split; [exact Hdocs|]. split; [| split; [| split; [| exact Hchunks]]]; simpl.
  - intros key j. destruct (decide (key = job_id)) as [->|Hne].
    + rewrite lookup_alter_eq. destruct (worker.jobs db !! job_id) as [j0|] eqn:Hj0;
        simpl; [| discriminate].
      intros Heq. inversion Heq; subst. destruct (Hf j0) as (-> & _).
      exact (Hkeyed _ _ Hj0).
    + rewrite lookup_alter_ne by congruence. apply Hkeyed.
  - intros other Hne. rewrite lookup_alter_ne by congruence. apply Hothers. exact Hne.
  - intros j. rewrite lookup_alter_eq.
    destruct (worker.jobs db !! job_id) as [j0|] eqn:Hj0; simpl; [| discriminate].
    intros Heq. inversion Heq; subst. destruct (Hf j0) as (_ & -> & _).
    apply Hdoc. reflexivity.
Qed.

(** Every run of [process_job] keeps [own_rows_only]. *)
Lemma process_job_own_rows_only env job_id document_id before :
  preserves (own_rows_only job_id document_id before) (worker.process_job env job_id).
Proof.
  apply preserves_process_job.
  - intros db f. apply own_rows_only_status.
  - intros db0 db job f Hf Hdb0 Hjob Hdb.
    destruct Hdb0 as (_ & Hkeyed & _). rewrite (Hkeyed _ _ Hjob).
    apply own_rows_only_status; assumption.
  - intros db0 db job chunk_id chunk_meta emb Hdb0 Hjob
      (Hdocs & Hkeyed & Hothers & Hdoc & Hchunks).
    repeat split; try assumption. simpl.
    rewrite List.filter_app, Hchunks. simpl.
    destruct Hdb0 as (_ & _ & _ & Hdoc0 & _).
    unfold other_document at 2. simpl. rewrite (Hdoc0 _ Hjob), String.eqb_refl. simpl.
    apply app_nil_r.
  - intros db0 db job chunk_meta emb Hdb0 Hjob
      (Hdocs & Hkeyed & Hothers & Hdoc & Hchunks).
    repeat split; try assumption. simpl. rewrite <- Hchunks.
    destruct Hdb0 as (_ & _ & _ & Hdoc0 & _). rewrite (Hdoc0 _ Hjob).
    apply filter_map_unselected.
    + intros c. destruct (worker.same_key _ _ c); reflexivity.
    + intros c Hother. unfold worker.same_key.
      unfold other_document in Hother. apply negb_true_iff in Hother.
      rewrite Hother. reflexivity.
Qed.

(** X11. Whatever happens in a run of [process_job], in the durable
    database the documents table is as it was (the document's own status
    stays as it was), every other job's row is as it was, and so are the
    chunks of every document other than the job's. *)
Theorem process_job_touches_only_its_rows (env : worker.Env) (job_id document_id : uuid)
    (w : worker.World) :
  worker.session w = worker.committed w ->
  map_Forall (fun key j => models.Job.job_id j = key) (worker.jobs (worker.committed w)) ->
  (forall j, worker.jobs (worker.committed w) !! job_id = Some j ->
     models.Job.document_id j = document_id) ->
  let w' := snd (worker.process_job env job_id w) in
  worker.documents (worker.committed w') = worker.documents (worker.committed w)
  /\ (forall other, other <> job_id ->
        worker.jobs (worker.committed w') !! other
        = worker.jobs (worker.committed w) !! other)
  /\ List.filter (other_document document_id) (worker.chunks (worker.committed w'))
     = List.filter (other_document document_id) (worker.chunks (worker.committed w)).
Proof.
  intros Hclean Hkeyed Hdoc. cbv zeta.
  assert (Hstart : own_rows_only job_id document_id (worker.committed w)
                     (worker.committed w)).
  { repeat split; try assumption. }
  destruct (worker.process_job env job_id w) as [r w'] eqn:Hrun.
  destruct (process_job_own_rows_only env job_id document_id (worker.committed w)
              w r w') as [(Hdocs & _ & Hothers & _ & Hchunks) _].
  - split; [exact Hstart | rewrite Hclean; exact Hstart].
  - exact Hrun.
  - simpl. repeat split; assumption.
Qed.

Lemma process_job_touches_only_its_rows_witness :
  worker.documents
    (worker.committed
       (snd (worker.process_job (demo_env no_faults embed_ok) "job-1"
               (worker.open_session demo_db))))
  = worker.documents demo_db
  /\ worker.jobs
       (worker.committed
          (snd (worker.process_job (demo_env no_faults embed_ok) "job-1"
                  (worker.open_session demo_db)))) !! ("job-3" : uuid)
     = worker.jobs demo_db !! ("job-3" : uuid).
Proof.
  destruct (process_job_touches_only_its_rows (demo_env no_faults embed_ok)
              "job-1" "doc-1" (worker.open_session demo_db))
    as (Hdocs & Hothers & _).
  - reflexivity.
  - apply (bool_decide_unpack _). vm_compute. exact Logic.I.
  - intros j Hj. vm_compute in Hj. injection Hj as <-. reflexivity.
  - split; [exact Hdocs | apply Hothers; discriminate].
Defined.

(** *** Running a job again *)

(** The job has a row, and it is not [pending]. *)
Definition handled (job_id : uuid) (db : worker.DB) : Prop :=
  exists j, worker.jobs db !! job_id = Some j /\ models.Job.status j <> models.pending.

Lemma handled_alter job_id db f key :
  status_stamp f -> handled job_id db ->
  handled job_id (worker.set_jobs db (alter f key (worker.jobs db))).
Proof.
  intros Hf (j & Hj & Hstatus). unfold handled. simpl.
  destruct (decide (key = job_id)) as [->|Hne].
  - exists (f j). rewrite lookup_alter_eq, Hj. split; [reflexivity | apply Hf].
  - exists j. rewrite lookup_alter_ne by congruence. split; assumption.
Qed.

Lemma after_claim_handled env job_id :
  preserves (handled job_id)
    (worker.try_except (worker.pipeline env job_id) (worker.on_failure env job_id)).
Proof.
  apply preserves_after_claim.
  - intros db f. apply handled_alter.
  - intros db0 db job f Hf _ _. apply handled_alter. exact Hf.
  - intros db0 db job chunk_id chunk_meta emb _ _ Hdb. exact Hdb.
  - intros db0 db job chunk_meta emb _ _ Hdb. exact Hdb.
Qed.

(** A run on a job that is not [pending] returns normally and leaves the
    durable database alone. *)
Lemma process_job_not_pending env job_id w j :
  worker.session w = worker.committed w ->
  worker.db_fault env worker.OpClaimUpdate = None ->
  worker.db_fault env worker.OpClaimCheck = None ->
  worker.jobs (worker.committed w) !! job_id = Some j ->
  models.Job.status j <> models.pending ->
  worker.process_job env job_id w
  = (inr tt, skipped_world job_id (models.Job.status j) w).
Proof.
  intros Hclean Hupdate Hcheck Hj Hstatus.
  unfold worker.process_job, worker.try_except, worker.claim_and_run, worker.bind.
  rewrite (claim_not_pending env job_id w j Hclean Hupdate Hcheck Hj Hstatus).
  reflexivity.
Qed.

(** After any run on a job that has a row, the row is not [pending]. *)
Lemma process_job_leaves_handled env job_id w :
  worker.session w = worker.committed w ->
  is_Some (worker.jobs (worker.committed w) !! job_id) ->
  worker.db_fault env worker.OpClaimUpdate = None ->
  worker.db_fault env worker.OpClaimCheck = None ->
  worker.db_fault env worker.OpClaimCommit = None ->
  handled job_id (worker.committed (snd (worker.process_job env job_id w))).
Proof.
  intros Hclean [j Hj] Hupdate Hcheck Hcommit.
  destruct (decide (models.Job.status j = models.pending)) as [Hpending|Hnot].
  - assert (Hs : worker.jobs (worker.session w) !! job_id = Some j)
      by (rewrite Hclean; exact Hj).
    pose proof (claim_pending env job_id w j Hupdate Hcommit Hs Hpending) as Hclaim.
    rewrite (process_job_claimed env job_id w _ Hclaim).
    destruct (worker.try_except _ _ (claimed_world env job_id j w)) as [r w'] eqn:Hrun.
    simpl.
    refine (proj1 (after_claim_handled env job_id _ r w' _ Hrun)).
    assert (Hclaimed : handled job_id (worker.committed (claimed_world env job_id j w))).
    { exists (worker.mark_processing (worker.utcnow env) j). simpl.
      rewrite lookup_insert_eq. split; [reflexivity | discriminate]. }
    split; exact Hclaimed.
  - rewrite (process_job_not_pending env job_id w j Hclean Hupdate Hcheck Hj Hnot).
    exists j. split; assumption.
Qed.

(** X12. Running a job twice: whatever the first run did (completed,
    failed, or found the job in other hands), a second run on the same job
    returns normally and changes nothing in the durable database.  The
    job must have a row, and the claim statements must reach the database
    in both runs. *)
Theorem process_job_second_run_is_noop (env env' : worker.Env) (job_id : uuid)
    (w : worker.World) :
  worker.session w = worker.committed w ->
  is_Some (worker.jobs (worker.committed w) !! job_id) ->
  worker.db_fault env worker.OpClaimUpdate = None ->
  worker.db_fault env worker.OpClaimCheck = None ->
  worker.db_fault env worker.OpClaimCommit = None ->
  worker.db_fault env' worker.OpClaimUpdate = None ->
  worker.db_fault env' worker.OpClaimCheck = None ->
  let after_first := worker.committed (snd (worker.process_job env job_id w)) in
  let second := worker.process_job env' job_id (worker.open_session after_first) in
  fst second = inr tt /\ worker.committed (snd second) = after_first.
Proof.
  intros Hclean Hrow Hupdate Hcheck Hcommit Hupdate' Hcheck'. cbv zeta.
  destruct (process_job_leaves_handled env job_id w Hclean Hrow Hupdate Hcheck Hcommit)
    as (j & Hj & Hstatus).
  rewrite (process_job_not_pending env' job_id (worker.open_session _) j
             eq_refl Hupdate' Hcheck' Hj Hstatus).
  split; reflexivity.
Qed.

Lemma process_job_second_run_is_noop_witness :
  fst (worker.process_job (demo_env no_faults embed_ok) "job-1"
         (worker.open_session
            (worker.committed
               (snd (worker.process_job (demo_env no_faults embed_down) "job-1"
                       (worker.open_session demo_db))))))
  = inr tt.
Proof.
  apply (process_job_second_run_is_noop (demo_env no_faults embed_down)
           (demo_env no_faults embed_ok) "job-1" (worker.open_session demo_db));
    try reflexivity.
  vm_compute. eexists. reflexivity.
Defined.

(** *** The run that completes *)

(** An upsert leaves the rows under every other key as they were. *)
Lemma upsert_chunk_other_key env job embs i chunk_meta w w' document_id chunk_index :
  worker.upsert_chunk env job embs i chunk_meta w = (inr tt, w') ->
  document_id <> models.Job.document_id job
  \/ chunk_index <> chunking.chunk_index chunk_meta ->
  List.filter (worker.same_key document_id chunk_index) (worker.chunks (worker.session w'))
  = List.filter (worker.same_key document_id chunk_index) (worker.chunks (worker.session w)).
Proof.
  intros Hrun Hother. unfold worker.upsert_chunk in Hrun.
  unfold worker.bind at 1 in Hrun. unfold worker.db_guard in Hrun.
  destruct (worker.db_fault env (worker.OpSelectChunk i)); [discriminate|].
  unfold worker.ret at 1 in Hrun. unfold worker.bind at 1, worker.get_session in Hrun.
  destruct (embs !! i) as [emb|]; [| discriminate].
  assert (Hmiss : forall c,
            worker.same_key (models.Job.document_id job)
              (chunking.chunk_index chunk_meta) c = true ->
            worker.same_key document_id chunk_index c = false).
  { intros c Hkey. destruct (worker.same_key document_id chunk_index c) eqn:Hkey';
      [| reflexivity].
    destruct (same_key_exclusive _ _ _ _ _ Hkey Hkey') as [Hd Hi].
    destruct Hother as [Hne|Hne]; exfalso; apply Hne; congruence. }
  destruct (List.filter _ (worker.chunks (worker.session w))) as [|row [|row' rows]];
    [| | discriminate].
  - unfold worker.bind, worker.fresh_uuid, worker.put_session in Hrun.
    inversion Hrun; subst; clear Hrun. simpl.
    rewrite List.filter_app. simpl.
    rewrite Hmiss; [apply app_nil_r|].
    unfold worker.same_key. simpl. rewrite String.eqb_refl, Z.eqb_refl. reflexivity.
  - unfold worker.put_session in Hrun. inversion Hrun; subst; clear Hrun. simpl.
    apply filter_map_unselected.
    + intros c. apply same_key_overwrite.
    + intros c Hkey'.
      destruct (worker.same_key (models.Job.document_id job)
                  (chunking.chunk_index chunk_meta) c) eqn:Hkey; [| reflexivity].
      rewrite (Hmiss c Hkey) in Hkey'. discriminate.
Qed.

(** With its embedding at hand and no database fault, an upsert into a
    table with one row per key goes through, on the session only. *)
Lemma upsert_chunk_succeeds env job embs i chunk_meta w emb :
  worker.db_fault env (worker.OpSelectChunk i) = None ->
  embs !! i = Some emb ->
  one_row_per_key (worker.chunks (worker.session w)) ->
  exists w',
    worker.upsert_chunk env job embs i chunk_meta w = (inr tt, w')
    /\ worker.committed w' = worker.committed w
    /\ worker.jobs (worker.session w') = worker.jobs (worker.session w)
    /\ worker.documents (worker.session w') = worker.documents (worker.session w).
Proof.
  intros Hfault Hemb Hone. unfold worker.upsert_chunk.
  unfold worker.bind at 1. unfold worker.db_guard. rewrite Hfault.
  unfold worker.ret at 1. unfold worker.bind at 1, worker.get_session. rewrite Hemb.
  specialize (Hone (models.Job.document_id job) (chunking.chunk_index chunk_meta)).
  destruct (List.filter _ (worker.chunks (worker.session w))) as [|row [|row' rows]].
  - eexists. split; [reflexivity|]. repeat split.
  - eexists. split; [reflexivity|]. repeat split.
  - simpl in Hone. lia.
Qed.

Lemma store_chunks_succeeds env job embs chunks_data i w :
  (forall n, worker.db_fault env (worker.OpSelectChunk n) = None) ->
  (i + length chunks_data <= length embs)%nat ->
  one_row_per_key (worker.chunks (worker.session w)) ->
  exists w',
    worker.store_chunks env job embs i chunks_data w = (inr tt, w')
    /\ worker.committed w' = worker.committed w
    /\ worker.jobs (worker.session w') = worker.jobs (worker.session w)
    /\ worker.documents (worker.session w') = worker.documents (worker.session w).
Proof.
  intros Hfault. revert i w.
  induction chunks_data as [|chunk_meta rest IH]; intros i w Hlen Hone; simpl.
  - exists w. repeat split.
  - simpl in Hlen.
    destruct (lookup_lt_is_Some_2 embs i ltac:(lia)) as [emb Hemb].
    destruct (upsert_chunk_succeeds env job embs i chunk_meta w emb (Hfault i) Hemb Hone)
      as (w1 & Hrun & Hc & Hj & Hd).
    destruct (upsert_chunk_one_row_per_key env job embs i chunk_meta w w1 Hone Hrun)
      as [Hone1 _].
    destruct (IH (S i) w1 ltac:(lia) Hone1) as (w' & Hrest & Hc' & Hj' & Hd').
    exists w'. unfold worker.bind. rewrite Hrun, Hrest.
    repeat split; congruence.
Qed.

Lemma store_chunks_other_key env job embs chunks_data i w w' chunk_index :
  worker.store_chunks env job embs i chunks_data w = (inr tt, w') ->
  ~ In chunk_index (map chunking.chunk_index chunks_data) ->
  List.filter (worker.same_key (models.Job.document_id job) chunk_index)
              (worker.chunks (worker.session w'))
  = List.filter (worker.same_key (models.Job.document_id job) chunk_index)
                (worker.chunks (worker.session w)).
Proof.
  revert i w. induction chunks_data as [|chunk_meta rest IH]; intros i w; simpl.
  - intros Hrun _. inversion Hrun; subst. reflexivity.
  - unfold worker.bind.
    destruct (worker.upsert_chunk env job embs i chunk_meta w) as [[e|[]] w1] eqn:Hfirst;
      [discriminate|].
    intros Hrest Hnotin.
    rewrite (IH (S i) w1 Hrest) by tauto.
    apply (upsert_chunk_other_key env job embs i chunk_meta w w1 _ _ Hfirst).
    right. intros Heq. apply Hnotin. left. symmetry. exact Heq.
Qed.

(** What the store holds for a chunk once the loop is through. *)
Definition stored_as (document_id : uuid) (chunk_meta : chunking.ChunkMetadata)
    (emb : embeddings.vector) (rows : list models.Chunk.t) : Prop :=
  exists row,
    List.filter (worker.same_key document_id (chunking.chunk_index chunk_meta)) rows = [row]
    /\ models.Chunk.text row = chunking.text chunk_meta
    /\ models.Chunk.embedding row = Some emb
    /\ models.Chunk.start_offset row = chunking.start_time chunk_meta
    /\ models.Chunk.end_offset row = chunking.end_time chunk_meta
    /\ models.Chunk.page_number row = chunking.page_number chunk_meta.

Lemma store_chunks_rows env job embs chunks_data i w w' :
  one_row_per_key (worker.chunks (worker.session w)) ->
  List.NoDup (map chunking.chunk_index chunks_data) ->
  worker.store_chunks env job embs i chunks_data w = (inr tt, w') ->
  forall p chunk_meta,
    chunks_data !! p = Some chunk_meta ->
    exists emb,
      embs !! (i + p)%nat = Some emb
      /\ stored_as (models.Job.document_id job) chunk_meta emb
           (worker.chunks (worker.session w')).
Proof.
  revert i w. induction chunks_data as [|chunk_meta0 rest IH]; intros i w Hone Hnodup;
    simpl.
  - intros _ p chunk_meta Hp. discriminate.
  - unfold worker.bind.
    destruct (worker.upsert_chunk env job embs i chunk_meta0 w) as [[e|[]] w1] eqn:Hfirst;
      [discriminate|].
    intros Hrest p chunk_meta Hp.
    simpl in Hnodup. apply List.NoDup_cons_iff in Hnodup as [Hnotin Hnodup].
    destruct (upsert_chunk_one_row_per_key env job embs i chunk_meta0 w w1 Hone Hfirst)
      as [Hone1 (row & emb & Hemb & Hrow & Hfields)].
    destruct p as [|p].
    + simpl in Hp. inversion Hp; subst chunk_meta0.
      exists emb. rewrite Nat.add_0_r. split; [exact Hemb|].
      exists row. split; [| exact Hfields].
      rewrite (store_chunks_other_key env job embs rest (S i) w1 w' _ Hrest Hnotin).
      exact Hrow.
    + simpl in Hp.
      destruct (IH (S i) w1 Hone1 Hnodup Hrest p chunk_meta Hp) as (emb' & Hemb' & Hstored).
      exists emb'. split; [| exact Hstored].
      rewrite <- Hemb'. f_equal. lia.
Qed.

(** The chunks of a dispatch that returns are numbered 0, 1, 2, ... *)
Lemma extract_chunks_indices env document w chunks_data :
  fst (worker.extract_chunks env document w) = inr chunks_data ->
  map chunking.chunk_index chunks_data = map Z.of_nat (seq 0 (length chunks_data)).
Proof.
  assert (Hdoc : forall tt pages a b,
            map chunking.chunk_index (chunking.chunk_document tt pages a b)
            = map Z.of_nat (seq 0 (length (chunking.chunk_document tt pages a b)))).
  { intros tt pages a b.
    rewrite chunk_document_indices, chunk_document_of_groups, length_map.
    apply pack_groups_indices. }
  assert (Htr : forall tt transcript words a b,
            map chunking.chunk_index (chunking.chunk_transcript tt transcript words a b)
            = map Z.of_nat
                (seq 0 (length (chunking.chunk_transcript tt transcript words a b)))).
  { intros tt transcript words a b.
    rewrite chunk_transcript_indices, chunk_transcript_of_groups, length_map.
    apply pack_groups_indices. }
  unfold worker.extract_chunks.
  destruct (models.Document.source_type document);
    unfold worker.bind, worker.logger, worker.lift, worker.ret, worker.raise; simpl;
    try (intros Heq; inversion Heq; subst; reflexivity).
  - destruct (worker.transcribe_audio env _) as [e|tr]; simpl; [discriminate|].
    intros Heq. inversion Heq; subst. apply Htr.
  - destruct (py.startswith _ _); simpl;
      [| intros Heq; inversion Heq; subst; reflexivity].
    destruct (worker.split_once_slash _) as [bucket [blob|]]; simpl; [| discriminate].
    destruct (worker.download_as_bytes env bucket blob) as [e|bytes]; simpl; [discriminate|].
    intros Heq. inversion Heq; subst. apply Hdoc.
  - destruct (py.startswith _ _); simpl;
      [| intros Heq; inversion Heq; subst; reflexivity].
    destruct (worker.split_once_slash _) as [bucket [blob|]]; simpl; [| discriminate].
    destruct (worker.download_as_bytes env bucket blob) as [e|bytes]; simpl; [discriminate|].
    intros Heq. inversion Heq; subst. apply Hdoc.
  - destruct (py.startswith _ _); simpl;
      [| intros Heq; inversion Heq; subst; reflexivity].
    destruct (worker.split_once_slash _) as [bucket [blob|]]; simpl; [| discriminate].
    destruct (worker.download_as_bytes env bucket blob) as [e|bytes]; simpl; [discriminate|].
    intros Heq. inversion Heq; subst. apply Hdoc.
Qed.

Lemma NoDup_count_up n : List.NoDup (map Z.of_nat (seq 0 n)).
Proof.
  apply Finite.Injective_map_NoDup; [intros a b; lia | apply List.seq_NoDup].
Qed.

Lemma embed_and_store_nonempty env job chunks_data :
  chunks_data <> [] ->
  worker.embed_and_store env job chunks_data
  = worker.bind (worker.logger (worker.InfoGenerated (length chunks_data))) (fun _ =>
      worker.bind (worker.lift (worker.generate_embeddings env
                                  (map chunking.text chunks_data))) (fun embeddings =>
        if negb (length embeddings =? length chunks_data)%nat then
          worker.raise (RuntimeError
            (worker.count_mismatch_message (length chunks_data) (length embeddings)))
        else
          worker.bind (worker.logger (worker.InfoStoring (length embeddings))) (fun _ =>
            worker.bind (worker.store_chunks env job embeddings 0 chunks_data) (fun _ =>
              worker.bind worker.get_session (fun db =>
                worker.bind
                  (worker.put_session (worker.set_jobs db
                     (alter (worker.mark_completed (worker.utcnow env))
                            (models.Job.job_id job) (worker.jobs db)))) (fun _ =>
                  worker.bind (worker.commit env worker.OpFinalCommit) (fun _ =>
                    worker.logger (worker.InfoJobCompleted (models.Job.job_id job))))))))).
Proof. intros Hne. destruct chunks_data; [contradiction | reflexivity]. Qed.

(** Steps 4 to 6 when nothing fails. *)
Lemma embed_and_store_succeeds env job chunks_data embs w :
  (forall op, worker.db_fault env op = None) ->
  chunks_data <> [] ->
  worker.generate_embeddings env (map chunking.text chunks_data) = inr embs ->
  length embs = length chunks_data ->
  List.NoDup (map chunking.chunk_index chunks_data) ->
  one_row_per_key (worker.chunks (worker.session w)) ->
  exists w',
    worker.embed_and_store env job chunks_data w = (inr tt, w')
    /\ worker.session w' = worker.committed w'
    /\ worker.jobs (worker.committed w')
       = alter (worker.mark_completed (worker.utcnow env)) (models.Job.job_id job)
               (worker.jobs (worker.session w))
    /\ worker.documents (worker.committed w') = worker.documents (worker.session w)
    /\ one_row_per_key (worker.chunks (worker.committed w'))
    /\ (forall p chunk_meta,
          chunks_data !! p = Some chunk_meta ->
          exists emb,
            embs !! p = Some emb
            /\ stored_as (models.Job.document_id job) chunk_meta emb
                 (worker.chunks (worker.committed w'))).
Proof.
  intros Hfault Hne Hembs Hlen Hnodup Hone.
  rewrite (embed_and_store_nonempty env job chunks_data Hne).
  erewrite bind_returns by reflexivity.
  erewrite bind_returns by (unfold worker.lift; rewrite Hembs; reflexivity).
  rewrite Hlen, Nat.eqb_refl. cbn [negb].
  erewrite bind_returns by reflexivity.
  match goal with
  | |- context [worker.bind (worker.store_chunks _ _ _ _ _) _ ?w1] =>
      destruct (store_chunks_succeeds env job embs chunks_data 0 w1
                  (fun n => Hfault _) ltac:(simpl; lia) Hone)
        as (w2 & Hstore & Hc2 & Hj2 & Hd2);
      pose proof (store_chunks_one_row_per_key env job embs 0 chunks_data w1 w2
                    Hone Hstore) as Hone2;
      pose proof (store_chunks_rows env job embs chunks_data 0 w1 w2 Hone Hnodup Hstore)
        as Hrows
  end.
  erewrite bind_returns by exact Hstore.
  erewrite bind_returns by reflexivity.
  erewrite bind_returns by reflexivity.
  erewrite bind_returns
    by (unfold worker.commit, worker.bind, worker.db_guard; rewrite Hfault; reflexivity).
  eexists. split; [reflexivity|]. simpl.
  split; [reflexivity|]. split; [rewrite Hj2; reflexivity|].
  split; [rewrite Hd2; reflexivity|]. split; [exact Hone2|].
  exact Hrows.
Qed.

(** X13. The run that completes.  A pending job whose document is on
    file, whose extraction yields at least one chunk and whose embedding
    call answers with one vector per chunk, with no database fault and at
    most one stored row per (document, chunk index): [process_job]
    returns normally, nothing is left pending in the session, the job row
    is [completed], and the store holds exactly one row for each chunk,
    under the document and the chunk's position, with the chunk's text,
    offsets and page and the embedding at the same position. *)
Theorem process_job_stores_every_chunk (env : worker.Env) (job_id : uuid)
    (w : worker.World) (j : models.Job.t) (document : models.Document.t)
    (chunks_data : list chunking.ChunkMetadata) (embs : list embeddings.vector) :
  worker.session w = worker.committed w ->
  worker.jobs (worker.committed w) !! job_id = Some j ->
  models.Job.job_id j = job_id ->
  models.Job.status j = models.pending ->
  worker.documents (worker.committed w) !! models.Job.document_id j = Some document ->
  (forall op, worker.db_fault env op = None) ->
  worker.services_fault env = None ->
  one_row_per_key (worker.chunks (worker.committed w)) ->
  fst (worker.extract_chunks env document w) = inr chunks_data ->
  chunks_data <> [] ->
  worker.generate_embeddings env (map chunking.text chunks_data) = inr embs ->
  length embs = length chunks_data ->
  exists w',
    worker.process_job env job_id w = (inr tt, w')
    /\ worker.session w' = worker.committed w'
    /\ worker.jobs (worker.committed w')
       = <[job_id := worker.mark_completed (worker.utcnow env)
                       (worker.mark_processing (worker.utcnow env) j)]>
           (worker.jobs (worker.committed w))
    /\ one_row_per_key (worker.chunks (worker.committed w'))
    /\ (forall p chunk_meta,
          chunks_data !! p = Some chunk_meta ->
          chunking.chunk_index chunk_meta = Z.of_nat p
          /\ exists emb,
               embs !! p = Some emb
               /\ stored_as (models.Job.document_id j) chunk_meta emb
                    (worker.chunks (worker.committed w'))).
Proof.
  intros Hclean Hj Hid Hpending Hdoc Hfault Hservices Hone Hextract Hne Hembs Hlen.
  assert (Hs : worker.jobs (worker.session w) !! job_id = Some j)
    by (rewrite Hclean; exact Hj).
  assert (Hds : worker.documents (worker.session w) !! models.Job.document_id j
                = Some document) by (rewrite Hclean; exact Hdoc).
  pose proof (claim_pending env job_id w j (Hfault _) (Hfault _) Hs Hpending) as Hclaim.
  rewrite (process_job_claimed env job_id w _ Hclaim).
  unfold worker.try_except.
  rewrite (pipeline_after_claim env job_id j w document (Hfault _) (Hfault _)
             Hservices Hds).
  set (w1 := {| worker.committed := _; worker.session := _;
                worker.log := worker.log w ++ [worker.InfoClaimed job_id];
                worker.uuids_drawn := worker.uuids_drawn w |}).
  rewrite (bind_returns _ _ w1 chunks_data _
             (extract_chunks_returns env document w w1 chunks_data Hextract)).
  destruct (extract_chunks_store env document w1) as [Hc2 Hs2].
  set (w2 := snd (worker.extract_chunks env document w1)) in *.
  pose proof (extract_chunks_indices env document w chunks_data Hextract) as Hidx.
  assert (Hnodup : List.NoDup (map chunking.chunk_index chunks_data))
    by (rewrite Hidx; apply NoDup_count_up).
  assert (Hone2 : one_row_per_key (worker.chunks (worker.session w2))).
  { rewrite Hs2. simpl. rewrite Hclean. exact Hone. }
  destruct (embed_and_store_succeeds env
              (worker.mark_processing (worker.utcnow env) j) chunks_data embs w2
              Hfault Hne Hembs Hlen Hnodup Hone2)
    as (w' & Hrun & Hsess & Hjobs & _ & Hone' & Hrows).
  exists w'. rewrite Hrun. split; [reflexivity|]. split; [exact Hsess|].
  split; [| split; [exact Hone'|]].
  - rewrite Hjobs, Hs2. simpl. rewrite Hid, Hclean.
    apply map_eq. intros key. destruct (decide (key = job_id)) as [->|Hkey].
    + rewrite lookup_alter_eq, !lookup_insert_eq. reflexivity.
    + rewrite lookup_alter_ne, !lookup_insert_ne by congruence. reflexivity.
  - intros p chunk_meta Hp. split.
    + assert (Hp' : map chunking.chunk_index chunks_data !! p
                    = Some (chunking.chunk_index chunk_meta)).
      { rewrite list_lookup_fmap, Hp. reflexivity. }
      rewrite Hidx in Hp'. rewrite list_lookup_fmap in Hp'.
      destruct (seq 0 (length chunks_data) !! p) as [n|] eqn:Hn; [| discriminate].
      apply lookup_seq in Hn as [-> _]. simpl in Hp'. congruence.
    + exact (Hrows p chunk_meta Hp).
Qed.

Lemma process_job_stores_every_chunk_witness :
  exists w',
    worker.process_job (demo_env no_faults embed_ok) "job-1" (worker.open_session demo_db)
    = (inr tt, w')
    /\ (models.Job.status <$> worker.jobs (worker.committed w') !! ("job-1" : uuid))
       = Some models.completed.
Proof.
  pose (chunks_data :=
          chunking.chunk_document demo.tools
            [demo.page 1 "Alpha beta.Gamma delta."]
            chunking.default_max_tokens chunking.default_overlap_tokens).
  destruct (process_job_stores_every_chunk (demo_env no_faults embed_ok) "job-1"
              (worker.open_session demo_db) (demo_job "job-1" "doc-1" models.pending)
              (demo_document "doc-1" models.text "notes.txt" "gs://bucket/notes.txt")
              chunks_data
              (map (fun _ => [1 # 2; 1 # 3]%Q) (map chunking.text chunks_data)))
    as (w' & Hrun & _ & Hjobs & _).
  - reflexivity.
  - reflexivity.
  - reflexivity.
  - reflexivity.
  - reflexivity.
  - intros op. reflexivity.
  - reflexivity.
  - intros document_id chunk_index. simpl. lia.
  - vm_compute. reflexivity.
  - vm_compute. discriminate.
  - reflexivity.
  - rewrite !length_map. reflexivity.
  - exists w'. split; [exact Hrun|]. rewrite Hjobs, lookup_insert_eq. reflexivity.
Defined.

(* ===================================================================== *)
(** * Part IV. Upload, storage and the worker's entry points               *)
(* ===================================================================== *)

(** ** [os.path.splitext] (POSIX flavour) *)

Module ospath.

(** The last path component: [p[p.rfind("/") + 1:]]. *)
Fixpoint after_last_slash (p : string) : string :=
  match p with
  | EmptyString => EmptyString
  | String c p' =>
      if py.contains "/" p' then after_last_slash p'
      else if Ascii.eqb c "/"%char then p' else String c p'
  end.

(** Leading dots of the component do not start an extension. *)
Fixpoint strip_leading_dots (s : string) : string :=
  match s with
  | EmptyString => EmptyString
  | String c s' => if Ascii.eqb c "."%char then strip_leading_dots s' else s
  end.

(** [os.path.splitext(p)[1]]: the extension is empty, or starts at the
    last dot of the last component, leading dots apart. *)
Definition splitext_ext (p : string) : string :=
  let name := strip_leading_dots (after_last_slash p) in
  if py.contains "." name then "." +:+ worker.after_last_dot name else "".

End ospath.

(** ** app/storage.py *)

Module storage.

(** [object_path = f"{user_segment}/{document_segment}/{filename}"] *)
Definition object_path (filename user_id document_id : string) : string :=
  user_id +:+ "/" +:+ document_id +:+ "/" +:+ filename.

(** The value [upload_raw_artifact] returns, in both backends:
    [f"gs://{self.bucket_name}/{object_path}"]. *)
Definition artifact_uri (bucket_name filename user_id document_id : string) : string :=
  "gs://" +:+ bucket_name +:+ "/" +:+ object_path filename user_id document_id.

(** [InMemoryStorageMock]: [_store] keyed by URI. *)
Record InMemoryStorageMock := {
  bucket_name : string;
  _store : gmap string string
}.

Definition upload_raw_artifact (self : InMemoryStorageMock)
    (file_bytes filename user_id document_id : string)
    : string * InMemoryStorageMock :=
  let uri := artifact_uri (bucket_name self) filename user_id document_id in
  (uri, {| bucket_name := bucket_name self;
           _store := <[uri := file_bytes]> (<[uri := file_bytes]> (_store self)) |}).

Definition get_object (self : InMemoryStorageMock) (uri : string) : option string :=
  _store self !! uri.

End storage.

(** ** app/api/ingest.py *)

Module ingest.
Import models.

Definition ALLOWED_EXTENSIONS : list string :=
  [".mp3"; ".wav"; ".m4a"; ".pdf"; ".md"; ".txt"].

Definition DEMO_USER_ID : uuid := "00000000-0000-0000-0000-000000000000".

(** [HTTPException(status_code, detail)] *)
Record HTTPException := {
  status_code : Z;
  detail : string
}.

(** [validate_file_extension].  [lower] is [str.lower]; [allowed_repr] is
    the rendering of the set in the f-string, whose order Python does not
    fix. *)
Definition validate_file_extension (lower : string -> string) (allowed_repr : string)
    (filename : string) : HTTPException + string :=
  let ext := ospath.splitext_ext filename in
  if negb (existsb (String.eqb (lower ext)) ALLOWED_EXTENSIONS) then
    inl {| status_code := 400;
           detail := "Unsupported file type. Allowed: " +:+ allowed_repr |}
  else inr (lower ext).

Definition determine_source_type (ext : string) : DocumentSourceType :=
  if existsb (String.eqb ext) [".mp3"; ".m4a"; ".wav"] then audio
  else if String.eqb ext ".pdf" then pdf
  else if String.eqb ext ".md" then markdown
  else if String.eqb ext ".txt" then text
  else text.

(** The [Document(...)] row that [upload_document] adds. *)
Definition uploaded_document (document_id : uuid) (now : datetime)
    (source_type : DocumentSourceType) (filename source_uri : string) : Document.t :=
  {| Document.document_id := document_id;
     Document.user_id := DEMO_USER_ID;
     Document.source_type := source_type;
     Document.title := filename;
     Document.source_uri := source_uri;
     Document.ingested_at := now;
     Document.content_created_at := None;
     Document.status := pending |}.

End ingest.

(** ** From upload to the worker *)

Lemma substring_all (s : string) : String.substring 0 (String.length s) s = s.
Proof. induction s as [|c s IH]; simpl; [reflexivity | rewrite IH; reflexivity]. Qed.

Lemma drop5_gs (rest : string) : worker.drop5 ("gs://" +:+ rest) = rest.
Proof.
  unfold worker.drop5.
  change ("gs://" +:+ rest)
    with (String "g" (String "s" (String ":" (String "/" (String "/" rest))))).
  cbn [String.length Nat.sub String.substring]. rewrite Nat.sub_0_r. apply substring_all.
Qed.

Lemma startswith_gs (rest : string) : py.startswith ("gs://" +:+ rest) "gs://" = true.
Proof. unfold py.startswith. destruct rest; reflexivity. Qed.

Lemma contains_cons_false needle c hay :
  py.contains needle (String c hay) = false -> py.contains needle hay = false.
Proof. simpl. intros H. apply orb_false_iff in H as [_ H]. exact H. Qed.

Lemma contains_head (c : ascii) (s : string) :
  py.contains (String c "") (String c s) = true.
Proof.
  cbn [py.contains String.prefix].
  destruct (ascii_dec c c) as [_|Hne]; [| contradiction].
  destruct s; reflexivity.
Qed.

Lemma split_once_slash_first (bucket rest : string) :
  py.contains "/" bucket = false ->
  worker.split_once_slash (bucket +:+ "/" +:+ rest) = (bucket, Some rest).
Proof.
  induction bucket as [|c bucket IH]; intros Hno.
  - reflexivity.
  - pose proof (contains_cons_false _ _ _ Hno) as Hno'.
    change (String c bucket +:+ "/" +:+ rest)
      with (String c (bucket +:+ "/" +:+ rest)).
    cbn [worker.split_once_slash].
    destruct (Ascii.eqb_spec c "/"%char) as [->|Hne].
    + rewrite (contains_head "/" bucket) in Hno. discriminate Hno.
    + rewrite (IH Hno'). reflexivity.
Qed.

Lemma contains_app_r needle before hay :
  py.contains needle hay = true -> py.contains needle (before +:+ hay) = true.
Proof.
  intros Hin. induction before as [|c before IH]; [exact Hin|].
  change (String c before +:+ hay) with (String c (before +:+ hay)).
  cbn [py.contains]. rewrite IH. apply orb_true_r.
Qed.

Lemma after_last_dot_app before name :
  py.contains "." name = true ->
  worker.after_last_dot (before +:+ name) = worker.after_last_dot name.
Proof.
  intros Hin. induction before as [|c before IH]; [reflexivity|].
  change (String c before +:+ name) with (String c (before +:+ name)).
  cbn [worker.after_last_dot]. rewrite (contains_app_r _ _ _ Hin). exact IH.
Qed.

Lemma after_last_slash_suffix p : exists before, p = before +:+ ospath.after_last_slash p.
Proof.
  induction p as [|c p [before IH]]; [exists ""; reflexivity|].
  cbn [ospath.after_last_slash].
  destruct (py.contains "/" p).
  - exists (String c before).
    change (String c p = String c (before +:+ ospath.after_last_slash p)).
    f_equal. exact IH.
  - destruct (Ascii.eqb c "/"%char).
    + exists (String c ""). reflexivity.
    + exists "". reflexivity.
Qed.

Lemma strip_leading_dots_suffix s : exists dots, s = dots +:+ ospath.strip_leading_dots s.
Proof.
  induction s as [|c s [dots IH]]; [exists ""; reflexivity|].
  cbn [ospath.strip_leading_dots]. destruct (Ascii.eqb c "."%char).
  - exists (String c dots).
    change (String c s = String c (dots +:+ ospath.strip_leading_dots s)).
    f_equal. exact IH.
  - exists "". reflexivity.
Qed.

Lemma string_app_assoc (a b c : string) : (a +:+ b) +:+ c = a +:+ (b +:+ c).
Proof.
  induction a as [|x a IH]; [reflexivity|].
  change (String x ((a +:+ b) +:+ c) = String x (a +:+ (b +:+ c))).
  f_equal. exact IH.
Qed.

(** An extension, when there is one, is the dot and what the worker takes
    for the file type: the text after the last dot of the whole name. *)
Lemma splitext_ext_cases p :
  ospath.splitext_ext p = ""
  \/ (py.contains "." p = true
      /\ ospath.splitext_ext p = "." +:+ worker.after_last_dot p).
Proof.
  unfold ospath.splitext_ext.
  destruct (after_last_slash_suffix p) as [before Hp].
  destruct (strip_leading_dots_suffix (ospath.after_last_slash p)) as [dots Hname].
  destruct (py.contains "." (ospath.strip_leading_dots (ospath.after_last_slash p)))
    eqn:Hdot; [right | left; reflexivity].
  assert (Hwhole : p = (before +:+ dots)
                        +:+ ospath.strip_leading_dots (ospath.after_last_slash p)).
  { rewrite string_app_assoc, <- Hname. exact Hp. }
  split.
  - rewrite Hwhole. apply contains_app_r. exact Hdot.
  - rewrite Hwhole at 2. rewrite (after_last_dot_app _ _ Hdot). reflexivity.
Qed.

(** What [str.lower] does to the empty string and to a leading dot. *)
Definition lower_keeps_dot (lower : string -> string) : Prop :=
  lower "" = "" /\ forall s, lower ("." +:+ s) = "." +:+ lower s.

Lemma validate_file_extension_accepts lower allowed_repr filename ext :
  lower_keeps_dot lower ->
  ingest.validate_file_extension lower allowed_repr filename = inr ext ->
  In ext ingest.ALLOWED_EXTENSIONS
  /\ py.contains "." filename = true
  /\ ext = "." +:+ lower (worker.after_last_dot filename).
Proof.
  intros [Hempty Hdot]. unfold ingest.validate_file_extension.
  destruct (existsb _ ingest.ALLOWED_EXTENSIONS) eqn:Hallowed; [| discriminate].
  simpl. intros Heq. inversion Heq; subst ext.
  apply existsb_exists in Hallowed as (a & Ha & Heqb).
  apply String.eqb_eq in Heqb.
  split; [rewrite Heqb; exact Ha|].
  destruct (splitext_ext_cases filename) as [Hnone | [Hin Hext]].
  - rewrite Hnone, Hempty in Heqb. subst a.
    simpl in Ha. repeat (destruct Ha as [Ha|Ha]; [discriminate|]). contradiction.
  - split; [exact Hin|]. rewrite Hext. apply Hdot.
Qed.

(** X14. From upload to worker.  For a file name that [upload_document]
    accepts, the document row it stores is of a kind the worker handles
    (never web or image), the file type the worker derives from the title
    is the validated extension without its dot, and, unless the file is
    audio, the worker downloads exactly the object the storage backend
    wrote, bucket and path, and extracts it with the reader for that file
    type.  The bucket name must not contain a slash. *)
Theorem upload_is_read_back_by_worker (env : worker.Env) (allowed_repr : string)
    (bucket_name filename ext : string) (document_id : uuid) (now : datetime) :
  py.contains "/" bucket_name = false ->
  lower_keeps_dot (chunking.lower (worker.text_tools env)) ->
  ingest.validate_file_extension (chunking.lower (worker.text_tools env))
    allowed_repr filename = inr ext ->
  let source_uri :=
    storage.artifact_uri bucket_name filename ingest.DEMO_USER_ID document_id in
  let document :=
    ingest.uploaded_document document_id now (ingest.determine_source_type ext)
      filename source_uri in
  models.Document.source_type document <> models.web
  /\ models.Document.source_type document <> models.image
  /\ "." +:+ worker.file_extension env document = ext
  /\ (models.Document.source_type document <> models.audio ->
      worker.extract_chunks env document
      = worker.bind (worker.logger (worker.InfoDownloading source_uri)) (fun _ =>
          worker.bind
            (worker.lift
               (worker.download_as_bytes env bucket_name
                  (storage.object_path filename ingest.DEMO_USER_ID document_id)))
            (fun file_bytes =>
               worker.ret
                 (chunking.chunk_document (worker.text_tools env)
                    (extraction.pages
                       (extraction.extract_document_text (worker.codecs env) file_bytes
                          (worker.file_extension env document)))
                    chunking.default_max_tokens chunking.default_overlap_tokens)))).
Proof.
  intros Hbucket Hlower Hvalid. cbv zeta.
  destruct (validate_file_extension_accepts _ _ _ _ Hlower Hvalid)
    as (Hallowed & Hdot & Hext).
  assert (Hkind : ingest.determine_source_type ext <> models.web
                  /\ ingest.determine_source_type ext <> models.image).
  { unfold ingest.determine_source_type.
    destruct (existsb _ _); [split; discriminate|].
    destruct (String.eqb ext ".pdf"); [split; discriminate|].
    destruct (String.eqb ext ".md"); [split; discriminate|].
    destruct (String.eqb ext ".txt"); split; discriminate. }
  assert (Hfile : "." +:+ worker.file_extension env
                    (ingest.uploaded_document document_id now
                       (ingest.determine_source_type ext) filename
                       (storage.artifact_uri bucket_name filename
                          ingest.DEMO_USER_ID document_id)) = ext).
  { unfold worker.file_extension. simpl.
    destruct (ingest.determine_source_type ext) eqn:Hk;
      try (rewrite Hdot; symmetry; exact Hext).
    simpl in Hallowed.
    repeat (destruct Hallowed as [<-|Hallowed]; [try reflexivity; discriminate Hk|]).
    contradiction. }
  split; [apply Hkind|]. split; [apply Hkind|]. split; [exact Hfile|].
  intros Hnot_audio.
  set (document := ingest.uploaded_document _ _ _ _ _) in *.
  assert (Hstart : py.startswith (models.Document.source_uri document) "gs://" = true)
    by apply startswith_gs.
  assert (Hsplit : worker.split_once_slash
                     (worker.drop5 (models.Document.source_uri document))
                   = (bucket_name,
                      Some (storage.object_path filename ingest.DEMO_USER_ID document_id))).
  { change (models.Document.source_uri document)
      with ("gs://" +:+ (bucket_name +:+ "/" +:+
              storage.object_path filename ingest.DEMO_USER_ID document_id)).
    rewrite drop5_gs. apply split_once_slash_first. exact Hbucket. }
  unfold worker.extract_chunks. rewrite Hstart, Hsplit.
  destruct Hkind as [Hweb Himage].
  change (models.Document.source_type document)
    with (ingest.determine_source_type ext) in *.
  destruct (ingest.determine_source_type ext);
    try reflexivity; contradiction.
Qed.

Lemma upload_is_read_back_by_worker_witness :
  "." +:+ worker.file_extension (demo_env no_faults embed_ok)
            (ingest.uploaded_document "doc-9" 1762128000000000 models.text "Notes.v2.TXT"
               (storage.artifact_uri "bucket" "Notes.v2.TXT" ingest.DEMO_USER_ID "doc-9"))
  = ".txt".
Proof.
  destruct (upload_is_read_back_by_worker (demo_env no_faults embed_ok) "{...}"
              "bucket" "Notes.v2.TXT" ".txt" "doc-9" 1762128000000000)
    as (_ & _ & Hfile & _).
  - reflexivity.
  - split; [reflexivity | intros s; reflexivity].
  - vm_compute. reflexivity.
  - exact Hfile.
Defined.

(** ** Stored artefacts do not collide *)

Lemma artifact_uri_parts bucket_name filename user_id document_id :
  py.contains "/" bucket_name = false ->
  py.contains "/" user_id = false ->
  py.contains "/" document_id = false ->
  worker.split_once_slash
    (worker.drop5 (storage.artifact_uri bucket_name filename user_id document_id))
    = (bucket_name, Some (storage.object_path filename user_id document_id))
  /\ worker.split_once_slash (storage.object_path filename user_id document_id)
     = (user_id, Some (document_id +:+ "/" +:+ filename))
  /\ worker.split_once_slash (document_id +:+ "/" +:+ filename)
     = (document_id, Some filename).
Proof.
  intros Hb Hu Hd. unfold storage.artifact_uri, storage.object_path.
  rewrite drop5_gs. repeat split; apply split_once_slash_first; assumption.
Qed.

Lemma artifact_uri_injective bucket_name filename user_id document_id
    bucket_name' filename' user_id' document_id' :
  py.contains "/" bucket_name = false -> py.contains "/" bucket_name' = false ->
  py.contains "/" user_id = false -> py.contains "/" user_id' = false ->
  py.contains "/" document_id = false -> py.contains "/" document_id' = false ->
  storage.artifact_uri bucket_name filename user_id document_id
    = storage.artifact_uri bucket_name' filename' user_id' document_id' ->
  bucket_name = bucket_name' /\ user_id = user_id'
  /\ document_id = document_id' /\ filename = filename'.
Proof.
  intros Hb Hb' Hu Hu' Hd Hd' Huri.
  destruct (artifact_uri_parts bucket_name filename user_id document_id Hb Hu Hd)
    as (H1 & H2 & H3).
  destruct (artifact_uri_parts bucket_name' filename' user_id' document_id' Hb' Hu' Hd')
    as (H1' & H2' & H3').
  rewrite Huri, H1' in H1. injection H1 as Hbucket Hpath.
  rewrite <- Hpath, H2' in H2. injection H2 as Huser Hrest.
  rewrite <- Hrest, H3' in H3. injection H3 as Hdoc Hfile.
  repeat split; congruence.
Qed.

(** X15. The URI of a stored artefact determines the bucket, the user,
    the document and the file name, as long as the first three contain no
    slash (UUIDs and bucket names do not); so in the in-memory backend an
    upload for another document never replaces an artefact: both stay
    retrievable under their URIs. *)
Theorem uploads_do_not_collide (self : storage.InMemoryStorageMock)
    (bytes1 filename1 user_id1 document_id1 : string)
    (bytes2 filename2 user_id2 document_id2 : string) :
  py.contains "/" (storage.bucket_name self) = false ->
  py.contains "/" user_id1 = false -> py.contains "/" user_id2 = false ->
  py.contains "/" document_id1 = false -> py.contains "/" document_id2 = false ->
  document_id1 <> document_id2 ->
  let first := storage.upload_raw_artifact self bytes1 filename1 user_id1 document_id1 in
  let second :=
    storage.upload_raw_artifact (snd first) bytes2 filename2 user_id2 document_id2 in
  fst first <> fst second
  /\ storage.get_object (snd second) (fst first) = Some bytes1
  /\ storage.get_object (snd second) (fst second) = Some bytes2.
Proof.
  intros Hb Hu1 Hu2 Hd1 Hd2 Hne. cbv zeta.
  unfold storage.upload_raw_artifact, storage.get_object. simpl.
  assert (Hdiff : storage.artifact_uri (storage.bucket_name self) filename1 user_id1
                    document_id1
                  <> storage.artifact_uri (storage.bucket_name self) filename2 user_id2
                       document_id2).
  { intros Heq.
    destruct (artifact_uri_injective _ _ _ _ _ _ _ _ Hb Hb Hu1 Hu2 Hd1 Hd2 Heq)
      as (_ & _ & Hdoc & _).
    contradiction. }
  split; [exact Hdiff|]. split.
  - rewrite !lookup_insert_ne by congruence. rewrite lookup_insert_eq. reflexivity.
  - rewrite lookup_insert_eq. reflexivity.
Qed.

Lemma uploads_do_not_collide_witness :
  storage.get_object
    (snd (storage.upload_raw_artifact
            (snd (storage.upload_raw_artifact
                    {| storage.bucket_name := "mock-bucket"; storage._store := ∅ |}
                    "first" "a.txt" "user-0" "doc-1"))
            "second" "a.txt" "user-0" "doc-2"))
    "gs://mock-bucket/user-0/doc-1/a.txt"
  = Some "first".
Proof.
  refine (proj1 (proj2 (uploads_do_not_collide
            {| storage.bucket_name := "mock-bucket"; storage._store := ∅ |}
            "first" "a.txt" "user-0" "doc-1" "second" "a.txt" "user-0" "doc-2"
            _ _ _ _ _ _))); first [reflexivity | discriminate].
Defined.

(** ** The worker's entry points *)

Module worker_service.

(** [process_task]: the handler of POST /internal/process.  [UUID] is
    [uuid.UUID], [None] when it raises [ValueError].  The session is
    opened on the database and closed when the block is left, so what
    remains is what was committed. *)
Definition process_task (env : worker.Env) (UUID : string -> option uuid)
    (payload_job_id : string) (db : worker.DB)
    : (ingest.HTTPException + string) * worker.DB :=
  match UUID payload_job_id with
  | None =>
      (inl {| ingest.status_code := 400; ingest.detail := "Invalid job_id format" |}, db)
  | Some job_uuid =>
      match worker.process_job env job_uuid (worker.open_session db) with
      | (inr _, w) => (inr payload_job_id, worker.committed w)
      | (inl e, w) =>
          (inl {| ingest.status_code := 500; ingest.detail := exn_str e |},
           worker.committed w)
      end
  end.

End worker_service.

Module worker_main.

(** The [__main__] block of worker.py with [run_once]: the exit code.
    [JOB_ID] is the environment variable, [startup_fault] an exception of
    [get_settings] or of the engine's construction. *)
Definition main (env : worker.Env) (UUID : string -> option uuid)
    (startup_fault : option exn) (JOB_ID : option string) (db : worker.DB)
    : Z * worker.DB :=
  match JOB_ID with
  | None => (1, db)
  | Some job_id_str =>
      if String.eqb job_id_str "" then (1, db)
      else
        match UUID job_id_str with
        | None => (1, db)
        | Some job_id =>
            match startup_fault with
            | Some _ => (1, db)
            | None =>
                match worker.process_job env job_id (worker.open_session db) with
                | (inr _, w) => (0, worker.committed w)
                | (inl _, w) => (1, worker.committed w)
                end
            end
        end
  end.

End worker_main.

(** X16. Redelivery.  Once a task for a job that has a row has been
    handled, with whatever outcome (200, or 500 because the job failed),
    handling the same task again answers 200 and changes nothing, and a
    worker process started on it exits with code 0: a failed job is not
    processed again by a retry.  The claim statements must reach the
    database in both deliveries. *)
Theorem redelivered_task_is_acknowledged (env env' : worker.Env)
    (UUID : string -> option uuid) (payload_job_id : string) (job_id : uuid)
    (db : worker.DB) :
  UUID payload_job_id = Some job_id ->
  payload_job_id <> "" ->
  is_Some (worker.jobs db !! job_id) ->
  worker.db_fault env worker.OpClaimUpdate = None ->
  worker.db_fault env worker.OpClaimCheck = None ->
  worker.db_fault env worker.OpClaimCommit = None ->
  worker.db_fault env' worker.OpClaimUpdate = None ->
  worker.db_fault env' worker.OpClaimCheck = None ->
  let after_first := snd (worker_service.process_task env UUID payload_job_id db) in
  worker_service.process_task env' UUID payload_job_id after_first
    = (inr payload_job_id, after_first)
  /\ worker_main.main env' UUID None (Some payload_job_id) after_first
     = (0, after_first).
Proof.
  intros Hparse Hnonempty Hrow Hupdate Hcheck Hcommit Hupdate' Hcheck'. cbv zeta.
  assert (Hafter : snd (worker_service.process_task env UUID payload_job_id db)
                   = worker.committed
                       (snd (worker.process_job env job_id (worker.open_session db)))).
  { unfold worker_service.process_task. rewrite Hparse.
    destruct (worker.process_job env job_id (worker.open_session db)) as [[e|[]] w];
      reflexivity. }
  rewrite Hafter.
  destruct (process_job_leaves_handled env job_id (worker.open_session db)
              eq_refl Hrow Hupdate Hcheck Hcommit) as (j & Hj & Hstatus).
  unfold worker_service.process_task, worker_main.main. rewrite Hparse.
  rewrite (process_job_not_pending env' job_id (worker.open_session _) j
             eq_refl Hupdate' Hcheck' Hj Hstatus).
  destruct (String.eqb_spec payload_job_id "") as [Heq|_]; [contradiction|].
  split; reflexivity.
Qed.

Lemma redelivered_task_is_acknowledged_witness :
  fst (worker_service.process_task (demo_env no_faults embed_down) Some "job-1" demo_db)
    = inl {| ingest.status_code := 500; ingest.detail := "RetryError[...]" |}
  /\ fst (worker_service.process_task (demo_env no_faults embed_ok) Some "job-1"
            (snd (worker_service.process_task (demo_env no_faults embed_down) Some
                    "job-1" demo_db)))
     = inr "job-1".
Proof.
  split; [vm_compute; reflexivity|].
  assert (Hrow : is_Some (worker.jobs demo_db !! ("job-1" : uuid)))
    by (vm_compute; eexists; reflexivity).
  assert (Hname : "job-1" <> "") by discriminate.
  rewrite (proj1 (redelivered_task_is_acknowledged (demo_env no_faults embed_down)
                    (demo_env no_faults embed_ok) Some "job-1" "job-1" demo_db
                    eq_refl Hname Hrow eq_refl eq_refl eq_refl eq_refl eq_refl)).
  reflexivity.
Defined.

(** ** app/api/jobs.py *)

Module jobs_api.

Record JobStatus := {
  job_id : uuid;
  document_id : uuid;
  status : models.IngestionStatus;
  error_message : option string
}.

(** [get_job_status]: the row with that id and the demo user, or 404. *)
Definition get_job_status (db : worker.DB) (job_id : uuid)
    : ingest.HTTPException + JobStatus :=
  match worker.jobs db !! job_id with
  | Some job =>
      if String.eqb (models.Job.user_id job) ingest.DEMO_USER_ID then
        inr {| job_id := models.Job.job_id job;
               document_id := models.Job.document_id job;
               status := models.Job.status job;
               error_message := models.Job.error_message job |}
      else inl {| ingest.status_code := 404; ingest.detail := "Job not found" |}
  | None => inl {| ingest.status_code := 404; ingest.detail := "Job not found" |}
  end.

End jobs_api.

(** X17. What a client polling the job sees after a run on a pending
    job has raised: status [failed] and, as error message, the text of the
    exception that [process_job] raised, provided the claim and the
    failure-status write reached the database and the job belongs to the
    demo user. *)
Theorem failed_job_is_reported (env : worker.Env) (job_id : uuid)
    (w w' : worker.World) (j : models.Job.t) (e : exn) :
  worker.session w = worker.committed w ->
  worker.jobs (worker.committed w) !! job_id = Some j ->
  models.Job.status j = models.pending ->
  models.Job.user_id j = ingest.DEMO_USER_ID ->
  worker.db_fault env worker.OpClaimUpdate = None ->
  worker.db_fault env worker.OpClaimCommit = None ->
  failure_write_fault env = None ->
  worker.process_job env job_id w = (inl e, w') ->
  jobs_api.get_job_status (worker.committed w') job_id
  = inr {| jobs_api.job_id := models.Job.job_id j;
           jobs_api.document_id := models.Job.document_id j;
           jobs_api.status := models.failed;
           jobs_api.error_message := Some (exn_str e) |}.
Proof.
  intros Hclean Hj Hpending Huser Hupdate Hcommit Hwrite Hrun.
  assert (Hs : worker.jobs (worker.session w) !! job_id = Some j)
    by (rewrite Hclean; exact Hj).
  pose proof (claim_pending env job_id w j Hupdate Hcommit Hs Hpending) as Hclaim.
  rewrite (process_job_claimed env job_id w _ Hclaim) in Hrun.
  unfold worker.try_except in Hrun.
  destruct (worker.pipeline env job_id (claimed_world env job_id j w))
    as [[e0|[]] w2] eqn:Hpipe; [| discriminate].
  pose proof (raises_clean_pipeline env job_id _ _ _ Hpipe) as Hkept.
  destruct (on_failure_spec env job_id e0 w2) as (w3 & Hfail & _ & _ & Hjobs).
  rewrite Hfail in Hrun. inversion Hrun; subst e0 w3; clear Hrun.
  rewrite Hwrite in Hjobs. destruct Hjobs as [Hjobs _].
  unfold jobs_api.get_job_status. rewrite Hjobs, Hkept. simpl.
  rewrite lookup_alter_eq, lookup_insert_eq. simpl.
  rewrite Huser, String.eqb_refl. reflexivity.
Qed.

Definition polled_db : worker.DB :=
  {| worker.jobs :=
       {[ "job-7" :=
            {| models.Job.job_id := "job-7"; models.Job.user_id := ingest.DEMO_USER_ID;
               models.Job.document_id := "doc-2"; models.Job.status := models.pending;
               models.Job.error_message := None;
               models.Job.created_at := 1762000000000000;
               models.Job.updated_at := 1762000000000000 |} ]};
     worker.documents := worker.documents demo_db;
     worker.chunks := [] |}.

Lemma failed_job_is_reported_witness :
  jobs_api.get_job_status
    (worker.committed
       (snd (worker.process_job (demo_env no_faults embed_ok) "job-7"
               (worker.open_session polled_db))))
    "job-7"
  = inr {| jobs_api.job_id := "job-7"; jobs_api.document_id := "doc-2";
           jobs_api.status := models.failed;
           jobs_api.error_message :=
             Some "No chunks produced from document doc-2. Source may be empty or unreadable." |}.
Proof.
  apply (failed_job_is_reported (demo_env no_faults embed_ok) "job-7"
           (worker.open_session polled_db) _
           {| models.Job.job_id := "job-7"; models.Job.user_id := ingest.DEMO_USER_ID;
              models.Job.document_id := "doc-2"; models.Job.status := models.pending;
              models.Job.error_message := None;
              models.Job.created_at := 1762000000000000;
              models.Job.updated_at := 1762000000000000 |}
           (RuntimeError (worker.no_chunks_message "doc-2"))
           eq_refl eq_refl eq_refl eq_refl eq_refl eq_refl eq_refl).
  vm_compute. reflexivity.
Defined.

(* ===================================================================== *)
(** * Part V. The search legs, the query endpoint and the answer           *)
(* ===================================================================== *)

(** ** [SearchService.semantic_search], [keyword_search], [hybrid_search]
       over the chunks table *)

Module search_db.
Import models.

(** The [metadata] dict of a result. *)
Record Metadata := {
  page_number : option Z;
  start_offset : option Q;
  end_offset : option Q;
  source_ref : gmap string Z;
  created_at : option string
}.

(** The [filters] dict: [document_id] holds a list or a single id. *)
Inductive doc_param : Type :=
  | DocList (ids : list uuid)
  | DocOne (id : uuid).

Record Filters := {
  document_id : option doc_param;
  start_date : option datetime;
  end_date : option datetime
}.

Definition no_filters : Filters :=
  {| document_id := None; start_date := None; end_date := None |}.

(** The [select] of a leg with the values bound to it: what SQLAlchemy
    prints as [SQL: ...] and [parameters: ...] in the text of a database
    error. *)
Inductive Statement : Type :=
  | SemanticSelect (query_embedding : embeddings.vector) (user_id : uuid)
                   (limit : Z) (filters : Filters)
  | KeywordSelect (query : string) (user_id : uuid) (limit : Z) (filters : Filters).

Section Legs.
Context {F : Type} `{search.PyFloat F}.

(** What PostgreSQL and Python compute on the way: pgvector's cosine
    distance, the float subtraction, the full-text match
    [to_tsvector('english', text) @@ plainto_tsquery('english', query)]
    with its [ts_rank], [datetime.isoformat], and the [str] of the
    [sqlalchemy.exc.DataError] raised for a statement that PostgreSQL
    rejects: the driver's error class, PostgreSQL's message, the SQL and
    its parameters. *)
Record Pg := {
  cosine_distance : embeddings.vector -> embeddings.vector -> F;
  f_sub : F -> F -> F;
  ts_match : string -> string -> bool;
  ts_rank : string -> string -> F;
  isoformat : datetime -> string;
  data_error_str : Statement -> string
}.

Variable pg : Pg.

Local Abbreviation Item := (search.SearchItem F Metadata).

(** The conjunction of the [conditions] list, without the full-text
    condition. *)
Definition conditions (user_id : uuid) (filters : Filters) (c : Chunk.t) : bool :=
  String.eqb (Chunk.user_id c) user_id
  && match document_id filters with
     | Some (DocList (id :: ids)) =>
         existsb (String.eqb (Chunk.document_id c)) (id :: ids)
     | Some (DocOne id) => String.eqb (Chunk.document_id c) id
     | Some (DocList []) | None => true
     end
  && match start_date filters with
     | Some d => d <=? Chunk.created_at c
     | None => true
     end
  && match end_date filters with
     | Some d => Chunk.created_at c <=? d
     | None => true
     end.

(** [ORDER BY distance]: ascending, NULLs last.  The order of equal keys
    is the database's choice; here they keep the table's order. *)
Definition nulls_last_lt (a b : option F) : bool :=
  match a, b with
  | Some x, Some y => search.f_lt x y
  | Some _, None => true
  | None, _ => false
  end.

Fixpoint insert_asc (x : Chunk.t * option F) (l : list (Chunk.t * option F))
    : list (Chunk.t * option F) :=
  match l with
  | [] => [x]
  | y :: l' => if nulls_last_lt (snd y) (snd x) then y :: insert_asc x l' else x :: y :: l'
  end.

Definition order_by_asc (l : list (Chunk.t * option F)) : list (Chunk.t * option F) :=
  fold_right insert_asc [] l.

(** [ORDER BY rank DESC] *)
Fixpoint insert_desc (x : Chunk.t * F) (l : list (Chunk.t * F)) : list (Chunk.t * F) :=
  match l with
  | [] => [x]
  | y :: l' => if search.f_lt (snd x) (snd y) then y :: insert_desc x l' else x :: y :: l'
  end.

Definition order_by_desc (l : list (Chunk.t * F)) : list (Chunk.t * F) :=
  fold_right insert_desc [] l.

(** [LIMIT limit]: PostgreSQL rejects a negative limit ("LIMIT must not
    be negative"), and [session.execute] raises SQLAlchemy's [DataError]
    for the statement. *)
Definition sql_limit {A : Type} (statement : Statement) (limit : Z) (rows : list A)
    : exn + list A :=
  if limit <? 0 then inl (Exc "DataError" (data_error_str pg statement))
  else inr (firstn (Z.to_nat limit) rows).

Definition metadata_of (c : Chunk.t) : Metadata :=
  {| page_number := Chunk.page_number c;
     start_offset := Chunk.start_offset c;
     end_offset := Chunk.end_offset c;
     source_ref := Chunk.source_ref c;
     created_at := Some (isoformat pg (Chunk.created_at c)) |}.

Definition semantic_item (c : Chunk.t) (distance : F) : Item :=
  {| search.chunk_id := Chunk.chunk_id c;
     search.document_id := Chunk.document_id c;
     search.text := Chunk.text c;
     search.score := f_sub pg (search.f_of_int 1) distance;
     search.distance := Some distance;
     search.method := None;
     search.metadata := metadata_of c;
     search.fusion_score := None |}.

Definition keyword_item (row : Chunk.t * F) : Item :=
  {| search.chunk_id := Chunk.chunk_id (fst row);
     search.document_id := Chunk.document_id (fst row);
     search.text := Chunk.text (fst row);
     search.score := snd row;
     search.distance := None;
     search.method := Some "keyword";
     search.metadata := metadata_of (fst row);
     search.fusion_score := None |}.

(** [for row in rows] of the semantic leg: [1 - distance] raises on the
    NULL distance of a chunk without embedding. *)
Fixpoint semantic_results (rows : list (Chunk.t * option F)) : exn + list Item :=
  match rows with
  | [] => inr []
  | (c, None) :: _ =>
      inl (Exc "TypeError" "unsupported operand type(s) for -: 'int' and 'NoneType'")
  | (c, Some distance) :: rows' =>
      match semantic_results rows' with
      | inl e => inl e
      | inr results => inr (semantic_item c distance :: results)
      end
  end.

Definition semantic_search (table : list Chunk.t) (query_embedding : embeddings.vector)
    (user_id : uuid) (limit : Z) (filters : Filters) : exn + list Item :=
  let distance c :=
    (fun e => cosine_distance pg e query_embedding) <$> Chunk.embedding c in
  match sql_limit (SemanticSelect query_embedding user_id limit filters) limit
          (order_by_asc
             (map (fun c => (c, distance c))
                  (List.filter (conditions user_id filters) table))) with
  | inl e => inl e
  | inr rows => semantic_results rows
  end.

Definition keyword_search (table : list Chunk.t) (query : string)
    (user_id : uuid) (limit : Z) (filters : Filters) : exn + list Item :=
  match sql_limit (KeywordSelect query user_id limit filters) limit
          (order_by_desc
             (map (fun c => (c, ts_rank pg query (Chunk.text c)))
                  (List.filter
                     (fun c => conditions user_id filters c
                               && ts_match pg query (Chunk.text c))
                     table))) with
  | inl e => inl e
  | inr rows => inr (map keyword_item rows)
  end.

(** [hybrid_search].  [embedding_service] is the outcome of
    [get_embedding_service()], which is called outside the [try]; any
    exception of [generate_embeddings([query])[0]], an empty answer
    included, falls back to the keyword leg. *)
Definition hybrid_search (table : list Chunk.t)
    (embedding_service : exn + (list string -> exn + list embeddings.vector))
    (query : string) (user_id : uuid) (limit : Z) (filters : Filters)
    : exn + list Item :=
  match embedding_service with
  | inl e => inl e
  | inr generate_embeddings =>
      match generate_embeddings [query] with
      | inr (query_embedding :: _) =>
          match semantic_search table query_embedding user_id 20 filters with
          | inl e => inl e
          | inr semantic_results =>
              match keyword_search table query user_id 20 filters with
              | inl e => inl e
              | inr keyword_results =>
                  inr (py.slice_to
                         (map snd (search.fused_sorted semantic_results keyword_results))
                         limit)
              end
          end
      | _ => keyword_search table query user_id limit filters
      end
  end.

End Legs.

(** The dict that [query_endpoint] builds, as the legs read it. *)
Definition filters_of (search_filters : gmap string query.filter_value) : Filters :=
  {| document_id :=
       match search_filters !! "document_id" with
       | Some (query.FDocuments ids) => Some (DocList ids)
       | _ => None
       end;
     start_date :=
       match search_filters !! "start_date" with
       | Some (query.FDate d) => Some d
       | _ => None
       end;
     end_date :=
       match search_filters !! "end_date" with
       | Some (query.FDate d) => Some d
       | _ => None
       end |}.

End search_db.

Arguments search_db.Pg : clear implicits.

(** ** Scope of the search results *)

Section SearchScope.
Context {F : Type} {HF : search.PyFloat F}.
Variable pg : search_db.Pg F.
Variable table : list models.Chunk.t.
Variable user_id : uuid.
Variable filters : search_db.Filters.

Local Abbreviation Item := (search.SearchItem F search_db.Metadata).

(** A result that shows a stored chunk of the user that passes the
    filters. *)
Definition in_scope (item : Item) : Prop :=
  exists c,
    In c table
    /\ search_db.conditions user_id filters c = true
    /\ search.chunk_id item = models.Chunk.chunk_id c
    /\ search.document_id item = models.Chunk.document_id c
    /\ search.text item = models.Chunk.text c
    /\ search.metadata item = search_db.metadata_of pg c.

Lemma insert_asc_perm (x : models.Chunk.t * option F) l :
  Permutation (search_db.insert_asc x l) (x :: l).
Proof.
  induction l as [|y l IH]; simpl; [reflexivity|].
  destruct (search_db.nulls_last_lt (snd y) (snd x)); [| reflexivity].
  rewrite IH. apply perm_swap.
Qed.

Lemma order_by_asc_perm (l : list (models.Chunk.t * option F)) :
  Permutation (search_db.order_by_asc l) l.
Proof.
  induction l as [|x l IH]; simpl; [reflexivity|].
  rewrite insert_asc_perm. constructor. exact IH.
Qed.

Lemma insert_rank_desc_perm (x : models.Chunk.t * F) l :
  Permutation (search_db.insert_desc x l) (x :: l).
Proof.
  induction l as [|y l IH]; simpl; [reflexivity|].
  destruct (search.f_lt (snd x) (snd y)); [| reflexivity].
  rewrite IH. apply perm_swap.
Qed.

Lemma order_by_desc_perm (l : list (models.Chunk.t * F)) :
  Permutation (search_db.order_by_desc l) l.
Proof.
  induction l as [|x l IH]; simpl; [reflexivity|].
  rewrite insert_rank_desc_perm. constructor. exact IH.
Qed.

Lemma sql_limit_rows {A : Type} statement (limit : Z) (rows limited : list A) :
  search_db.sql_limit pg statement limit rows = inr limited ->
  0 <= limit /\ limited = firstn (Z.to_nat limit) rows.
Proof.
  unfold search_db.sql_limit. destruct (Z.ltb_spec limit 0); [discriminate|].
  intros Heq. inversion Heq. split; [lia | reflexivity].
Qed.

Lemma semantic_results_rows rows items :
  search_db.semantic_results pg rows = inr items ->
  length items = length rows
  /\ Forall (fun item => exists c distance,
               In (c, Some distance) rows
               /\ item = search_db.semantic_item pg c distance) items.
Proof.
  revert items. induction rows as [|[c [distance|]] rows IH]; intros items; simpl.
  - intros Heq. inversion Heq. split; [reflexivity | constructor].
  - destruct (search_db.semantic_results pg rows) as [e|results]; [discriminate|].
    intros Heq. inversion Heq; subst. destruct (IH results eq_refl) as [Hlen Hall].
    split; [simpl; rewrite Hlen; reflexivity|].
    constructor.
    + exists c, distance. split; [left; reflexivity | reflexivity].
    + eapply List.Forall_impl; [| exact Hall].
      intros item (c' & d' & Hin & ->). exists c', d'. split; [right; exact Hin | reflexivity].
  - discriminate.
Qed.

(** The semantic leg, when it returns. *)
Lemma semantic_search_scope query_embedding limit items :
  search_db.semantic_search pg table query_embedding user_id limit filters = inr items ->
  Forall in_scope items
  /\ 0 <= limit
  /\ length items
     = Nat.min (Z.to_nat limit)
               (length (List.filter (search_db.conditions user_id filters) table)).
Proof.
  unfold search_db.semantic_search.
  set (rows := search_db.order_by_asc _).
  destruct (search_db.sql_limit pg _ limit rows) as [e|limited] eqn:Hlimit; [discriminate|].
  apply sql_limit_rows in Hlimit as [Hnonneg ->].
  intros Hresults. destruct (semantic_results_rows _ _ Hresults) as [Hlen Hall].
  assert (Hrows : Permutation rows
            (map (fun c => (c, (fun e => search_db.cosine_distance pg e query_embedding)
                               <$> models.Chunk.embedding c))
                 (List.filter (search_db.conditions user_id filters) table)))
    by apply order_by_asc_perm.
  split; [| split; [exact Hnonneg |]].
  - eapply List.Forall_impl; [| exact Hall].
    intros item (c & distance & Hin & ->).
    apply In_firstn in Hin. apply (Permutation_in _ Hrows) in Hin.
    apply in_map_iff in Hin as (c' & Heq & Hc'). inversion Heq; subst c'.
    apply filter_In in Hc' as [Htable Hcond].
    exists c. repeat split; assumption.
  - rewrite Hlen, length_firstn, (Permutation_length Hrows), length_map. reflexivity.
Qed.

(** The keyword leg returns whenever the limit is not negative. *)
Lemma keyword_search_scope query limit :
  0 <= limit ->
  exists items,
    search_db.keyword_search pg table query user_id limit filters = inr items
    /\ Forall (fun item => in_scope item
                 /\ exists c, In c table
                      /\ search.chunk_id item = models.Chunk.chunk_id c
                      /\ search_db.ts_match pg query (models.Chunk.text c) = true) items
    /\ length items
       = Nat.min (Z.to_nat limit)
           (length (List.filter
                      (fun c => search_db.conditions user_id filters c
                                && search_db.ts_match pg query (models.Chunk.text c))
                      table)).
Proof.
  intros Hnonneg. unfold search_db.keyword_search, search_db.sql_limit.
  destruct (Z.ltb_spec limit 0); [lia|].
  set (rows := search_db.order_by_desc _).
  assert (Hrows : Permutation rows
            (map (fun c => (c, search_db.ts_rank pg query (models.Chunk.text c)))
                 (List.filter
                    (fun c => search_db.conditions user_id filters c
                              && search_db.ts_match pg query (models.Chunk.text c))
                    table)))
    by apply order_by_desc_perm.
  eexists. split; [reflexivity|]. split.
  - apply List.Forall_map. apply List.Forall_forall. intros [c rank] Hin.
    apply In_firstn in Hin. apply (Permutation_in _ Hrows) in Hin.
    apply in_map_iff in Hin as (c' & Heq & Hc'). inversion Heq; subst c' rank.
    apply filter_In in Hc' as [Htable Hcond].
    apply andb_true_iff in Hcond as [Hcond Hmatch].
    split.
    + exists c. repeat split; assumption.
    + exists c. repeat split; assumption.
  - rewrite length_map, length_firstn, (Permutation_length Hrows), length_map.
    reflexivity.
Qed.

Lemma keyword_search_negative_limit query limit :
  limit < 0 ->
  search_db.keyword_search pg table query user_id limit filters
  = inl (Exc "DataError"
           (search_db.data_error_str pg
              (search_db.KeywordSelect query user_id limit filters))).
Proof.
  intros Hneg. unfold search_db.keyword_search, search_db.sql_limit.
  destruct (Z.ltb_spec limit 0); [reflexivity | lia].
Qed.

End SearchScope.

(** *** Where the fused results come from *)

Section FusedFrom.
Context {F : Type} {HF : search.PyFloat F} {M : Type}.

Local Abbreviation Item := (search.SearchItem F M).

Definition values_from (pool : list Item) (chunks_map : gmap string Item) : Prop :=
  forall cid item, chunks_map !! cid = Some item -> In item pool.

Lemma fuse_semantic_values pool rank (results : list Item) scores chunks_map :
  values_from pool chunks_map -> incl results pool ->
  values_from pool (snd (search.fuse_semantic rank results scores chunks_map)).
Proof.
  revert rank scores chunks_map.
  induction results as [|item results IH]; intros rank scores chunks_map Hvalues Hincl;
    simpl; [exact Hvalues|].
  apply IH; [| intros x Hx; apply Hincl; right; exact Hx].
  intros cid it. destruct (decide (cid = search.chunk_id item)) as [->|Hne].
  - rewrite lookup_insert_eq. intros Heq. inversion Heq; subst.
    apply Hincl. left. reflexivity.
  - rewrite lookup_insert_ne by congruence. apply Hvalues.
Qed.

Lemma fuse_keyword_values pool rank (results : list Item) scores chunks_map :
  values_from pool chunks_map -> incl results pool ->
  values_from pool (snd (search.fuse_keyword rank results scores chunks_map)).
Proof.
  revert rank scores chunks_map.
  induction results as [|item results IH]; intros rank scores chunks_map Hvalues Hincl;
    simpl; [exact Hvalues|].
  apply IH; [| intros x Hx; apply Hincl; right; exact Hx].
  destruct (chunks_map !! search.chunk_id item) eqn:Hfiled; [exact Hvalues|].
  intros cid it. destruct (decide (cid = search.chunk_id item)) as [->|Hne].
  - rewrite lookup_insert_eq. intros Heq. inversion Heq; subst.
    apply Hincl. left. reflexivity.
  - rewrite lookup_insert_ne by congruence. apply Hvalues.
Qed.

Lemma collect_fused_values pool (scores : search.scores_dict F) chunks_map s it :
  values_from pool chunks_map ->
  In (s, it) (search.collect_fused scores chunks_map) ->
  exists item, In item pool /\ it = search.with_fusion item s.
Proof.
  intros Hvalues. induction scores as [|[cid score] scores IH]; simpl; [contradiction|].
  destruct (chunks_map !! cid) as [item|] eqn:Hfiled; [| exact IH].
  intros [Heq|Hin]; [| exact (IH Hin)].
  inversion Heq; subst. exists item. split; [exact (Hvalues _ _ Hfiled) | reflexivity].
Qed.

(** Every fused entry is a result dict of one of the legs, with the
    fused score and the method label added. *)
Lemma fused_sorted_from (semantic_results keyword_results : list Item) s it :
  In (s, it) (search.fused_sorted semantic_results keyword_results) ->
  exists item,
    (In item semantic_results \/ In item keyword_results)
    /\ it = search.with_fusion item s.
Proof.
  unfold search.fused_sorted.
  pose proof (fuse_semantic_values (semantic_results ++ keyword_results) 0
                semantic_results [] ∅) as Hsem.
  destruct (search.fuse_semantic 0 semantic_results [] ∅) as [scores chunks_map].
  pose proof (fuse_keyword_values (semantic_results ++ keyword_results) 0
                keyword_results scores chunks_map) as Hkw.
  destruct (search.fuse_keyword 0 keyword_results scores chunks_map)
    as [scores' chunks_map'].
  simpl in Hsem, Hkw. intros Hin.
  apply (Permutation_in _ (sort_desc_perm _)) in Hin.
  destruct (collect_fused_values (semantic_results ++ keyword_results)
              scores' chunks_map' s it) as (item & Hitem & ->); [| exact Hin |].
  - apply Hkw.
    + apply Hsem.
      * intros cid item. rewrite lookup_empty. discriminate.
      * intros x Hx. apply in_or_app. left. exact Hx.
    + intros x Hx. apply in_or_app. right. exact Hx.
  - exists item. split; [apply in_app_or; exact Hitem | reflexivity].
Qed.

Lemma In_slice_to {A : Type} (l : list A) (n : Z) (x : A) :
  In x (py.slice_to l n) -> In x l.
Proof.
  unfold py.slice_to. destruct (n <? 0); apply In_firstn.
Qed.

Lemma slice_to_length {A : Type} (l : list A) (n : Z) :
  0 <= n -> (length (py.slice_to l n) <= Z.to_nat n)%nat.
Proof.
  intros Hn. rewrite (slice_to_nonneg l n Hn), length_firstn. lia.
Qed.

End FusedFrom.

Section HybridScope.
Context {F : Type} {HF : search.PyFloat F}.
Variable pg : search_db.Pg F.
Variable table : list models.Chunk.t.
Variable user_id : uuid.
Variable filters : search_db.Filters.

Local Abbreviation Item := (search.SearchItem F search_db.Metadata).

Lemma in_scope_with_fusion (item : Item) s :
  in_scope pg table user_id filters item ->
  in_scope pg table user_id filters (search.with_fusion item s).
Proof. intros (c & H1 & H2 & H3 & H4 & H5 & H6). exists c. repeat split; assumption. Qed.

Lemma hybrid_search_scope embedding_service query limit items :
  search_db.hybrid_search pg table embedding_service query user_id limit filters
    = inr items ->
  Forall (in_scope pg table user_id filters) items
  /\ (0 <= limit -> (length items <= Z.to_nat limit)%nat).
Proof.
  unfold search_db.hybrid_search.
  destruct embedding_service as [e|generate_embeddings]; [discriminate|].
  assert (Hfallback :
            search_db.keyword_search pg table query user_id limit filters = inr items ->
            Forall (in_scope pg table user_id filters) items
            /\ (0 <= limit -> (length items <= Z.to_nat limit)%nat)).
  { intros Hkw. destruct (Z.ltb_spec limit 0) as [Hneg|Hnonneg].
    - rewrite (keyword_search_negative_limit pg table user_id filters query limit Hneg)
        in Hkw. discriminate.
    - destruct (keyword_search_scope pg table user_id filters query limit Hnonneg)
        as (items' & Hrun & Hall & Hlen).
      rewrite Hrun in Hkw. inversion Hkw; subst items'. split.
      + eapply List.Forall_impl; [| exact Hall]. intros item [Hscope _]. exact Hscope.
      + intros _. rewrite Hlen. lia. }
  destruct (generate_embeddings [query]) as [e|[|query_embedding rest]];
    [exact Hfallback | exact Hfallback |].
  destruct (search_db.semantic_search pg table query_embedding user_id 20 filters)
    as [e|semantic_results] eqn:Hsem; [discriminate|].
  destruct (search_db.keyword_search pg table query user_id 20 filters)
    as [e|keyword_results] eqn:Hkw; [discriminate|].
  intros Heq. inversion Heq; subst items; clear Heq.
  destruct (semantic_search_scope pg table user_id filters _ _ _ Hsem) as [Hsem_scope _].
  destruct (keyword_search_scope pg table user_id filters query 20 ltac:(lia))
    as (kw' & Hrun & Hkw_scope & _).
  rewrite Hrun in Hkw. inversion Hkw; subst kw'.
  split; [| apply slice_to_length].
  apply List.Forall_forall. intros it Hin.
  apply In_slice_to in Hin. apply in_map_iff in Hin as ([s it'] & Heq & Hin).
  simpl in Heq. subst it'.
  destruct (fused_sorted_from semantic_results keyword_results s it Hin)
    as (item & [Hleg|Hleg] & ->); apply in_scope_with_fusion.
  - rewrite List.Forall_forall in Hsem_scope. apply Hsem_scope. exact Hleg.
  - rewrite List.Forall_forall in Hkw_scope. apply Hkw_scope. exact Hleg.
Qed.

End HybridScope.

(** ** app/llm.py and the query endpoint *)

Module llm.

Section Answer.
Context {F : Type} `{search.PyFloat F}.

Local Abbreviation Item := (search.SearchItem F search_db.Metadata).

Record Citation := {
  citation_marker : string;
  document_id : string;
  text_snippet : string;
  page_number : option Z;
  score : F;
  method : option string
}.

(** [self.model] ([None] when Vertex AI could not be initialised);
    [generate_content(prompt).text], or the exception it raises; and the
    truth value of a float. *)
Record LLMService := {
  model : option (string -> exn + string);
  truthy : F -> bool
}.

Definition newline : string := String "010" "".

(** A [str] is held as its UTF-8 bytes.  A byte [10xxxxxx] continues the
    code point that the bytes before it began. *)
Definition is_continuation_byte (c : ascii) : bool :=
  match c with
  | Ascii _ _ _ _ _ _ b6 b7 => b7 && negb b6
  end.

(** [text[:n]]: the first [n] code points. *)
Fixpoint first_chars (n : nat) (text : string) : string :=
  match text with
  | EmptyString => EmptyString
  | String c text' =>
      if is_continuation_byte c then String c (first_chars n text')
      else match n with
           | O => EmptyString
           | S n' => String c (first_chars n' text')
           end
  end.

(** [f"[{i+1}]"] *)
Definition marker (i : nat) : string := "[" +:+ pretty (S i) +:+ "]".

(** [chunk.get('fusion_score') or chunk.get('score')] *)
Definition citation_score (self : LLMService) (chunk : Item) : F :=
  match search.fusion_score chunk with
  | Some fused => if truthy self fused then fused else search.score chunk
  | None => search.score chunk
  end.

Definition citation_of (self : LLMService) (i : nat) (chunk : Item) : Citation :=
  {| citation_marker := marker i;
     document_id := search.document_id chunk;
     text_snippet := first_chars 100 (search.text chunk) +:+ "...";
     page_number := search_db.page_number (search.metadata chunk);
     score := citation_score self chunk;
     method := search.method chunk |}.

(** [for i, chunk in enumerate(context_chunks)], from index [i] on. *)
Fixpoint format_context (self : LLMService) (i : nat) (context_chunks : list Item)
    (context_str : string) (citations : list Citation) : string * list Citation :=
  match context_chunks with
  | [] => (context_str, citations)
  | chunk :: rest =>
      format_context self (S i) rest
        (context_str +:+ "Source " +:+ marker i +:+ ":" +:+ newline
           +:+ search.text chunk +:+ newline +:+ newline)
        (citations ++ [citation_of self i chunk])
  end.

Definition prompt_of (context_str query : string) : string :=
  "You are an intelligent assistant for Project Vision." +:+ newline +:+
  "Answer the user's question using ONLY the context provided below." +:+ newline +:+
  "If the answer is not in the context, state that you do not have enough information."
    +:+ newline +:+
  "Cite your sources using the [number] format provided in the context." +:+ newline +:+
  newline +:+
  "Context:" +:+ newline +:+
  context_str +:+ newline +:+
  newline +:+
  "Question: " +:+ query +:+ newline +:+
  newline +:+
  "Answer:".

Definition generate_answer (self : LLMService) (query : string)
    (context_chunks : list Item) : string * list Citation :=
  match model self with
  | None => ("LLM Service unavailable.", [])
  | Some generate_content =>
      match context_chunks with
      | [] => ("No relevant information found.", [])
      | _ =>
          let '(context_str, citations) := format_context self 0 context_chunks "" [] in
          match generate_content (prompt_of context_str query) with
          | inr answer_text => (answer_text, citations)
          | inl _ => ("Error generating answer.", [])
          end
      end
  end.

End Answer.

End llm.

Arguments llm.Citation : clear implicits.
Arguments llm.LLMService : clear implicits.

Module query_api.

Section Endpoint.
Context {F : Type} `{search.PyFloat F}.

(** The [Citation] model of the response: it has no [method] field. *)
Record Citation := {
  citation_marker : string;
  document_id : string;
  text_snippet : string;
  page_number : option Z;
  score : F
}.

Record QueryResponse := {
  answer : string;
  citations : list Citation
}.

(** How a request ends: with a response, with an [HTTPException], or
    with an exception that nothing in the handler catches. *)
Inductive outcome : Type :=
  | Responded (response : QueryResponse)
  | Raised (error : ingest.HTTPException)
  | Unhandled (e : exn).

Definition response_citation (c : llm.Citation F) : Citation :=
  {| citation_marker := llm.citation_marker c;
     document_id := llm.document_id c;
     text_snippet := llm.text_snippet c;
     page_number := llm.page_number c;
     score := llm.score c |}.

(** [query_endpoint].  [llm_service] is the outcome of
    [get_llm_service()]. *)
Definition query_endpoint (env : query.QueryEnv) (pg : search_db.Pg F)
    (table : list models.Chunk.t)
    (embedding_service : exn + (list string -> exn + list embeddings.vector))
    (llm_service : exn + llm.LLMService F)
    (request : query.QueryRequest) : outcome :=
  let user_id := ingest.DEMO_USER_ID in
  let search_filters := query.build_search_filters env request in
  match search_db.hybrid_search pg table embedding_service (query.query request)
          user_id 10 (search_db.filters_of search_filters) with
  | inl e => Raised {| ingest.status_code := 500; ingest.detail := exn_str e |}
  | inr chunks =>
      match llm_service with
      | inl e => Unhandled e
      | inr service =>
          match chunks with
          | [] => Responded {| answer := "No relevant information found.";
                               citations := [] |}
          | _ =>
              let result := llm.generate_answer service (query.query request) chunks in
              Responded {| answer := fst result;
                           citations := map response_citation (snd result) |}
          end
      end
  end.

End Endpoint.

End query_api.

Arguments query_api.Citation : clear implicits.
Arguments query_api.QueryResponse : clear implicits.
Arguments query_api.outcome : clear implicits.

(** ** What the answer cites *)

(** On text of one-byte characters the snippet is the first [n] bytes; a
    character of several bytes counts once. *)
Lemma first_chars_one_byte (n : nat) (text : string) :
  Forall (fun c => llm.is_continuation_byte c = false) (list_ascii_of_string text) ->
  llm.first_chars n text = String.substring 0 n text.
Proof.
  revert n. induction text as [|c text IH]; intros n Hall; simpl.
  - destruct n; reflexivity.
  - inversion Hall as [|? ? Hc Hrest]; subst. rewrite Hc.
    destruct n as [|n]; [reflexivity|]. rewrite (IH n Hrest). reflexivity.
Qed.

Example first_chars_two_bytes :
  llm.first_chars 1 (String "195" (String "169" "t")) = String "195" (String "169" "")
  /\ llm.first_chars 2 (String "195" (String "169" "t"))
     = String "195" (String "169" "t").
Proof. split; reflexivity. Qed.

Section AnswerFacts.
Context {F : Type} {HF : search.PyFloat F}.

Local Abbreviation Item := (search.SearchItem F search_db.Metadata).

Lemma format_context_citations (self : llm.LLMService F) i (chunks : list Item)
    context_str citations :
  snd (llm.format_context self i chunks context_str citations)
  = citations ++ map (fun p => llm.citation_of self (fst p) (snd p))
                     (combine (seq i (length chunks)) chunks).
Proof.
  revert i context_str citations.
  induction chunks as [|chunk chunks IH]; intros i context_str citations; simpl.
  - rewrite app_nil_r. reflexivity.
  - rewrite IH, <- app_assoc. reflexivity.
Qed.

(** The citations of an answer: none, or one per chunk, in order. *)
Lemma generate_answer_citations (self : llm.LLMService F) query (chunks : list Item) :
  snd (llm.generate_answer self query chunks) = []
  \/ snd (llm.generate_answer self query chunks)
     = map (fun p => llm.citation_of self (fst p) (snd p))
           (combine (seq 0 (length chunks)) chunks).
Proof.
  unfold llm.generate_answer.
  destruct (llm.model self) as [generate_content|]; [| left; reflexivity].
  destruct chunks as [|chunk chunks]; [left; reflexivity|].
  pose proof (format_context_citations self 0 (chunk :: chunks) "" []) as Hcit.
  destruct (llm.format_context self 0 (chunk :: chunks) "" []) as [context_str citations].
  simpl in Hcit.
  destruct (generate_content _) as [e|answer_text]; [left; reflexivity|].
  right. exact Hcit.
Qed.

End AnswerFacts.

(** ** Theorems on the search path *)


Definition null_distance_error : exn :=
  Exc "TypeError" "unsupported operand type(s) for -: 'int' and 'NoneType'".

Section NullEmbeddings.
Context {F : Type} {HF : search.PyFloat F}.
Variable pg : search_db.Pg F.

Lemma semantic_results_all_present (rows : list (models.Chunk.t * option F)) :
  Forall (fun row => is_Some (snd row)) rows ->
  exists items, search_db.semantic_results pg rows = inr items.
Proof.
  induction rows as [|[c key] rows IH]; intros Hall; simpl.
  - eexists. reflexivity.
  - inversion Hall as [|? ? [distance Hkey] Hrest]; subst. simpl in Hkey. subst key.
    destruct (IH Hrest) as [items ->]. eexists. reflexivity.
Qed.

Lemma semantic_results_null (rows : list (models.Chunk.t * option F)) c :
  In (c, None) rows ->
  search_db.semantic_results pg rows = inl null_distance_error.
Proof.
  induction rows as [|[c' [distance|]] rows IH]; simpl; [contradiction | | reflexivity].
  intros [Heq|Hin]; [discriminate|]. rewrite (IH Hin). reflexivity.
Qed.

(** A chunk without embedding among the rows that the semantic leg
    returns makes the leg raise. *)
Lemma semantic_search_null table query_embedding user_id limit filters :
  0 <= limit ->
  let matching := List.filter (search_db.conditions user_id filters) table in
  (Forall (fun c => is_Some (models.Chunk.embedding c)) matching ->
   exists items,
     search_db.semantic_search pg table query_embedding user_id limit filters = inr items)
  /\ (Exists (fun c => models.Chunk.embedding c = None) matching ->
      (length matching <= Z.to_nat limit)%nat ->
      search_db.semantic_search pg table query_embedding user_id limit filters
      = inl null_distance_error).
Proof.
  intros Hlimit. cbv zeta. unfold search_db.semantic_search, search_db.sql_limit.
  destruct (Z.ltb_spec limit 0); [lia|].
  set (keyed := map _ (List.filter (search_db.conditions user_id filters) table)).
  pose proof (order_by_asc_perm keyed) as Hperm.
  split.
  - intros Hall. apply semantic_results_all_present.
    apply List.Forall_forall. intros row Hrow.
    apply In_firstn in Hrow. apply (Permutation_in _ Hperm) in Hrow.
    subst keyed. apply in_map_iff in Hrow as (c & <- & Hc). simpl.
    rewrite List.Forall_forall in Hall. destruct (Hall c Hc) as [e ->].
    eexists. reflexivity.
  - intros Hnull Hlen.
    apply List.Exists_exists in Hnull as (c & Hc & Hnone).
    apply (semantic_results_null _ c).
    rewrite firstn_all2.
    + apply (Permutation_in _ (Permutation_sym Hperm)).
      subst keyed. apply in_map_iff. exists c. rewrite Hnone. split; [reflexivity | exact Hc].
    + rewrite (Permutation_length Hperm). subst keyed. rewrite length_map. exact Hlen.
Qed.

End NullEmbeddings.

(** X19. The semantic leg relies on every chunk having an embedding, as
    the worker stores them.  When all matching chunks have one, the leg
    returns for every limit that is not negative.  When a matching chunk
    has none and the limit is at least the number of matching chunks, the
    leg raises a [TypeError] on [1 - distance], and [hybrid_search], which
    asks the leg for 20 rows, raises it too once the query was embedded. *)
Theorem semantic_search_needs_embeddings {F : Type} {HF : search.PyFloat F}
    (pg : search_db.Pg F) (table : list models.Chunk.t)
    (query_embedding : embeddings.vector) (query : string) (user_id : uuid)
    (limit : Z) (filters : search_db.Filters) :
  0 <= limit ->
  let matching := List.filter (search_db.conditions user_id filters) table in
  (Forall (fun c => is_Some (models.Chunk.embedding c)) matching ->
   exists items,
     search_db.semantic_search pg table query_embedding user_id limit filters = inr items)
  /\ (Exists (fun c => models.Chunk.embedding c = None) matching ->
      ((length matching <= Z.to_nat limit)%nat ->
       search_db.semantic_search pg table query_embedding user_id limit filters
       = inl null_distance_error)
      /\ ((length matching <= 20)%nat ->
          forall generate_embeddings rest caller_limit,
            generate_embeddings [query] = inr (query_embedding :: rest) ->
            search_db.hybrid_search pg table (inr generate_embeddings) query user_id
              caller_limit filters
            = inl null_distance_error)).
Proof.
  intros Hlimit. cbv zeta.
  destruct (semantic_search_null pg table query_embedding user_id limit filters Hlimit)
    as [Hpresent Hnull].
  split; [exact Hpresent|]. intros Hexists. split; [exact (Hnull Hexists)|].
  intros Hlen generate_embeddings rest caller_limit Hembed.
  unfold search_db.hybrid_search. rewrite Hembed.
  destruct (semantic_search_null pg table query_embedding user_id 20 filters ltac:(lia))
    as [_ Hnull20].
  rewrite (Hnull20 Hexists Hlen). reflexivity.
Qed.

(** X20. [hybrid_search], on either path, returns only results that show
    stored chunks of the calling user passing the filters, and at most
    [limit] of them when the limit is not negative. *)
Theorem hybrid_search_stays_in_scope {F : Type} {HF : search.PyFloat F}
    (pg : search_db.Pg F) (table : list models.Chunk.t)
    (embedding_service : exn + (list string -> exn + list embeddings.vector))
    (query : string) (user_id : uuid) (limit : Z) (filters : search_db.Filters) :
  match search_db.hybrid_search pg table embedding_service query user_id limit filters with
  | inr items =>
      Forall (in_scope pg table user_id filters) items
      /\ (limit < 0 \/ (length items <= Z.to_nat limit)%nat)
  | inl _ => True
  end.
Proof.
  destruct (search_db.hybrid_search pg table embedding_service query user_id limit filters)
    as [e|items] eqn:Hrun; [exact Logic.I|].
  destruct (hybrid_search_scope pg table user_id filters _ _ _ _ Hrun) as [Hscope Hlen].
  split; [exact Hscope|].
  destruct (Z.ltb_spec limit 0) as [Hneg|Hnonneg]; [left; exact Hneg | right; auto].
Qed.

(** ** The filters of a request *)

Lemma search_filters_document_id env request :
  query.build_search_filters env request !! "document_id"
  = match query.filters request with
    | Some f =>
        match query.document_ids f with
        | Some (id :: ids) => Some (query.FDocuments (id :: ids))
        | _ => None
        end
    | None => None
    end.
Proof.
  unfold query.build_search_filters.
  set (base := match query.resolve_start_date env request with
               | Some start_date => <["start_date" := query.FDate start_date]> ∅
               | None => ∅
               end).
  assert (Hbase : base !! "document_id" = None).
  { subst base. destruct (query.resolve_start_date env request).
    - rewrite lookup_insert_ne by discriminate. apply lookup_empty.
    - apply lookup_empty. }
  destruct (query.filters request) as [f|]; [| exact Hbase].
  destruct (query.document_ids f) as [[|id ids]|]; try exact Hbase.
  apply lookup_insert_eq.
Qed.

Lemma search_filters_keys env request key :
  is_Some (query.build_search_filters env request !! key) ->
  key = "start_date" \/ key = "document_id".
Proof.
  unfold query.build_search_filters.
  set (base := match query.resolve_start_date env request with
               | Some start_date => <["start_date" := query.FDate start_date]> ∅
               | None => ∅
               end).
  assert (Hbase : is_Some (base !! key) -> key = "start_date").
  { subst base. destruct (query.resolve_start_date env request).
    - destruct (decide (key = "start_date")) as [->|Hne]; [reflexivity|].
      rewrite lookup_insert_ne by congruence. rewrite lookup_empty.
      intros [x Hx]. discriminate.
    - rewrite lookup_empty. intros [x Hx]. discriminate. }
  destruct (query.filters request) as [f|]; [| intros Hk; left; exact (Hbase Hk)].
  destruct (query.document_ids f) as [[|id ids]|];
    try (intros Hk; left; exact (Hbase Hk)).
  destruct (decide (key = "document_id")) as [->|Hne]; [right; reflexivity|].
  rewrite lookup_insert_ne by congruence. intros Hk. left. exact (Hbase Hk).
Qed.

(** The request with its [source_type] filter and the [end] of its date
    range replaced. *)
Definition with_end_and_source_type (request : query.QueryRequest)
    (end_value : option query.any) (source_type : option (list string))
    : query.QueryRequest :=
  {| query.query := query.query request;
     query.filters :=
       match query.filters request with
       | None => None
       | Some f =>
           Some {| query.date_range :=
                     match query.date_range f with
                     | None => None
                     | Some dr =>
                         Some match end_value with
                              | Some v => <["end" := v]> dr
                              | None => delete "end" dr
                              end
                     end;
                   query.source_type := source_type;
                   query.document_ids := query.document_ids f |}
       end |}.

Lemma explicit_start_ignores_end request end_value source_type :
  query.explicit_start (with_end_and_source_type request end_value source_type)
  = query.explicit_start request.
Proof.
  rewrite !explicit_start_spec. unfold spec_explicit_start, with_end_and_source_type.
  destruct (query.filters request) as [f|]; [| reflexivity]. simpl.
  destruct (query.date_range f) as [dr|]; [| reflexivity]. simpl.
  destruct end_value as [v|].
  - rewrite lookup_insert_ne by discriminate. reflexivity.
  - rewrite lookup_delete_ne by discriminate. reflexivity.
Qed.

(** X21. The search filters of a request have no entry other than
    [start_date] and [document_id]: the [end] of the date range and the
    [source_type] filter of the request are accepted and never used, so
    changing them changes nothing, and the [end_date] condition of the
    search legs is never switched on by the endpoint.  [document_id] is
    set exactly for a non-empty list of document ids. *)
Theorem request_end_and_source_type_are_ignored (env : query.QueryEnv)
    (request : query.QueryRequest) (end_value : option query.any)
    (source_type : option (list string)) :
  query.build_search_filters env (with_end_and_source_type request end_value source_type)
    = query.build_search_filters env request
  /\ search_db.end_date (search_db.filters_of (query.build_search_filters env request))
     = None
  /\ search_db.document_id (search_db.filters_of (query.build_search_filters env request))
     = match query.filters request with
       | Some f =>
           match query.document_ids f with
           | Some (id :: ids) => Some (search_db.DocList (id :: ids))
           | _ => None
           end
       | None => None
       end.
Proof.
  split; [| split].
  - unfold query.build_search_filters, query.resolve_start_date.
    rewrite explicit_start_ignores_end.
    unfold with_end_and_source_type. simpl.
    destruct (query.filters request) as [f|]; reflexivity.
  - unfold search_db.filters_of. simpl.
    destruct (query.build_search_filters env request !! "end_date") as [v|] eqn:Hend;
      [| reflexivity].
    destruct (search_filters_keys env request "end_date") as [H|H];
      [rewrite Hend; eexists; reflexivity | discriminate H | discriminate H].
  - unfold search_db.filters_of. simpl. rewrite search_filters_document_id.
    destruct (query.filters request) as [f|]; [| reflexivity].
    destruct (query.document_ids f) as [[|id ids]|]; reflexivity.
Qed.

(** ** The endpoint *)

(** A stored chunk that a request may cite: it belongs to the demo user,
    it was created at or after the start date the request resolves to,
    and it belongs to one of the requested documents when the request
    lists any. *)
Definition passes_request (env : query.QueryEnv) (request : query.QueryRequest)
    (c : models.Chunk.t) : Prop :=
  models.Chunk.user_id c = ingest.DEMO_USER_ID
  /\ match query.resolve_start_date env request with
     | Some start_date => start_date <= models.Chunk.created_at c
     | None => True
     end
  /\ match query.filters request with
     | Some f =>
         match query.document_ids f with
         | Some (id :: ids) => In (models.Chunk.document_id c) (id :: ids)
         | _ => True
         end
     | None => True
     end.

Lemma conditions_pass_request env request c :
  search_db.conditions ingest.DEMO_USER_ID
    (search_db.filters_of (query.build_search_filters env request)) c = true ->
  passes_request env request c.
Proof.
  unfold search_db.conditions, search_db.filters_of. simpl.
  rewrite search_filters_start_date, search_filters_document_id.
  intros Hcond.
  apply andb_true_iff in Hcond as [Hcond _].
  apply andb_true_iff in Hcond as [Hcond Hstart].
  apply andb_true_iff in Hcond as [Huser Hdoc].
  split; [apply String.eqb_eq; exact Huser|]. split.
  - destruct (query.resolve_start_date env request) as [start_date|]; [| exact Logic.I].
    simpl in Hstart. apply Z.leb_le. exact Hstart.
  - destruct (query.filters request) as [f|]; [| exact Logic.I].
    destruct (query.document_ids f) as [[|id ids]|]; try exact Logic.I.
    change (existsb (String.eqb (models.Chunk.document_id c)) (id :: ids) = true) in Hdoc.
    apply existsb_exists in Hdoc as (x & Hx & Heq).
    apply String.eqb_eq in Heq. rewrite Heq. exact Hx.
Qed.

Section EndpointFacts.
Context {F : Type} {HF : search.PyFloat F}.

Local Abbreviation Item := (search.SearchItem F search_db.Metadata).


(** X23. The query endpoint, end to end.  A failure of the search is
    answered with status 500 and the exception's text as detail.  When the
    search returns and the answering service is at hand, the endpoint
    responds: with the fixed text and no citation when no chunk was found,
    otherwise with the answer and the citations of [generate_answer] on
    the chunks found.  A response cites at most ten chunks, and every
    citation names the document of a stored chunk of the demo user that
    passes the request's filters: created at or after the resolved start
    date, and within the requested documents. *)
Theorem query_endpoint_cites_only_filtered_chunks (env : query.QueryEnv)
    (pg : search_db.Pg F) (table : list models.Chunk.t)
    (embedding_service : exn + (list string -> exn + list embeddings.vector))
    (llm_service : exn + llm.LLMService F) (request : query.QueryRequest) :
  let outcome :=
    query_api.query_endpoint env pg table embedding_service llm_service request in
  match search_db.hybrid_search pg table embedding_service (query.query request)
          ingest.DEMO_USER_ID 10
          (search_db.filters_of (query.build_search_filters env request)) with
  | inl e =>
      outcome = query_api.Raised {| ingest.status_code := 500;
                                    ingest.detail := exn_str e |}
  | inr chunks =>
      match llm_service with
      | inl e => outcome = query_api.Unhandled e
      | inr service =>
          exists response,
            outcome = query_api.Responded response
            /\ query_api.answer response
               = match chunks with
                 | [] => "No relevant information found."
                 | _ :: _ => fst (llm.generate_answer service (query.query request) chunks)
                 end
            /\ query_api.citations response
               = map query_api.response_citation
                     (snd (llm.generate_answer service (query.query request) chunks))
            /\ (length (query_api.citations response) <= 10)%nat
            /\ Forall (fun citation =>
                         exists c, In c table
                           /\ passes_request env request c
                           /\ query_api.document_id citation = models.Chunk.document_id c)
                      (query_api.citations response)
      end
  end.
Proof.
  cbv zeta. unfold query_api.query_endpoint.
  destruct (search_db.hybrid_search pg table embedding_service (query.query request)
              ingest.DEMO_USER_ID 10
              (search_db.filters_of (query.build_search_filters env request)))
    as [e|chunks] eqn:Hsearch; [reflexivity|].
  destruct llm_service as [e|service]; [reflexivity|].
  destruct (hybrid_search_scope pg table _ _ _ _ _ _ Hsearch) as [Hscope Hlen].
  specialize (Hlen ltac:(lia)).
  assert (Hcited : forall citations,
            citations = []
            \/ citations = map (fun p => llm.citation_of service (fst p) (snd p))
                               (combine (seq 0 (length chunks)) chunks) ->
            (length (map query_api.response_citation citations) <= 10)%nat
            /\ Forall (fun citation =>
                         exists c, In c table
                           /\ passes_request env request c
                           /\ query_api.document_id citation = models.Chunk.document_id c)
                      (map query_api.response_citation citations)).
  { intros citations [->| ->]; [split; [simpl; lia | constructor]|]. split.
    - rewrite !length_map, length_combine, length_seq.
      change (Z.to_nat 10) with 10%nat in Hlen. lia.
    - apply List.Forall_map. apply List.Forall_map.
      apply List.Forall_forall. intros [i item] Hin. simpl.
      apply in_combine_r in Hin.
      rewrite List.Forall_forall in Hscope.
      destruct (Hscope item Hin) as (c & Htable & Hcond & _ & Hdoc & _).
      exists c. split; [exact Htable|]. split; [| exact Hdoc].
      apply conditions_pass_request. exact Hcond. }
  pose proof (Hcited _ (generate_answer_citations service (query.query request) chunks))
    as [Hcount Hall].
  destruct chunks as [|chunk chunks'].
  - eexists. split; [reflexivity|]. cbn [query_api.answer query_api.citations].
    split; [reflexivity|].
    assert (Hnone : snd (llm.generate_answer service (query.query request) []) = [])
      by (unfold llm.generate_answer; destruct (llm.model service); reflexivity).
    rewrite Hnone. repeat split; [simpl; lia | constructor].
  - eexists. split; [reflexivity|]. cbn [query_api.answer query_api.citations].
    repeat split; assumption.
Qed.

End EndpointFacts.

(** *** What the model is shown *)

Lemma prefix_nil (s : string) : String.prefix "" s = true.
Proof. destruct s; reflexivity. Qed.

Lemma prefix_app (s after : string) : String.prefix s (s +:+ after) = true.
Proof.
  induction s as [|c s IH]; [apply prefix_nil|].
  change (String c s +:+ after) with (String c (s +:+ after)).
  cbn [String.prefix]. destruct (ascii_dec c c) as [_|Hne]; [exact IH | contradiction].
Qed.

Lemma prefix_app_l (needle hay after : string) :
  String.prefix needle hay = true -> String.prefix needle (hay +:+ after) = true.
Proof.
  revert hay. induction needle as [|c needle IH]; intros hay; [intros _; apply prefix_nil|].
  destruct hay as [|d hay]; [discriminate|].
  change (String d hay +:+ after) with (String d (hay +:+ after)).
  cbn [String.prefix]. destruct (ascii_dec c d); [apply IH | discriminate].
Qed.

Lemma contains_prefix (needle hay : string) :
  String.prefix needle hay = true -> py.contains needle hay = true.
Proof. intros Hp. destruct hay; cbn [py.contains]; rewrite Hp; reflexivity. Qed.

Lemma contains_app_l (needle hay after : string) :
  py.contains needle hay = true -> py.contains needle (hay +:+ after) = true.
Proof.
  induction hay as [|c hay IH].
  - cbn [py.contains]. rewrite orb_false_r. intros Hp.
    apply contains_prefix. exact (prefix_app_l _ _ after Hp).
  - change (String c hay +:+ after) with (String c (hay +:+ after)).
    cbn [py.contains]. intros Hin. apply orb_true_iff in Hin as [Hp|Hin].
    + pose proof (prefix_app_l _ _ after Hp) as Hp'.
      change (String c hay +:+ after) with (String c (hay +:+ after)) in Hp'.
      rewrite Hp'. reflexivity.
    + rewrite (IH Hin). apply orb_true_r.
Qed.

Lemma contains_here (needle after : string) : py.contains needle (needle +:+ after) = true.
Proof. apply contains_prefix, prefix_app. Qed.

Section PromptFacts.
Context {F : Type} {HF : search.PyFloat F}.

Local Abbreviation Item := (search.SearchItem F search_db.Metadata).

Lemma format_context_texts (self : llm.LLMService F) i (chunks : list Item)
    context_str citations needle :
  py.contains needle context_str = true
  \/ (exists chunk, In chunk chunks /\ needle = search.text chunk) ->
  py.contains needle (fst (llm.format_context self i chunks context_str citations)) = true.
Proof.
  revert i context_str citations.
  induction chunks as [|chunk chunks IH]; intros i context_str citations; simpl.
  - intros [Hin | (chunk & [] & _)]. exact Hin.
  - intros Hcases. apply IH.
    destruct Hcases as [Hin | (chunk' & [<-|Hlater] & ->)].
    + left. apply contains_app_l. exact Hin.
    + left. do 5 apply contains_app_r. apply contains_here.
    + right. exists chunk'. split; [exact Hlater | reflexivity].
Qed.

(** X24. The prompt.  With a model at hand and at least one chunk, the
    model is called once, with a prompt that contains the full text of
    every chunk and the question; its answer is returned with the
    citations, and when it raises the answer is the fixed error text with
    no citation. *)
Theorem prompt_holds_every_chunk (self : llm.LLMService F)
    (generate_content : string -> exn + string) (query : string) (chunks : list Item) :
  llm.model self = Some generate_content ->
  chunks <> [] ->
  exists prompt,
    Forall (fun chunk => py.contains (search.text chunk) prompt = true) chunks
    /\ py.contains query prompt = true
    /\ llm.generate_answer self query chunks
       = match generate_content prompt with
         | inr answer_text =>
             (answer_text,
              map (fun p => llm.citation_of self (fst p) (snd p))
                  (combine (seq 0 (length chunks)) chunks))
         | inl _ => ("Error generating answer.", [])
         end.
Proof.
  intros Hmodel Hne.
  exists (llm.prompt_of (fst (llm.format_context self 0 chunks "" [])) query).
  split; [| split].
  - apply List.Forall_forall. intros chunk Hin. unfold llm.prompt_of.
    do 11 apply contains_app_r. apply contains_app_l.
    apply format_context_texts. right. exists chunk. split; [exact Hin | reflexivity].
  - unfold llm.prompt_of. do 15 apply contains_app_r. apply contains_here.
  - unfold llm.generate_answer. rewrite Hmodel.
    destruct chunks as [|chunk chunks']; [contradiction|].
    pose proof (format_context_citations self 0 (chunk :: chunks') "" []) as Hcit.
    destruct (llm.format_context self 0 (chunk :: chunks') "" [])
      as [context_str citations].
    simpl in Hcit. simpl fst. rewrite Hcit. reflexivity.
Qed.

End PromptFacts.

(** ** A search backend and an answering model for the runs below *)

Definition demo_pg : search_db.Pg Q :=
  {| search_db.cosine_distance := fun _ _ => (1 # 4)%Q;
     search_db.f_sub := Qminus;
     search_db.ts_match := fun query text => py.contains query text;
     search_db.ts_rank := fun _ _ => (1 # 10)%Q;
     search_db.isoformat := fun t => pretty t;
     search_db.data_error_str := fun _ =>
       "(psycopg.errors.InvalidRowCountInLimitClause) LIMIT must not be negative" |}.

(** The stored chunk of the upsert example, and the same chunk before
    any embedding was stored for it. *)
Definition chunk_without_embedding : models.Chunk.t :=
  {| models.Chunk.chunk_id := "chunk-1"; models.Chunk.user_id := "user-0";
     models.Chunk.document_id := "doc-1"; models.Chunk.chunk_index := 1;
     models.Chunk.text := "Alpha beta.";
     models.Chunk.embedding := None;
     models.Chunk.source_ref := ∅;
     models.Chunk.page_number := None;
     models.Chunk.section_heading := None; models.Chunk.speaker := None;
     models.Chunk.start_offset := None; models.Chunk.end_offset := None;
     models.Chunk.content_time_start := None;
     models.Chunk.created_at := 1762000000000000 |}.

Definition demo_llm : llm.LLMService Q :=
  {| llm.model := Some (fun _ => inr "Alpha comes first [1].");
     llm.truthy := fun q => negb (Qeq_bool q 0) |}.

Definition demo_result : search.SearchItem Q search_db.Metadata :=
  search_db.keyword_item demo_pg (stored_chunk, (1 # 10)%Q).

Lemma semantic_search_needs_embeddings_witness :
  search_db.semantic_search demo_pg [stored_chunk; chunk_without_embedding]
    [1 # 2]%Q "user-0" 20 search_db.no_filters
  = inl null_distance_error.
Proof.
  refine (proj1 (proj2 (semantic_search_needs_embeddings demo_pg
                          [stored_chunk; chunk_without_embedding] [1 # 2]%Q "Alpha"
                          "user-0" 20 search_db.no_filters _) _) _).
  - lia.
  - apply List.Exists_cons_tl. apply List.Exists_cons_hd. reflexivity.
  - simpl. lia.
Defined.

Lemma prompt_holds_every_chunk_witness :
  exists prompt,
    py.contains "First run." prompt = true
    /\ py.contains "What comes first?" prompt = true
    /\ fst (llm.generate_answer demo_llm "What comes first?" [demo_result])
       = "Alpha comes first [1].".
Proof.
  destruct (prompt_holds_every_chunk demo_llm (fun _ => inr "Alpha comes first [1].")
              "What comes first?" [demo_result])
    as (prompt & Htexts & Hquery & Hrun).
  - reflexivity.
  - discriminate.
  - exists prompt. inversion Htexts as [|? ? Htext _]; subst.
    split; [exact Htext|]. split; [exact Hquery|]. rewrite Hrun. reflexivity.
Defined.

(* ===================================================================== *)
(** * Part VI. The ingestion endpoints                                     *)
(* ===================================================================== *)

Module ingest_api.
Import models.

(** The collaborators of one request: the clock ([utcnow n] is its
    [n]-th reading), [uuid.uuid4] likewise, the configured size limit,
    [str.lower], the exceptions that reading the upload, the storage
    backend, [session.commit] and [run_ingestion_job] may raise. *)
Record Env := {
  utcnow : nat -> datetime;
  uuid4 : nat -> uuid;
  MAX_DIRECT_UPLOAD_BYTES : Z;
  lower : string -> string;
  allowed_repr : string;
  read_fault : option exn;
  storage_fault : option exn;
  commit_fault : option exn;
  run_ingestion_job : uuid -> option exn
}.

(** The database with its users table, the storage backend, and the jobs
    handed to the runner. *)
Record State := {
  db : worker.DB;
  users : gset uuid;
  storage_backend : storage.InMemoryStorageMock;
  triggered : list uuid
}.

Record SubmitRequest := {
  title : string;
  source_type : DocumentSourceType;
  source_uri : string
}.

Record UploadFile := {
  filename : option string;
  content : string;
  content_type : option string
}.

Record Accepted := {
  job_id : uuid;
  document_id : uuid;
  status : string
}.

(** The [Job(...)] row both endpoints add. *)
Definition new_job (env : Env) (job_id document_id : uuid) : Job.t :=
  {| Job.job_id := job_id;
     Job.user_id := ingest.DEMO_USER_ID;
     Job.document_id := document_id;
     Job.status := pending;
     Job.error_message := None;
     Job.created_at := utcnow env 1;
     Job.updated_at := utcnow env 2 |}.

(** [await db.commit()] of the demo user (added when missing), the
    document and the job: one transaction; a primary key that already
    exists makes it fail. *)
Definition commit (env : Env) (st : State) (document : Document.t) (job : Job.t)
    : exn + State :=
  match commit_fault env with
  | Some e => inl e
  | None =>
      if bool_decide (is_Some (worker.documents (db st) !! Document.document_id document)
                      \/ is_Some (worker.jobs (db st) !! Job.job_id job))
      then inl (Exc "IntegrityError" "duplicate key value violates unique constraint")
      else
        inr {| db := {| worker.jobs := <[Job.job_id job := job]> (worker.jobs (db st));
                        worker.documents :=
                          <[Document.document_id document := document]>
                            (worker.documents (db st));
                        worker.chunks := worker.chunks (db st) |};
               users := {[ ingest.DEMO_USER_ID ]} ∪ users st;
               storage_backend := storage_backend st;
               triggered := triggered st |}
  end.

(** The [try: commit; run_ingestion_job ... except: rollback; raise 500]
    block.  A rollback after the commit has nothing to undo. *)
Definition commit_and_trigger (env : Env) (st : State) (error_prefix : string)
    (document : Document.t) (job : Job.t)
    : (ingest.HTTPException + Accepted) * State :=
  match commit env st document job with
  | inl e =>
      (inl {| ingest.status_code := 500;
              ingest.detail := error_prefix +:+ exn_str e |}, st)
  | inr st' =>
      match run_ingestion_job env (Job.job_id job) with
      | Some e =>
          (inl {| ingest.status_code := 500;
                  ingest.detail := error_prefix +:+ exn_str e |}, st')
      | None =>
          (inr {| job_id := Job.job_id job;
                  document_id := Document.document_id document;
                  status := "pending" |},
           {| db := db st'; users := users st';
              storage_backend := storage_backend st';
              triggered := triggered st' ++ [Job.job_id job] |})
      end
  end.

(** [submit_ingestion_job] *)
Definition submit_ingestion_job (env : Env) (request : SubmitRequest) (st : State)
    : (ingest.HTTPException + Accepted) * State :=
  let document_id := uuid4 env 0 in
  let doc :=
    ingest.uploaded_document document_id (utcnow env 0) (source_type request)
      (title request) (source_uri request) in
  let job_id := uuid4 env 1 in
  commit_and_trigger env st "Failed to submit job: " doc (new_job env job_id document_id).

(** [upload_document] *)
Definition upload_document (env : Env) (file : UploadFile) (st : State)
    : (ingest.HTTPException + Accepted) * State :=
  let size := Z.of_nat (String.length (content file)) in
  if size >? MAX_DIRECT_UPLOAD_BYTES env then
    (inl {| ingest.status_code := 413;
            ingest.detail :=
              "File too large (" +:+ pretty size +:+ " bytes). Max " +:+
              pretty (MAX_DIRECT_UPLOAD_BYTES env) +:+ ". Use signed URL upload flow." |},
     st)
  else
    match filename file with
    | None =>
        (inl {| ingest.status_code := 400; ingest.detail := "Filename is missing" |}, st)
    | Some name =>
        if String.eqb name "" then
          (inl {| ingest.status_code := 400; ingest.detail := "Filename is missing" |}, st)
        else
          match ingest.validate_file_extension (lower env) (allowed_repr env) name with
          | inl error => (inl error, st)
          | inr ext =>
              let source_type := ingest.determine_source_type ext in
              match read_fault env with
              | Some e =>
                  (inl {| ingest.status_code := 500;
                          ingest.detail := "Failed to read file: " +:+ exn_str e |}, st)
              | None =>
                  let document_id := uuid4 env 0 in
                  match storage_fault env with
                  | Some e =>
                      (inl {| ingest.status_code := 500;
                              ingest.detail := "Storage upload failed: " +:+ exn_str e |},
                       st)
                  | None =>
                      let '(source_uri, backend) :=
                        storage.upload_raw_artifact (storage_backend st) (content file)
                          name ingest.DEMO_USER_ID document_id in
                      let stored :=
                        {| db := db st; users := users st;
                           storage_backend := backend; triggered := triggered st |} in
                      let doc :=
                        ingest.uploaded_document document_id (utcnow env 0) source_type
                          name source_uri in
                      let job_id := uuid4 env 1 in
                      commit_and_trigger env stored
                        "Database error (ensure user exists): " doc
                        (new_job env job_id document_id)
                  end
              end
          end
    end.

End ingest_api.

(** ** What an ingestion request leaves behind *)

(** The rows of an accepted request are in the database, and the job has
    been handed to the runner. *)
Definition rows_stored (env : ingest_api.Env) (document : models.Document.t)
    (before after : ingest_api.State) : Prop :=
  let job_id := ingest_api.uuid4 env 1 in
  let document_id := ingest_api.uuid4 env 0 in
  models.Document.document_id document = document_id
  /\ worker.documents (ingest_api.db before) !! document_id = None
  /\ worker.jobs (ingest_api.db before) !! job_id = None
  /\ worker.documents (ingest_api.db after)
     = <[document_id := document]> (worker.documents (ingest_api.db before))
  /\ worker.jobs (ingest_api.db after)
     = <[job_id := ingest_api.new_job env job_id document_id]>
         (worker.jobs (ingest_api.db before))
  /\ worker.chunks (ingest_api.db after) = worker.chunks (ingest_api.db before).

Lemma commit_and_trigger_outcomes env st prefix document job_id :
  models.Document.document_id document = ingest_api.uuid4 env 0 ->
  job_id = ingest_api.uuid4 env 1 ->
  let job := ingest_api.new_job env job_id (ingest_api.uuid4 env 0) in
  let run := ingest_api.commit_and_trigger env st prefix document job in
  ingest_api.storage_backend (snd run) = ingest_api.storage_backend st
  /\ match fst run with
     | inr accepted =>
         accepted = {| ingest_api.job_id := job_id;
                       ingest_api.document_id := ingest_api.uuid4 env 0;
                       ingest_api.status := "pending" |}
         /\ rows_stored env document st (snd run)
         /\ ingest_api.triggered (snd run) = ingest_api.triggered st ++ [job_id]
     | inl error =>
         ingest.status_code error = 500
         /\ ingest_api.triggered (snd run) = ingest_api.triggered st
         /\ (ingest_api.db (snd run) = ingest_api.db st
             \/ (exists e, ingest_api.run_ingestion_job env job_id = Some e
                           /\ ingest.detail error = prefix +:+ exn_str e)
                /\ rows_stored env document st (snd run))
     end.
Proof.
  intros Hdoc ->. cbv zeta.
  unfold ingest_api.commit_and_trigger, ingest_api.commit.
  destruct (ingest_api.commit_fault env) as [e|].
  { simpl. repeat split. left. reflexivity. }
  destruct (bool_decide_reflect
              (is_Some (worker.documents (ingest_api.db st)
                          !! models.Document.document_id document)
               \/ is_Some (worker.jobs (ingest_api.db st)
                             !! models.Job.job_id
                                  (ingest_api.new_job env (ingest_api.uuid4 env 1)
                                     (ingest_api.uuid4 env 0)))))
    as [Hconflict|Hfresh].
  { simpl. repeat split. left. reflexivity. }
  assert (Hstored : forall after,
            ingest_api.db after
            = {| worker.jobs :=
                   <[ingest_api.uuid4 env 1 :=
                       ingest_api.new_job env (ingest_api.uuid4 env 1)
                         (ingest_api.uuid4 env 0)]>
                     (worker.jobs (ingest_api.db st));
                 worker.documents :=
                   <[models.Document.document_id document := document]>
                     (worker.documents (ingest_api.db st));
                 worker.chunks := worker.chunks (ingest_api.db st) |} ->
            rows_stored env document st after).
  { intros after Hafter. unfold rows_stored. cbv zeta. rewrite Hafter. simpl.
    rewrite <- Hdoc.
    split; [reflexivity|]. split.
    { destruct (worker.documents (ingest_api.db st)
                  !! models.Document.document_id document) eqn:Hd; [| reflexivity].
      exfalso. apply Hfresh. left. eexists. reflexivity. }
    split.
    { simpl in Hfresh.
      destruct (worker.jobs (ingest_api.db st) !! ingest_api.uuid4 env 1) eqn:Hj;
        [| reflexivity].
      exfalso. apply Hfresh. right. eexists. reflexivity. }
    repeat split. }
  simpl models.Job.job_id.
  destruct (ingest_api.run_ingestion_job env (ingest_api.uuid4 env 1)) as [e|]; simpl.
  - split; [reflexivity|]. split; [reflexivity|]. split; [reflexivity|].
    right. split; [exists e; split; reflexivity|].
    apply Hstored. reflexivity.
  - split; [reflexivity|]. split; [rewrite Hdoc; reflexivity|].
    split; [apply Hstored; reflexivity | reflexivity].
Qed.

(** X25. What [upload_document] leaves behind.  When it accepts the
    file, the file name passed validation, the artefact is in the storage
    backend under the returned URI, the database has gained exactly one
    document row (pending, of the kind derived from the extension, with
    that URI) and one pending job row for it under fresh ids, and the job
    has been handed to the runner.  When it answers with an error, the
    status is 413, 400 or 500 and no job was handed to the runner; the
    database is as it was, unless the runner itself raised after the
    commit, in which case the rows are stored although the client is told
    500. *)
Theorem upload_document_outcomes (env : ingest_api.Env) (file : ingest_api.UploadFile)
    (st : ingest_api.State) :
  let run := ingest_api.upload_document env file st in
  let document_id := ingest_api.uuid4 env 0 in
  let job_id := ingest_api.uuid4 env 1 in
  match fst run with
  | inr accepted =>
      accepted = {| ingest_api.job_id := job_id; ingest_api.document_id := document_id;
                    ingest_api.status := "pending" |}
      /\ exists name ext,
           ingest_api.filename file = Some name
           /\ ingest.validate_file_extension (ingest_api.lower env)
                (ingest_api.allowed_repr env) name = inr ext
           /\ let uri := storage.artifact_uri
                           (storage.bucket_name (ingest_api.storage_backend st))
                           name ingest.DEMO_USER_ID document_id in
              rows_stored env
                (ingest.uploaded_document document_id (ingest_api.utcnow env 0)
                   (ingest.determine_source_type ext) name uri)
                st (snd run)
              /\ storage.get_object (ingest_api.storage_backend (snd run)) uri
                 = Some (ingest_api.content file)
              /\ ingest_api.triggered (snd run) = ingest_api.triggered st ++ [job_id]
  | inl error =>
      In (ingest.status_code error) [413; 400; 500]
      /\ ingest_api.triggered (snd run) = ingest_api.triggered st
      /\ (ingest_api.db (snd run) = ingest_api.db st
          \/ (exists e, ingest_api.run_ingestion_job env job_id = Some e)
             /\ exists document, rows_stored env document st (snd run))
  end.
Proof.
  cbv zeta. unfold ingest_api.upload_document.
  destruct (_ >? _).
  { simpl. split; [left; reflexivity|]. split; [reflexivity | left; reflexivity]. }
  destruct (ingest_api.filename file) as [name|] eqn:Hname.
  2:{ simpl. split; [right; left; reflexivity|]. split; [reflexivity | left; reflexivity]. }
  destruct (String.eqb name "").
  { simpl. split; [right; left; reflexivity|]. split; [reflexivity | left; reflexivity]. }
  destruct (ingest.validate_file_extension _ _ name) as [error|ext] eqn:Hvalid.
  { simpl. split; [| split; [reflexivity | left; reflexivity]].
    unfold ingest.validate_file_extension in Hvalid.
    destruct (negb _); [| discriminate]. inversion Hvalid; subst. right. left. reflexivity. }
  destruct (ingest_api.read_fault env) as [e|].
  { simpl. split; [right; right; left; reflexivity|].
    split; [reflexivity | left; reflexivity]. }
  destruct (ingest_api.storage_fault env) as [e|].
  { simpl. split; [right; right; left; reflexivity|].
    split; [reflexivity | left; reflexivity]. }
  cbn [storage.upload_raw_artifact].
  set (uri := storage.artifact_uri _ name ingest.DEMO_USER_ID (ingest_api.uuid4 env 0)).
  set (stored := {| ingest_api.db := ingest_api.db st |}).
  set (doc := ingest.uploaded_document _ _ _ name uri).
  destruct (commit_and_trigger_outcomes env stored
              "Database error (ensure user exists): " doc (ingest_api.uuid4 env 1)
              eq_refl eq_refl) as [Hstorage Hrun].
  destruct (fst (ingest_api.commit_and_trigger env stored _ doc _)) as [error|accepted].
  - destruct Hrun as (Hstatus & Htriggered & Hdb).
    split; [rewrite Hstatus; right; right; left; reflexivity|].
    split; [exact Htriggered|].
    destruct Hdb as [Hsame | [(e & He & _) Hrows]]; [left; exact Hsame | right].
    split; [exists e; exact He | exists doc; exact Hrows].
  - destruct Hrun as (Haccepted & Hrows & Htriggered).
    split; [exact Haccepted|].
    exists name, ext. split; [reflexivity|]. split; [exact Hvalid|]. cbv zeta.
    split; [exact Hrows|]. split; [| exact Htriggered].
    rewrite Hstorage. unfold storage.get_object. simpl.
    apply lookup_insert_eq.
Qed.

(** X26. An upload whose commit fails leaves its artefact behind: the
    file has then been written to the storage backend, the client is told
    500 with the commit's exception, the database has no row for it, and
    nothing removes the artefact. *)
Theorem failed_commit_leaves_artefact (env : ingest_api.Env)
    (file : ingest_api.UploadFile) (st : ingest_api.State) (name ext : string) (e : exn) :
  Z.of_nat (String.length (ingest_api.content file))
    <= ingest_api.MAX_DIRECT_UPLOAD_BYTES env ->
  ingest_api.filename file = Some name ->
  name <> "" ->
  ingest.validate_file_extension (ingest_api.lower env) (ingest_api.allowed_repr env) name
    = inr ext ->
  ingest_api.read_fault env = None ->
  ingest_api.storage_fault env = None ->
  ingest_api.commit_fault env = Some e ->
  let run := ingest_api.upload_document env file st in
  fst run = inl {| ingest.status_code := 500;
                   ingest.detail := "Database error (ensure user exists): " +:+ exn_str e |}
  /\ ingest_api.db (snd run) = ingest_api.db st
  /\ storage.get_object (ingest_api.storage_backend (snd run))
       (storage.artifact_uri (storage.bucket_name (ingest_api.storage_backend st))
          name ingest.DEMO_USER_ID (ingest_api.uuid4 env 0))
     = Some (ingest_api.content file).
Proof.
  intros Hsize Hname Hnonempty Hvalid Hread Hstorage Hcommit. cbv zeta.
  unfold ingest_api.upload_document.
  destruct (Z.gtb_spec (Z.of_nat (String.length (ingest_api.content file)))
              (ingest_api.MAX_DIRECT_UPLOAD_BYTES env)); [lia|].
  rewrite Hname. destruct (String.eqb_spec name ""); [contradiction|].
  rewrite Hvalid, Hread, Hstorage.
  cbn [storage.upload_raw_artifact].
  unfold ingest_api.commit_and_trigger, ingest_api.commit. rewrite Hcommit. simpl.
  split; [reflexivity|]. split; [reflexivity|].
  unfold storage.get_object. simpl. apply lookup_insert_eq.
Qed.

Definition demo_ingest_env (commit_fault : option exn) : ingest_api.Env :=
  {| ingest_api.utcnow := fun n => 1762128000000000 + Z.of_nat n;
     ingest_api.uuid4 := fun n => "new-" +:+ pretty n;
     ingest_api.MAX_DIRECT_UPLOAD_BYTES := 10485760;
     ingest_api.lower := py.ascii_lower;
     ingest_api.allowed_repr := "{...}";
     ingest_api.read_fault := None;
     ingest_api.storage_fault := None;
     ingest_api.commit_fault := commit_fault;
     ingest_api.run_ingestion_job := fun _ => None |}.

Definition demo_ingest_state : ingest_api.State :=
  {| ingest_api.db := demo_db;
     ingest_api.users := ∅;
     ingest_api.storage_backend :=
       {| storage.bucket_name := "mock-bucket"; storage._store := ∅ |};
     ingest_api.triggered := [] |}.

Definition demo_upload : ingest_api.UploadFile :=
  {| ingest_api.filename := Some "notes.txt";
     ingest_api.content := "Alpha beta.Gamma delta.";
     ingest_api.content_type := Some "text/plain" |}.

Lemma failed_commit_leaves_artefact_witness :
  ingest_api.db
    (snd (ingest_api.upload_document
            (demo_ingest_env (Some (Exc "OperationalError" "connection lost")))
            demo_upload demo_ingest_state))
  = demo_db
  /\ storage.get_object
       (ingest_api.storage_backend
          (snd (ingest_api.upload_document
                  (demo_ingest_env (Some (Exc "OperationalError" "connection lost")))
                  demo_upload demo_ingest_state)))
       "gs://mock-bucket/00000000-0000-0000-0000-000000000000/new-0/notes.txt"
     = Some "Alpha beta.Gamma delta.".
Proof.
  refine (proj2 (failed_commit_leaves_artefact
                   (demo_ingest_env (Some (Exc "OperationalError" "connection lost")))
                   demo_upload demo_ingest_state "notes.txt" ".txt"
                   (Exc "OperationalError" "connection lost") _ eq_refl _ _
                   eq_refl eq_refl eq_refl)).
  - vm_compute. discriminate.
  - discriminate.
  - vm_compute. reflexivity.
Defined.

(** X27. The submit endpoint takes the document kind from the client,
    and so accepts kinds that the worker cannot process: a job accepted
    by [submit_ingestion_job] for a web or image document always fails in
    [process_job] with the no-chunks error, and no chunk is stored. *)
Theorem submitted_web_job_always_fails (env : ingest_api.Env)
    (request : ingest_api.SubmitRequest) (st st' : ingest_api.State)
    (accepted : ingest_api.Accepted) (worker_env : worker.Env) :
  ingest_api.submit_ingestion_job env request st = (inr accepted, st') ->
  ingest_api.source_type request = models.web
  \/ ingest_api.source_type request = models.image ->
  worker.db_fault worker_env worker.OpClaimUpdate = None ->
  worker.db_fault worker_env worker.OpClaimCommit = None ->
  worker.db_fault worker_env worker.OpLoadJob = None ->
  worker.db_fault worker_env worker.OpLoadDocument = None ->
  worker.services_fault worker_env = None ->
  exists w',
    worker.process_job worker_env (ingest_api.job_id accepted)
      (worker.open_session (ingest_api.db st'))
    = (inl (RuntimeError (worker.no_chunks_message (ingest_api.document_id accepted))),
       w')
    /\ worker.chunks (worker.committed w') = worker.chunks (ingest_api.db st).
Proof.
  intros Hsubmit Hkind Hupdate Hcommit Hload Hloaddoc Hservices.
  unfold ingest_api.submit_ingestion_job in Hsubmit.
  set (doc := ingest.uploaded_document _ _ _ _ _) in Hsubmit.
  destruct (commit_and_trigger_outcomes env st "Failed to submit job: " doc
              (ingest_api.uuid4 env 1) eq_refl eq_refl) as [_ Hrun].
  rewrite Hsubmit in Hrun. simpl in Hrun.
  destruct Hrun as (-> & (_ & _ & _ & Hdocs & Hjobs & Hchunks) & _).
  simpl.
  set (w := worker.open_session (ingest_api.db st')).
  set (job := ingest_api.new_job env (ingest_api.uuid4 env 1) (ingest_api.uuid4 env 0)).
  assert (Hj : worker.jobs (worker.session w) !! ingest_api.uuid4 env 1 = Some job).
  { subst w. simpl. rewrite Hjobs. apply lookup_insert_eq. }
  assert (Hd : worker.documents (worker.session w) !! models.Job.document_id job
               = Some doc).
  { subst w. simpl. rewrite Hdocs. apply lookup_insert_eq. }
  pose proof (claim_pending worker_env (ingest_api.uuid4 env 1) w job
                Hupdate Hcommit Hj eq_refl) as Hclaim.
  assert (Hempty : fst (worker.extract_chunks worker_env doc w) = inr []).
  { rewrite unsupported_kind_no_chunks; [reflexivity|]. exact Hkind. }
  destruct (pipeline_no_chunks worker_env (ingest_api.uuid4 env 1) job w doc
              Hload Hloaddoc Hservices Hd Hempty) as (w2 & Hpipe).
  destruct (process_job_failure worker_env (ingest_api.uuid4 env 1) w _ _ w2 Hclaim Hpipe)
    as (w' & Hfail & Hkept & _).
  exists w'. split; [exact Hfail|].
  rewrite Hkept. simpl. exact Hchunks.
Qed.

Lemma submitted_web_job_always_fails_witness :
  exists w',
    worker.process_job (demo_env no_faults embed_ok) "new-1"
      (worker.open_session
         (ingest_api.db
            (snd (ingest_api.submit_ingestion_job (demo_ingest_env None)
                    {| ingest_api.title := "page";
                       ingest_api.source_type := models.web;
                       ingest_api.source_uri := "https://example.org" |}
                    demo_ingest_state))))
    = (inl (RuntimeError (worker.no_chunks_message "new-0")), w').
Proof.
  destruct (submitted_web_job_always_fails (demo_ingest_env None)
              {| ingest_api.title := "page"; ingest_api.source_type := models.web;
                 ingest_api.source_uri := "https://example.org" |}
              demo_ingest_state _ _ (demo_env no_faults embed_ok) eq_refl
              (or_introl eq_refl) eq_refl eq_refl eq_refl eq_refl eq_refl)
    as (w' & Hrun & _).
  exists w'. exact Hrun.
Defined.


(* ===================================================================== *)
(** * Part VII. Time ranges of transcript chunks                           *)
(* ===================================================================== *)

Lemma last_cons_default {A : Type} (l : list A) (x y : A) :
  List.last (y :: l) x = List.last l y.
Proof.
  revert x y. induction l as [|a l IH]; intros x y; [reflexivity|].
  change (List.last (y :: a :: l) x) with (List.last (a :: l) x).
  rewrite (IH x a), (IH y a). reflexivity.
Qed.

Section Timeline.
Context {A : Type}.
Variables first_time last_time : A -> Q.

(** The start and end times of a list of timed things, in order. *)
Definition timeline (l : list A) : list Q :=
  flat_map (fun a => [first_time a; last_time a]) l.

Lemma timeline_app (l1 l2 : list A) :
  timeline (l1 ++ l2) = timeline l1 ++ timeline l2.
Proof. apply flat_map_app. Qed.

Lemma timeline_cons (x : A) (l : list A) :
  timeline (x :: l) = first_time x :: last_time x :: timeline l.
Proof. reflexivity. Qed.

Lemma last_time_in_timeline (x : A) (l : list A) :
  [last_time (List.last l x)] `sublist_of` timeline (x :: l).
Proof.
  revert x. induction l as [|y l IH]; intros x.
  - simpl. apply sublist_cons. apply sublist_skip. apply sublist_nil.
  - rewrite last_cons_default.
    rewrite timeline_cons. do 2 apply sublist_cons. apply IH.
Qed.

(** The first start and the last end, as they occur in the timeline. *)
Lemma ends_in_timeline (x : A) (l : list A) :
  [first_time x; last_time (List.last l x)] `sublist_of` timeline (x :: l).
Proof.
  destruct l as [|y l].
  - simpl. apply sublist_skip. apply sublist_skip. apply sublist_nil.
  - rewrite last_cons_default.
    rewrite timeline_cons.
    apply sublist_skip. apply sublist_cons. apply last_time_in_timeline.
Qed.

End Timeline.

Lemma Forall_sublist_of {A : Type} (P : A -> Prop) (l k : list A) :
  l `sublist_of` k -> Forall P k -> Forall P l.
Proof.
  induction 1 as [|x l k _ IH|x l k _ IH]; intros Hall.
  - constructor.
  - inversion Hall; subst. constructor; [assumption | apply IH; assumption].
  - inversion Hall; subst. apply IH. assumption.
Qed.

Lemma StronglySorted_sublist_of {A : Type} (R : A -> A -> Prop) (l k : list A) :
  l `sublist_of` k -> StronglySorted R k -> StronglySorted R l.
Proof.
  induction 1 as [|x l k Hsub IH|x l k Hsub IH]; intros Hsorted.
  - constructor.
  - inversion Hsorted as [|? ? Hrest Hall]; subst.
    constructor; [apply IH; exact Hrest | exact (Forall_sublist_of _ _ _ Hsub Hall)].
  - inversion Hsorted; subst. apply IH. assumption.
Qed.

(** The times of the aligned sentences occur, in order, among the times
    of the words. *)
Lemma align_sentences_timeline tt sentences words :
  timeline chunking.ts_start_time chunking.ts_end_time
    (chunking.align_sentences tt sentences words)
  `sublist_of` timeline transcription.start_time transcription.end_time words.
Proof.
  revert words. induction sentences as [|sent_text sentences IH]; intros words; simpl.
  - apply sublist_nil_l.
  - destruct (chunking.consume_words tt _ words "" []) as [sent_words remaining] eqn:Hc.
    apply consume_words_splits in Hc. simpl in Hc. rewrite <- Hc.
    destruct sent_words as [|w0 ws].
    + simpl. apply IH.
    + rewrite timeline_app.
      rewrite (timeline_cons chunking.ts_start_time).
      change (?a :: ?b :: ?l) with ([a; b] ++ l).
      apply sublist_app; [| apply IH].
      apply (ends_in_timeline transcription.start_time transcription.end_time w0 ws).
Qed.

(** X28. Time ranges.  Every chunk of [chunk_transcript] has a start time
    and an end time, and the two occur in this order among the start and
    end times of the words.  So when the words come in time order (each
    starts no later than it ends, and no earlier than the one before it
    ends) no chunk starts after it ends. *)
Theorem transcript_chunk_times_ordered tt transcript words max_tokens overlap_tokens :
  StronglySorted Qle (timeline transcription.start_time transcription.end_time words) ->
  Forall (fun c => exists s e,
            chunking.start_time c = Some s
            /\ chunking.end_time c = Some e
            /\ [s; e] `sublist_of`
                 timeline transcription.start_time transcription.end_time words
            /\ (s <= e)%Q)
         (chunking.chunk_transcript tt transcript words max_tokens overlap_tokens).
Proof.
  intros Hsorted.
  rewrite chunk_transcript_of_groups.
  apply List.Forall_map.
  eapply List.Forall_impl;
    [| apply (pack_groups_runs chunking.ts_token_count max_tokens overlap_tokens)].
  intros [idx g] [Hne (before & after & Hrun)]. simpl in *.
  destruct g as [|s0 rest]; [contradiction|].
  exists (chunking.ts_start_time s0), (chunking.ts_end_time (List.last rest s0)).
  split; [reflexivity|]. split; [reflexivity|].
  assert (Hsub : [chunking.ts_start_time s0; chunking.ts_end_time (List.last rest s0)]
                 `sublist_of`
                 timeline transcription.start_time transcription.end_time words).
  { transitivity (timeline chunking.ts_start_time chunking.ts_end_time (s0 :: rest));
      [apply ends_in_timeline|].
    transitivity (timeline chunking.ts_start_time chunking.ts_end_time
                    (chunking.align_sentences tt (chunking.sent_tokenize tt transcript)
                       words));
      [| apply align_sentences_timeline].
    rewrite Hrun, !timeline_app.
    apply sublist_inserts_l, sublist_inserts_r. reflexivity. }
  split; [exact Hsub|].
  pose proof (StronglySorted_sublist_of _ _ _ Hsub Hsorted) as Hpair.
  inversion Hpair as [|? ? _ Hall]; subst.
  inversion Hall; assumption.
Qed.

Definition spoken (text : string) (start_time end_time : Q) : transcription.WordInfo :=
  {| transcription.text := text;
     transcription.start_time := start_time;
     transcription.end_time := end_time |}.

Lemma transcript_chunk_times_ordered_witness :
  Forall (fun c => exists s e,
            chunking.start_time c = Some s
            /\ chunking.end_time c = Some e
            /\ [s; e] `sublist_of`
                 timeline transcription.start_time transcription.end_time
                   [spoken "Alpha" 0 (1 # 2); spoken "beta." (1 # 2) 1;
                    spoken "Gamma." (3 # 2) 2]
            /\ (s <= e)%Q)
         (chunking.chunk_transcript demo.tools "Alpha beta. Gamma."
            [spoken "Alpha" 0 (1 # 2); spoken "beta." (1 # 2) 1;
             spoken "Gamma." (3 # 2) 2] 11 0).
Proof.
  apply (transcript_chunk_times_ordered demo.tools "Alpha beta. Gamma."
           [spoken "Alpha" 0 (1 # 2); spoken "beta." (1 # 2) 1;
            spoken "Gamma." (3 # 2) 2] 11 0).
  simpl.
  repeat (apply SSorted_cons;
          [| repeat (apply List.Forall_cons; [unfold Qle; simpl; lia|]);
             apply List.Forall_nil]).
  apply SSorted_nil.
Defined.
